(** * The professional asset manager ([app/core/assets.py])

    A shallow embedding of [ProfessionalAssetManager]: the category
    registry, the MD5 cache fingerprint, the file cache with its 24 hour
    expiry, the provider chain and the gallery fan-out, followed by the
    properties of the specification that concern them.

    Python values are modelled as follows.
    - [str] is a list of Unicode code points ([N]); [bytes] is a list of
      octets ([N]).  [str.encode()] is UTF-8 and raises on surrogates.
    - [int] is [Z].  An f-string renders it in decimal, and raises
      [ValueError] for a number of more than 4300 digits (the default
      limit of CPython 3.11 on the conversion of an [int] to [str]).
    - What [json.load] returns is a [pyvalue]: [None], a [bool], an
      [int], a [float], a [str], a list or a dict.
    - [hashlib.md5] is the algorithm of RFC 1321; the builtin [hash] is
      salted per process and is an oracle of the environment.
    - A coroutine is a computation in the monad [M]: a tree of atomic
      steps, which read the environment (clock, network, disk and [hash]
      oracles) and change the world state (cache files, requests sent,
      errors logged), and of suspension points, where an [await] may
      hand control to the event loop; it ends by returning a value or
      raising.  [c e w] is the outcome of awaiting [c] in the world [w]
      when no other coroutine runs in between.  [exn] stands for the
      subclasses of [Exception], the ones an [except Exception] clause
      catches; the cancellation of a task is not modelled.  An exception
      that the program only catches and logs is named after the
      operation that raises it: [JSONDecodeError] for what [json.load]
      and [response.json()] raise, [KeyError] for what a subscript or
      the parsing of the timestamp raises on a value of another shape
      than the program expects ([KeyError], [TypeError], [IndexError],
      [ValueError]), [OSError] for what [open] raises.
    - [logger.error] records the exception and does not raise. *)

From Stdlib Require Import ZArith NArith List Lia Bool Ascii String.
From Stdlib Require Import DecimalString DecimalZ.
From Stdlib Require Import Floats.SpecFloat.
From stdpp Require Import gmap list.

Import ListNotations.
Local Open Scope N_scope.

(** ** Python strings *)

Abbreviation pystr := (list N).
Abbreviation bytes := (list N).

(** A source literal, as code points. *)
Definition lit (s : string) : pystr :=
  map N_of_ascii (list_ascii_of_string s).

(** The decimal text of an [int]. *)
Definition str_of_int (z : Z) : pystr :=
  lit (NilEmpty.string_of_int (Z.to_int z)).

(** [" ".join(keywords)] *)
Fixpoint join (sep : pystr) (l : list pystr) : pystr :=
  match l with
  | [] => []
  | [x] => x
  | x :: rest => x ++ sep ++ join sep rest
  end.

(** [s.replace(" ", "-")]: a single-character pattern. *)
Definition replace_char (old new : N) (s : pystr) : pystr :=
  map (fun c => if N.eqb c old then new else c) s.

(** ** Exceptions and results *)

Inductive exn : Type :=
  | UnicodeEncodeError
  | ValueError           (* an int of too many digits in an f-string *)
  | ClientError          (* aiohttp: connection failure *)
  | TimeoutError         (* aiohttp: total timeout exceeded *)
  | JSONDecodeError
  | KeyError
  | OSError.

Inductive result (A : Type) : Type :=
  | Ok (a : A)
  | Raise (e : exn).
Arguments Ok {A} a.
Arguments Raise {A} e.

(** ** [str(z)] and f-strings *)

(** [sys.get_int_max_str_digits()], which nothing in the program changes. *)
Definition int_max_str_digits : nat := 4300.

(** [str(z)] returns: [z] has no more digits than the limit (a sign does
    not count). *)
Definition renderable (z : Z) : bool :=
  (length (str_of_int (Z.abs z)) <=? int_max_str_digits)%nat.

(** An f-string whose [int] fields are [fields] and whose value, once
    they are rendered, is [text]: rendering a field raises [ValueError]
    beyond the limit.  The other fields of the f-strings of this program
    are strings. *)
Definition fstring (fields : list Z) (text : pystr) : result pystr :=
  if forallb renderable fields then Ok text else Raise ValueError.

(** ** Python values *)

(** The objects [json.load] builds. *)
#[warnings="-register-all"]
Inductive pyvalue : Type :=
  | PyNone
  | PyBool (b : bool)
  | PyInt (z : Z)
  | PyFloat (x : spec_float)
  | PyStr (s : pystr)
  | PyList (items : list pyvalue)
  | PyDict (items : list (pystr * pyvalue)).

(** [bool(v)], as [if v:] tests it. *)
Definition truth (v : pyvalue) : bool :=
  match v with
  | PyNone => false
  | PyBool b => b
  | PyInt z => negb (z =? 0)%Z
  | PyFloat (S754_zero _) => false
  | PyFloat _ => true
  | PyStr [] => false
  | PyStr (_ :: _) => true
  | PyList [] => false
  | PyList (_ :: _) => true
  | PyDict [] => false
  | PyDict (_ :: _) => true
  end.

(** ** [str.encode()]: UTF-8 *)

Definition is_surrogate (c : N) : bool :=
  (0xD800 <=? c) && (c <=? 0xDFFF).

Definition encode_char (c : N) : option bytes :=
  if c <? 0x80 then Some [c]
  else if c <? 0x800 then Some [0xC0 + c / 64; 0x80 + c mod 64]
  else if c <? 0x10000 then
    if is_surrogate c then None
    else Some [0xE0 + c / 4096; 0x80 + (c / 64) mod 64; 0x80 + c mod 64]
  else if c <? 0x110000 then
    Some [0xF0 + c / 262144; 0x80 + (c / 4096) mod 64;
          0x80 + (c / 64) mod 64; 0x80 + c mod 64]
  else None.

Fixpoint encode (s : pystr) : result bytes :=
  match s with
  | [] => Ok []
  | c :: rest =>
      match encode_char c with
      | None => Raise UnicodeEncodeError
      | Some bs =>
          match encode rest with
          | Ok r => Ok (bs ++ r)
          | Raise e => Raise e
          end
      end
  end.

(** ** [hashlib.md5(data).hexdigest()] (RFC 1321) *)

Module MD5.

Definition mask32 (x : N) : N := x mod 2 ^ 32.
Definition add32 (x y : N) : N := mask32 (x + y).
Definition not32 (x : N) : N := N.lxor (mask32 x) 0xFFFFFFFF.
Definition rotl32 (x : N) (c : N) : N :=
  let x := mask32 x in
  N.lor (mask32 (N.shiftl x c)) (N.shiftr x (32 - c)).

Definition K : list N :=
  [ 0xd76aa478; 0xe8c7b756; 0x242070db; 0xc1bdceee;
    0xf57c0faf; 0x4787c62a; 0xa8304613; 0xfd469501;
    0x698098d8; 0x8b44f7af; 0xffff5bb1; 0x895cd7be;
    0x6b901122; 0xfd987193; 0xa679438e; 0x49b40821;
    0xf61e2562; 0xc040b340; 0x265e5a51; 0xe9b6c7aa;
    0xd62f105d; 0x02441453; 0xd8a1e681; 0xe7d3fbc8;
    0x21e1cde6; 0xc33707d6; 0xf4d50d87; 0x455a14ed;
    0xa9e3e905; 0xfcefa3f8; 0x676f02d9; 0x8d2a4c8a;
    0xfffa3942; 0x8771f681; 0x6d9d6122; 0xfde5380c;
    0xa4beea44; 0x4bdecfa9; 0xf6bb4b60; 0xbebfbc70;
    0x289b7ec6; 0xeaa127fa; 0xd4ef3085; 0x04881d05;
    0xd9d4d039; 0xe6db99e5; 0x1fa27cf8; 0xc4ac5665;
    0xf4292244; 0x432aff97; 0xab9423a7; 0xfc93a039;
    0x655b59c3; 0x8f0ccc92; 0xffeff47d; 0x85845dd1;
    0x6fa87e4f; 0xfe2ce6e0; 0xa3014314; 0x4e0811a1;
    0xf7537e82; 0xbd3af235; 0x2ad7d2bb; 0xeb86d391 ].

Definition SHIFTS : list N :=
  [ 7; 12; 17; 22; 7; 12; 17; 22; 7; 12; 17; 22; 7; 12; 17; 22;
    5; 9; 14; 20; 5; 9; 14; 20; 5; 9; 14; 20; 5; 9; 14; 20;
    4; 11; 16; 23; 4; 11; 16; 23; 4; 11; 16; 23; 4; 11; 16; 23;
    6; 10; 15; 21; 6; 10; 15; 21; 6; 10; 15; 21; 6; 10; 15; 21 ].

(** Little-endian bytes of a word, and back. *)
Fixpoint le_bytes (n : nat) (x : N) : bytes :=
  match n with
  | O => []
  | S n' => x mod 256 :: le_bytes n' (x / 256)
  end.

Fixpoint le_word (bs : bytes) : N :=
  match bs with
  | [] => 0
  | b :: rest => b mod 256 + 256 * le_word rest
  end.

(** The message followed by 0x80, zero bytes up to 56 modulo 64 and the
    bit length on 8 bytes. *)
Definition pad (msg : bytes) : bytes :=
  let len := N.of_nat (length msg) in
  let zeros := (55 + 64 - len mod 64) mod 64 in
  msg ++ [0x80] ++ repeat 0 (N.to_nat zeros) ++ le_bytes 8 ((8 * len) mod 2 ^ 64).

Fixpoint chunks (fuel : nat) (size : nat) (l : bytes) : list bytes :=
  match fuel with
  | O => []
  | S fuel' =>
      match l with
      | [] => []
      | _ => firstn size l :: chunks fuel' size (skipn size l)
      end
  end.

Definition words (block : bytes) : list N :=
  map le_word (chunks 16 4 block).

Record regs : Type := Regs { ra : N; rb : N; rc : N; rd : N }.

Definition init : regs :=
  Regs 0x67452301 0xefcdab89 0x98badcfe 0x10325476.

Definition step (m : list N) (r : regs) (i : N) : regs :=
  let '(Regs a b c d) := r in
  let '(f, g) :=
    if i <? 16 then (N.lor (N.land b c) (N.land (not32 b) d), i)
    else if i <? 32 then
      (N.lor (N.land d b) (N.land (not32 d) c), (5 * i + 1) mod 16)
    else if i <? 48 then (N.lxor b (N.lxor c d), (3 * i + 5) mod 16)
    else (N.lxor c (N.lor b (not32 d)), (7 * i) mod 16) in
  let f' := add32 (add32 (add32 f a) (nth (N.to_nat i) K 0))
                  (nth (N.to_nat g) m 0) in
  Regs d (add32 b (rotl32 f' (nth (N.to_nat i) SHIFTS 0))) b c.

Definition rounds : list N := map N.of_nat (seq 0 64).

Definition process (r : regs) (block : bytes) : regs :=
  let r' := fold_left (step (words block)) rounds r in
  Regs (add32 (ra r) (ra r')) (add32 (rb r) (rb r'))
       (add32 (rc r) (rc r')) (add32 (rd r) (rd r')).

Definition digest (msg : bytes) : bytes :=
  let p := pad msg in
  let r := fold_left process (chunks (length p) 64 p) init in
  le_bytes 4 (ra r) ++ le_bytes 4 (rb r) ++ le_bytes 4 (rc r) ++ le_bytes 4 (rd r).

Definition hex_digit (n : N) : N :=
  if n <? 10 then 48 + n else 87 + n.

Definition hex_byte (b : N) : pystr :=
  [hex_digit (b / 16); hex_digit (b mod 16)].

Definition hexdigest (msg : bytes) : pystr :=
  concat (map hex_byte (digest msg)).

End MD5.

(** ** The world outside the process *)

(** What a cache file holds.  [Unreadable]: [open] or [json.load]
    raises.  Otherwise the JSON value, as the subscripts of the code see
    it: [url] is [None] when [cache_data['url']] raises (the key is
    missing, or the value is not an object) and is the value stored under
    the key otherwise, whatever its type; [timestamp] is [None] when
    [cache_data['timestamp']] or the parsing of a naive ISO time raises,
    and is the parsed time in microseconds otherwise. *)
Inductive cache_file : Type :=
  | Unreadable
  | CacheData (url : option pyvalue) (timestamp : option Z).

(** The first entries of a search response: [photo['urls']['raw']] as the
    f-string renders it, or [PhotoNoRaw] when the subscripts raise. *)
Inductive photo_entry : Type :=
  | PhotoNoRaw
  | Photo (raw : pystr).

(** The body of a response as [response.json()] and
    [data.get("results")] see it. *)
Inductive body : Type :=
  | Malformed
  | Results (results : list photo_entry).

Inductive http_outcome : Type :=
  | Fails (e : exn)
  | Response (status : Z) (data : body).

Inductive request : Type :=
  | GET (url : pystr) (headers params : list (pystr * pystr))
  | HEAD (url : pystr).

Inductive write_outcome : Type :=
  | Written
  | OpenFails      (* open(cache_file, 'w') raises: the file is untouched *)
  | DumpFails.     (* json.dump raises after the file was truncated *)

(** The oracles of one run.  Each is indexed by the number of external
    interactions (clock readings, requests, writes) made so far, so that
    answers may change from one call to the next.  [schedule] is the
    order in which the event loop lets the tasks of a [gather] run: it
    depends on when their network operations complete. *)
Record env : Type := Env {
  clock : nat -> Z;                         (* datetime.now(), microseconds *)
  http : nat -> request -> http_outcome;    (* aiohttp *)
  disk_write : nat -> pystr -> write_outcome;
  py_hash : pystr -> Z;                     (* builtin hash() on str *)
  schedule : nat -> list nat                (* the turns of the event loop *)
}.

Record world : Type := World {
  files : gmap pystr cache_file;   (* the cache directory *)
  steps : nat;                     (* external interactions so far *)
  requests : list request;         (* network requests issued, oldest first *)
  errors : list exn                (* logger.error calls, oldest first *)
}.

Definition tick (w : world) : world :=
  World (files w) (S (steps w)) (requests w) (errors w).

(** ** Coroutines *)

(** A coroutine has returned or raised ([Return]), or it performs an
    atomic step and goes on with its outcome ([Act]), or it has reached a
    suspension point, where other tasks may run before it goes on
    ([Suspend]). *)
Inductive M (A : Type) : Type :=
  | Return (r : result A)
  | Act {X : Type} (step : env -> world -> X * world) (k : X -> M A)
  | Suspend (k : M A).
Arguments Return {A} r.
Arguments Act {A X} step k.
Arguments Suspend {A} k.

(** [await c], when nothing else runs at its suspension points. *)
Fixpoint await {A} (c : M A) (e : env) (w : world) : result A * world :=
  match c with
  | Return r => (r, w)
  | Act step k => let '(x, w') := step e w in await (k x) e w'
  | Suspend k => await k e w
  end.

Coercion await : M >-> Funclass.

Definition ret {A} (a : A) : M A := Return (Ok a).

Fixpoint bind {A B} (c : M A) (k : A -> M B) : M B :=
  match c with
  | Return (Ok a) => k a
  | Return (Raise x) => Return (Raise x)
  | Act step k' => Act step (fun x => bind (k' x) k)
  | Suspend c' => Suspend (bind c' k)
  end.

Definition raise {A} (x : exn) : M A := Return (Raise x).

(** [try: body  except Exception as e: handler(e)] *)
Fixpoint try_except {A} (body : M A) (handler : exn -> M A) : M A :=
  match body with
  | Return (Ok a) => Return (Ok a)
  | Return (Raise x) => handler x
  | Act step k => Act step (fun x => try_except (k x) handler)
  | Suspend body' => Suspend (try_except body' handler)
  end.

Declare Scope py_scope.
Delimit Scope py_scope with py.
Notation "x <- c ;; k" := (bind c (fun x => k))
  (at level 100, c at next level, right associativity) : py_scope.
Notation "c ;;; k" := (bind c (fun _ => k))
  (at level 100, right associativity) : py_scope.
Local Open Scope py_scope.

Definition lift {A} (r : result A) : M A := Return r.

(** An atomic step that returns or raises. *)
Definition perform {A} (step : env -> world -> result A * world) : M A :=
  Act step Return.

(** A point where the coroutine may be suspended. *)
Definition suspend : M unit := Suspend (ret tt).

(** The exit of an [async with] block: it is awaited, whether the block
    returned or raised. *)
Definition async_exit {A} (block : M A) : M A :=
  try_except (a <- block;; suspend;;; ret a) (fun x => suspend;;; raise x).

(** [datetime.now()] *)
Definition datetime_now : M Z :=
  perform (fun e w => (Ok (clock e (steps w)), tick w)).

(** [session.get(...)] / [session.head(...)]: the request is issued, and
    while it is under way the coroutine is suspended; then either the
    client raises or a response has come back. *)
Definition send (r : request) : M (Z * body) :=
  outcome <-
    perform (fun e w =>
      (Ok (http e (steps w) r),
       World (files w) (S (steps w)) (requests w ++ [r]) (errors w)));;
  suspend;;;
  match outcome with
  | Fails x => raise x
  | Response status data => ret (status, data)
  end.

(** [await response.json()] followed by [data.get("results")] *)
Definition json_results (data : body) : M (list photo_entry) :=
  suspend;;;
  match data with
  | Malformed => raise JSONDecodeError
  | Results l => ret l
  end.

(** [photo['urls']['raw']] *)
Definition photo_raw (p : photo_entry) : M pystr :=
  match p with
  | PhotoNoRaw => raise KeyError
  | Photo raw => ret raw
  end.

(** [cache_file.exists()] *)
Definition path_exists (path : pystr) : M bool :=
  perform (fun _ w => (Ok (bool_decide (is_Some (files w !! path))), w)).

(** [with open(cache_file, 'r') as f: cache_data = json.load(f)] *)
Definition json_load (path : pystr) : M (option pyvalue * option Z) :=
  perform (fun _ w =>
    match files w !! path with
    | None => (Raise OSError, w)
    | Some Unreadable => (Raise JSONDecodeError, w)
    | Some (CacheData url ts) => (Ok (url, ts), w)
    end).

(** [cache_data[key]] *)
Definition getitem {A} (field : option A) : M A :=
  match field with
  | None => raise KeyError
  | Some v => ret v
  end.

(** [with open(cache_file, 'w') as f: json.dump(cache_data, f)] *)
Definition json_dump (path url : pystr) (timestamp : Z) : M unit :=
  perform (fun e w =>
    let put f := World f (S (steps w)) (requests w) (errors w) in
    match disk_write e (steps w) path with
    | Written =>
        (Ok tt, put (<[path := CacheData (Some (PyStr url)) (Some timestamp)]> (files w)))
    | OpenFails => (Raise OSError, put (files w))
    | DumpFails => (Raise OSError, put (<[path := Unreadable]> (files w)))
    end).

(** [logger.error(...)] *)
Definition logger_error (x : exn) : M unit :=
  perform (fun _ w =>
    (Ok tt, World (files w) (steps w) (requests w) (errors w ++ [x]))).

(** Truth value of an [Optional[str]]. *)
Definition truthy (o : option pystr) : bool :=
  match o with
  | Some (_ :: _) => true
  | _ => false
  end.

(** ** The manager object *)

Record manager : Type := Manager {
  cache_dir : pystr;
  cache_duration : Z;
  business_categories : gmap pystr (list pystr);
  unsplash_access_key : option pystr;
  unsplash_base_url : pystr;
  fallback_services : list pystr
}.

Definition registry_items : list (string * list string) :=
  [ ("business-team", ["business"; "team"; "office"; "professional"]);
    ("technology-consulting", ["technology"; "consulting"; "computer"; "business"]);
    ("business-strategy", ["strategy"; "planning"; "business"; "meeting"]);
    ("digital-transformation", ["digital"; "technology"; "innovation"; "business"]);
    ("professional-team", ["team"; "business"; "professional"; "office"]);
    ("modern-office", ["office"; "workspace"; "modern"; "business"]);
    ("team-meeting", ["meeting"; "business"; "team"; "conference"]);
    ("workspace", ["workspace"; "office"; "desk"; "computer"]);
    ("professional-woman", ["business"; "woman"; "professional"; "portrait"]);
    ("professional-man", ["business"; "man"; "professional"; "portrait"]);
    ("business-woman", ["business"; "woman"; "suit"; "professional"]);
    ("business-consulting", ["consulting"; "business"; "meeting"; "professional"]);
    ("technology-stack", ["technology"; "computer"; "software"; "coding"]);
    ("cloud-computing", ["cloud"; "technology"; "server"; "computing"]);
    ("data-analytics", ["data"; "analytics"; "chart"; "business"]);
    ("cybersecurity", ["security"; "technology"; "protection"; "cyber"]);
    ("mobile-development", ["mobile"; "app"; "development"; "technology"]);
    ("ai-machine-learning",
       ["artificial intelligence"; "machine learning"; "technology"; "future"]);
    ("business-meeting", ["meeting"; "business"; "conference"; "professional"]);
    ("modern-office-space", ["office"; "modern"; "workspace"; "interior"]);
    ("business-insights", ["business"; "insights"; "data"; "analytics"]);
    ("technology-trends", ["technology"; "trends"; "innovation"; "future"]);
    ("business-growth", ["growth"; "business"; "success"; "chart"]);
    ("digital-innovation", ["digital"; "innovation"; "technology"; "future"]) ]%string.

Definition registry_entries : list (pystr * list pystr) :=
  map (fun '(k, v) => (lit k, map lit v)) registry_items.

(** [timedelta(hours=n)], in microseconds. *)
Definition hours (n : Z) : Z := (n * 3600 * 1000000)%Z.

Definition YOUR_UNSPLASH_ACCESS_KEY : pystr := lit "YOUR_UNSPLASH_ACCESS_KEY".

(** [ProfessionalAssetManager.__init__]: the attributes it sets (it also
    creates the cache directory). *)
Definition __init__ : manager :=
  {| cache_dir := lit "app/static/images/cache";
     cache_duration := hours 24;
     business_categories := list_to_map registry_entries;
     unsplash_access_key := Some YOUR_UNSPLASH_ACCESS_KEY;
     unsplash_base_url := lit "https://api.unsplash.com";
     fallback_services :=
       [lit "https://picsum.photos"; lit "https://source.unsplash.com"] |}.

(** The manager after [manager.unsplash_access_key = key]. *)
Definition with_key (key : option pystr) (m : manager) : manager :=
  {| cache_dir := cache_dir m;
     cache_duration := cache_duration m;
     business_categories := business_categories m;
     unsplash_access_key := key;
     unsplash_base_url := unsplash_base_url m;
     fallback_services := fallback_services m |}.

(** ** The methods of [ProfessionalAssetManager] *)

(** [self.business_categories.get(category, [category])] *)
Definition keywords_for (m : manager) (category : pystr) : list pystr :=
  default [category] (business_categories m !! category).

(** [_generate_cache_key]: [f"{category}_{width}_{height}"], encoded and
    hashed. *)
Definition key_string (category : pystr) (width height : Z) : pystr :=
  category ++ lit "_" ++ str_of_int width ++ lit "_" ++ str_of_int height.

Definition _generate_cache_key (category : pystr) (width height : Z) : result pystr :=
  match fstring [width; height] (key_string category width height) with
  | Ok key_string =>
      match encode key_string with
      | Ok data => Ok (MD5.hexdigest data)
      | Raise e => Raise e
      end
  | Raise e => Raise e
  end.

(** [self.cache_dir / f"{cache_key}.json"], for a hexadecimal key. *)
Definition cache_path (m : manager) (cache_key : pystr) : pystr :=
  cache_dir m ++ lit "/" ++ cache_key ++ lit ".json".

(** [_get_cached_image]: the value stored under ['url'], or [None]. *)
Definition _get_cached_image (m : manager) (cache_key : pystr) : M pyvalue :=
  try_except
    (let cache_file := cache_path m cache_key in
     found <- path_exists cache_file;;
     if found : bool then
       cache_data <- json_load cache_file;;
       cached_time <- getitem (snd cache_data);;
       now <- datetime_now;;
       if (now - cached_time <? cache_duration m)%Z then
         getitem (fst cache_data)
       else ret PyNone
     else ret PyNone)
    (fun e => logger_error e;;; ret PyNone).

(** [_cache_image_url] *)
Definition _cache_image_url (m : manager) (cache_key url : pystr) : M unit :=
  try_except
    (let cache_file := cache_path m cache_key in
     timestamp <- datetime_now;;
     json_dump cache_file url timestamp)
    (fun e => logger_error e).

(** [f"/static/images/placeholder-{width}x{height}.svg"] *)
Definition placeholder_reference (width height : Z) : pystr :=
  lit "/static/images/placeholder-" ++ str_of_int width ++ lit "x"
    ++ str_of_int height ++ lit ".svg".

(** [_get_local_placeholder] *)
Definition _get_local_placeholder (width height : Z) : result pystr :=
  fstring [width; height] (placeholder_reference width height).

(** [not self.unsplash_access_key or
     self.unsplash_access_key == "YOUR_UNSPLASH_ACCESS_KEY"] *)
Definition key_missing (m : manager) : bool :=
  negb (truthy (unsplash_access_key m))
  || bool_decide (unsplash_access_key m = Some YOUR_UNSPLASH_ACCESS_KEY).

(** The request of [session.get]: URL, headers and query parameters.  It
    is built only for a key that is a non-empty string. *)
Definition search_request (m : manager) (category : pystr) : request :=
  let keywords := keywords_for m category in
  let query := join (lit " ") keywords in
  let headers :=
    [(lit "Authorization",
      lit "Client-ID " ++ default [] (unsplash_access_key m))] in
  let params :=
    [(lit "query", query); (lit "orientation", lit "landscape");
     (lit "per_page", str_of_int 1); (lit "order_by", lit "relevant")] in
  GET (unsplash_base_url m ++ lit "/search/photos") headers params.

(** [f"{photo['urls']['raw']}&w={width}&h={height}&fit=crop&crop=center"] *)
Definition composed_url (raw : pystr) (width height : Z) : pystr :=
  raw ++ lit "&w=" ++ str_of_int width ++ lit "&h=" ++ str_of_int height
    ++ lit "&fit=crop&crop=center".

(** [_fetch_from_unsplash] *)
Definition _fetch_from_unsplash (m : manager) (category : pystr)
    (width height : Z) : M (option pystr) :=
  try_except
    (if key_missing m then ret None
     else
       async_exit                        (* async with aiohttp.ClientSession() *)
         (response <- send (search_request m category);;
          async_exit                     (* async with session.get(...) as response *)
            (if (fst response =? 200)%Z then
               results <- json_results (snd response);;
               match results with
               | [] => ret None
               | photo :: _ =>
                   raw <- photo_raw photo;;
                   url <- lift (fstring [width; height] (composed_url raw width height));;
                   ret (Some url)
               end
             else ret None)))
    (fun e => logger_error e;;; ret None).

(** [f"https://source.unsplash.com/{width}x{height}/?{keyword}"] *)
Definition redirect_url (keyword : pystr) (width height : Z) : pystr :=
  lit "https://source.unsplash.com/" ++ str_of_int width ++ lit "x"
    ++ str_of_int height ++ lit "/?" ++ keyword.

(** [f"https://picsum.photos/{width}/{height}?random={hash(category) % 1000}"] *)
Definition picsum_url (hash : pystr -> Z) (category : pystr)
    (width height : Z) : pystr :=
  lit "https://picsum.photos/" ++ str_of_int width ++ lit "/"
    ++ str_of_int height ++ lit "?random=" ++ str_of_int (hash category mod 1000)%Z.

(** The same, with the [hash] of this process. *)
Definition lorem_picsum (category : pystr) (width height : Z) : M pystr :=
  perform (fun e w =>
    (fstring [width; height; (py_hash e category mod 1000)%Z]
       (picsum_url (py_hash e) category width height), w)).

(** [_fetch_fallback_image] *)
Definition _fetch_fallback_image (m : manager) (category : pystr)
    (width height : Z) : M (option pystr) :=
  try_except
    (let keywords := keywords_for m category in
     checked <-
       match keywords with
       | [] => ret None
       | first :: _ =>
           let keyword := replace_char 32 45 first in
           fallback_url <-
             lift (fstring [width; height] (redirect_url keyword width height));;
           async_exit                    (* async with aiohttp.ClientSession() *)
             (response <- send (HEAD fallback_url);;
              async_exit                 (* async with session.head(...) as response *)
                (if (fst response =? 200)%Z then ret (Some fallback_url)
                 else ret None))
       end;;
     match checked with
     | Some fallback_url => ret (Some fallback_url)
     | None =>
         url <- lorem_picsum category width height;;
         ret (Some url)
     end)
    (fun e =>
       logger_error e;;;
       url <- lorem_picsum category width height;;
       ret (Some url)).

(** [get_image]: what it returns is the value found in the cache, or a
    string. *)
Definition get_image (m : manager) (category : pystr) (width height : Z) : M pyvalue :=
  try_except
    (cache_key <- lift (_generate_cache_key category width height);;
     cached_url <- _get_cached_image m cache_key;;
     if truth cached_url then ret cached_url
     else
       image_url <- _fetch_from_unsplash m category width height;;
       image_url <-
         (if truthy image_url then ret image_url
          else _fetch_fallback_image m category width height);;
       if truthy image_url then
         _cache_image_url m cache_key (default [] image_url);;;
         ret (PyStr (default [] image_url))
       else
         placeholder <- lift (_get_local_placeholder width height);;
         ret (PyStr placeholder))
    (fun e =>
       logger_error e;;;
       placeholder <- lift (_get_local_placeholder width height);;
       ret (PyStr placeholder)).

(** ** The event loop *)

(** A task runs until its next suspension point, or to its end. *)
Fixpoint advance {A} (c : M A) (e : env) (w : world) : M A * world :=
  match c with
  | Return r => (Return r, w)
  | Act step k => let '(x, w') := step e w in advance (k x) e w'
  | Suspend k => (k, w)
  end.

(** The event loop gives a turn to task [i]. *)
Definition resume {A} (i : nat) (tasks : list (M A)) (e : env) (w : world)
    : list (M A) * world :=
  match tasks !! i with
  | Some c => let '(c', w') := advance c e w in (<[i := c']> tasks, w')
  | None => (tasks, w)
  end.

Fixpoint event_loop {A} (turns : list nat) (tasks : list (M A)) (e : env) (w : world)
    : list (M A) * world :=
  match turns with
  | [] => (tasks, w)
  | i :: rest =>
      let '(tasks', w') := resume (i mod length tasks)%nat tasks e w in
      event_loop rest tasks' e w'
  end.

(** The tasks that are not finished run to their end, one after the
    other. *)
Fixpoint complete {A} (tasks : list (M A)) (e : env) (w : world)
    : list (result A) * world :=
  match tasks with
  | [] => ([], w)
  | c :: rest =>
      let '(r, w1) := await c e w in
      let '(rs, w2) := complete rest e w1 in
      (r :: rs, w2)
  end.

(** [asyncio.gather] with [return_exceptions=True]: one result per task,
    in the order of the tasks, a raised exception standing in for the
    value of its task.  The tasks run concurrently: the event loop gives
    them turns in the order of [schedule], each turn taking a task from
    one suspension point to the next; every order in which the tasks can
    be interleaved at their suspension points is the order of some
    environment. *)
Definition gather {A} (tasks : list (M A)) : M (list (result A)) :=
  perform (fun e w =>
    let '(tasks', w1) := event_loop (schedule e (steps w)) tasks e w in
    let '(results, w2) := complete tasks' e w1 in
    (Ok results, w2)).

(** [[img for img in results if isinstance(img, str) and img]] *)
Definition is_image (r : result pyvalue) : bool :=
  match r with
  | Ok (PyStr (_ :: _)) => true
  | _ => false
  end.

Definition image_of (r : result pyvalue) : pystr :=
  match r with
  | Ok (PyStr img) => img
  | _ => []
  end.

Definition select_images (results : list (result pyvalue)) : list pystr :=
  map image_of (List.filter is_image results).

(** [get_image_gallery] *)
Definition get_image_gallery (m : manager) (categories : list pystr)
    (width height : Z) : M (list pystr) :=
  let tasks := map (fun category => get_image m category width height) categories in
  results <- gather tasks;;
  ret (select_images results).

(** ** The application *)

(** [app/core/config.py]: the setting declared for the credential. *)
Module Config.
Record Settings : Type := { unsplash_access_key : option pystr }.
End Config.

(** [main.py]: [asset_manager = ProfessionalAssetManager()], in a process
    started with the given settings. *)
Definition asset_manager (settings : Config.Settings) : manager := __init__.

(** ** Vocabulary of the statements *)

(** The characters of a rendered integer: ['-'] and the decimal digits. *)
Definition int_char (c : N) : Prop := c = 45 \/ (48 <= c <= 57).





Definition logged (x : exn) (w : world) : world :=
  World (files w) (steps w) (requests w) (errors w ++ [x]).

Definition sent (r : request) (w : world) : world :=
  World (files w) (S (steps w)) (requests w ++ [r]) (errors w).

Definition stored (path : pystr) (f : cache_file) (w : world) : world :=
  World (<[path := f]> (files w)) (S (steps w)) (requests w) (errors w).

(** A computation that returns in every world. *)
Definition never_raises {A} (c : M A) : Prop :=
  forall e w, exists a w', c e w = (Ok a, w').

(** The URL of the keyword redirect provider, when the category has a
    keyword to build it from. *)
Definition redirect_of (m : manager) (c : pystr) (width height : Z) : option pystr :=
  match keywords_for m c with
  | [] => None
  | first :: _ => Some (redirect_url (replace_char 32 45 first) width height)
  end.

(** The reachability check did not come back with status 200: it raised,
    or answered another status. *)
Definition check_fails (e : env) (w : world) (url : pystr) : Prop :=
  forall data, http e (steps w) (HEAD url) <> Response 200 data.

(** A URL that one of the three providers can give for a category: the
    URL composed from a search result (with a credential), the URL of the
    keyword redirect, or the random-image URL. *)
Definition provider_url (m : manager) (e : env) (c : pystr) (width height : Z)
    (url : pystr) : Prop :=
  (key_missing m = false /\ exists raw, url = composed_url raw width height) \/
  redirect_of m c width height = Some url \/
  url = picsum_url (py_hash e) c width height.

(** A URL that a provider gives on the strength of an answer of the
    network: the URL composed from the first result of an answer to the
    search (with a credential); the URL of the keyword redirect, when an
    answer to its check had status 200; the random-image URL, when the
    category has no keyword or a check of the redirect URL failed. *)
Definition answered_url (m : manager) (e : env) (c : pystr) (width height : Z)
    (url : pystr) : Prop :=
  (key_missing m = false /\
   exists n raw rest,
     http e n (search_request m c) = Response 200 (Results (Photo raw :: rest)) /\
     url = composed_url raw width height) \/
  (redirect_of m c width height = Some url /\
   exists n data, http e n (HEAD url) = Response 200 data) \/
  (url = picsum_url (py_hash e) c width height /\
   forall checked,
     redirect_of m c width height = Some checked ->
     exists n, forall data, http e n (HEAD checked) <> Response 200 data).

(** Where the value returned by [get_image] can come from when the key
    was computed: the cache record, or one of the three providers. *)
Definition cache_or_provider_url (m : manager) (c : pystr) (width height : Z)
    (e : env) (w : world) (k : pystr) (v : pyvalue) : Prop :=
  (exists ts, files w !! cache_path m k = Some (CacheData (Some v) ts)) \/
  (exists url, v = PyStr url /\ provider_url m e c width height url).

(** An exception escapes the cache lookup, the search fetch or the cache
    write. *)
Definition helper_raises (m : manager) (c : pystr) (width height : Z) (e : env) : Prop :=
  (exists k w x w', _get_cached_image m k e w = (Raise x, w')) \/
  (exists w x w', _fetch_from_unsplash m c width height e w = (Raise x, w')) \/
  (exists k url w x w', _cache_image_url m k url e w = (Raise x, w')).

(** The same environment with another [hash]. *)
Definition with_hash (hash : pystr -> Z) (e : env) : env :=
  Env (clock e) (http e) (disk_write e) hash (schedule e).

(** The same environment with another schedule of the event loop. *)
Definition with_schedule (turns : list nat) (e : env) : env :=
  Env (clock e) (http e) (disk_write e) (py_hash e) (fun _ => turns).

(** What the handler of [get_image] comes to: the placeholder, when its
    f-string can be rendered. *)
Definition handler_result (width height : Z) : result pyvalue :=
  match _get_local_placeholder width height with
  | Ok placeholder => Ok (PyStr placeholder)
  | Raise x => Raise x
  end.

(** The cache holds strings only: every record that has a ['url'] has a
    string there, as the records written by [_cache_image_url] have. *)
Definition strings_only (w : world) : Prop :=
  forall path v ts,
    files w !! path = Some (CacheData (Some v) ts) -> exists s, v = PyStr s.

(** *** The tasks of a batch *)

(** A cache file left by a task of the batch that resolves [categories]:
    the record of a URL given by a provider, under the fingerprint of its
    category, or what an interrupted write leaves there. *)
Definition written_by_batch (m : manager) (e : env) (categories : list pystr)
    (width height : Z) (path : pystr) (f : cache_file) : Prop :=
  exists c k,
    c ∈ categories /\
    _generate_cache_key c width height = Ok k /\
    path = cache_path m k /\
    (f = Unreadable \/
     exists url ts,
       answered_url m e c width height url /\
       f = CacheData (Some (PyStr url)) (Some ts)).

(** The cache directory while the batch runs, started in [w0]. *)
Definition batch_files (m : manager) (e : env) (w0 : world) (categories : list pystr)
    (width height : Z) (w : world) : Prop :=
  forall path f,
    files w !! path = Some f ->
    files w0 !! path = Some f \/ written_by_batch m e categories width height path f.

(** What the resolution of [category] comes to in a batch started in
    [w0].  Without a fingerprint it is what the handler gives.  With a
    fingerprint it is a URL that a provider gives for the category, or
    the value that the cache held under the fingerprint when the batch
    started, or a URL that a provider gives for a category of the batch
    with the same fingerprint, which that category has written there. *)
Definition resolution (m : manager) (e : env) (w0 : world) (categories : list pystr)
    (width height : Z) (category : pystr) (r : result pyvalue) : Prop :=
  match _generate_cache_key category width height with
  | Raise _ => r = handler_result width height
  | Ok k =>
      (exists url, r = Ok (PyStr url) /\ answered_url m e category width height url) \/
      (exists v ts,
         r = Ok v /\ truth v = true /\
         files w0 !! cache_path m k = Some (CacheData (Some v) (Some ts))) \/
      (exists c url,
         r = Ok (PyStr url) /\ c ∈ categories /\
         _generate_cache_key c width height = Ok k /\
         answered_url m e c width height url)
  end.

(** Whatever runs between the steps of the coroutine [c], as long as the
    world satisfies [I] when a step begins, the world satisfies [I] when
    the step ends, and the outcome of [c] satisfies [Q]. *)
Fixpoint guarantees {A} (e : env) (I : world -> Prop) (c : M A)
    (Q : result A -> Prop) : Prop :=
  match c with
  | Return r => Q r
  | Act step k =>
      forall w, I w -> I (snd (step e w)) /\ guarantees e I (k (fst (step e w))) Q
  | Suspend k => guarantees e I k Q
  end.

(** ** Sample worlds *)

Definition empty_world : world := World ∅ 0 [] [].

(** Every request times out, the disk works, the clock stands still. *)
Definition offline : env :=
  Env (fun _ => 0%Z) (fun _ _ => Fails TimeoutError) (fun _ _ => Written)
      (fun _ => 0%Z) (fun _ => []).

(** Every request is answered 200 with an empty result list; the clock
    advances by a microsecond at each reading. *)
Definition online : env :=
  Env (fun n => Z.of_nat n) (fun _ _ => Response 200 (Results []))
      (fun _ _ => Written) (fun _ => (-7)%Z) (fun _ => []).

(** As [online], with a cache directory that cannot be written. *)
Definition read_only : env :=
  Env (fun n => Z.of_nat n) (fun _ _ => Response 200 (Results []))
      (fun _ _ => OpenFails) (fun _ => (-7)%Z) (fun _ => []).

(** A cache whose record for ["business-team"] at 800 by 600 holds the
    number 5 where the URL should be. *)
Definition number_cached : world :=
  World
    {[ cache_path __init__ (lit "06a3a7149cb070b75448783074ef67d5") :=
         CacheData (Some (PyInt 5)) (Some 0%Z) ]}
    0 [] [].

(** An [int] of 4301 digits. *)
Definition huge : Z := 10 ^ 4300.

(** ** [create_placeholder_svg] *)

Definition quote : pystr := [34].
Definition newline : pystr := [10].
Definition spaces (n : nat) : pystr := repeat 32 n.

(** [name="value"] *)
Definition attr (name : string) (value : pystr) : pystr :=
  lit name ++ lit "=" ++ quote ++ value ++ quote.

Definition default_text : pystr := lit "Professional Image".

(** The f-string of [create_placeholder_svg], line by line. *)
Definition placeholder_svg (width height : Z) (text : pystr) : pystr :=
  newline
  ++ spaces 8 ++ lit "<svg " ++ attr "width" (str_of_int width) ++ lit " "
       ++ attr "height" (str_of_int height) ++ lit " "
       ++ attr "xmlns" (lit "http://www.w3.org/2000/svg") ++ lit ">" ++ newline
  ++ spaces 12 ++ lit "<rect " ++ attr "width" (lit "100%") ++ lit " "
       ++ attr "height" (lit "100%") ++ lit " " ++ attr "fill" (lit "#f8f9fa")
       ++ lit "/>" ++ newline
  ++ spaces 12 ++ lit "<rect " ++ attr "x" (lit "2") ++ lit " " ++ attr "y" (lit "2")
       ++ lit " " ++ attr "width" (str_of_int (width - 4)) ++ lit " "
       ++ attr "height" (str_of_int (height - 4)) ++ lit " "
       ++ attr "fill" (lit "none") ++ lit " " ++ attr "stroke" (lit "#dee2e6")
       ++ lit " " ++ attr "stroke-width" (lit "2") ++ lit "/>" ++ newline
  ++ spaces 12 ++ lit "<text " ++ attr "x" (lit "50%") ++ lit " " ++ attr "y" (lit "50%")
       ++ lit " " ++ attr "font-family" (lit "Arial, sans-serif") ++ lit " "
       ++ attr "font-size" (lit "16") ++ lit " " ++ attr "fill" (lit "#6c757d")
       ++ lit " " ++ attr "text-anchor" (lit "middle") ++ lit " "
       ++ attr "dy" (lit ".3em") ++ lit ">" ++ text ++ lit "</text>" ++ newline
  ++ spaces 8 ++ lit "</svg>" ++ newline
  ++ spaces 8.

(** [create_placeholder_svg] *)
Definition create_placeholder_svg (width height : Z) (text : pystr) : result pystr :=
  fstring [width; height; (width - 4)%Z; (height - 4)%Z]
    (placeholder_svg width height text).

(** ** The page handlers of [main.py], up to the rendering of the template *)

(** [images[i] if len(images) > i else None], and for [i = 0]
    [images[0] if images else None]. *)
Definition image_at (images : list pystr) (i : nat) : option pystr :=
  if (i <? length images)%nat then images !! i else None.

(** [homepage]: the hero image and the image given to each service card. *)
Definition homepage_images (m : manager)
    : M (pyvalue * list (string * option pystr)) :=
  hero_image <- get_image m (lit "business-team") 1920 1080;;
  services_images <-
    get_image_gallery m
      [lit "technology-consulting"; lit "business-strategy"; lit "digital-transformation"]
      400 300;;
  ret (hero_image,
       [("Technology Consulting"%string, image_at services_images 0);
        ("Digital Transformation"%string, image_at services_images 1);
        ("Business Strategy"%string, image_at services_images 2)]).

(** ** The contact form ([app/models/contact.py]) *)

Module Contact.

(** [str.isspace] on one character: the white space that [str.strip]
    removes. *)
Definition isspace (c : N) : bool :=
  ((9 <=? c) && (c <=? 13)) || ((28 <=? c) && (c <=? 32))
  || (c =? 0x85) || (c =? 0xA0) || (c =? 0x1680)
  || ((0x2000 <=? c) && (c <=? 0x200A))
  || (c =? 0x2028) || (c =? 0x2029) || (c =? 0x202F) || (c =? 0x205F)
  || (c =? 0x3000).

Fixpoint lstrip (s : pystr) : pystr :=
  match s with
  | [] => []
  | c :: rest => if isspace c then lstrip rest else s
  end.

Definition rstrip (s : pystr) : pystr := rev (lstrip (rev s)).

(** [v.strip()] *)
Definition strip (s : pystr) : pystr := rstrip (lstrip s).

Inductive validation_error : Type :=
  | ValueError (msg : string)        (* raised by a validator of the class *)
  | MinLengthError (limit : nat)     (* shorter than [min_length] *)
  | MaxLengthError (limit : nat)     (* longer than [max_length] *)
  | EmailError.                      (* not an e-mail address *)

Inductive checked (A : Type) : Type :=
  | Accepted (a : A)
  | Rejected (e : validation_error).
Arguments Accepted {A} a.
Arguments Rejected {A} e.

Definition and_then {A B} (c : checked A) (f : A -> checked B) : checked B :=
  match c with
  | Accepted a => f a
  | Rejected e => Rejected e
  end.

(** [validate_name] *)
Definition validate_name (v : pystr) : checked pystr :=
  match strip v with
  | [] => Rejected (ValueError "Name cannot be empty")
  | stripped => Accepted stripped
  end.

(** [validate_message] *)
Definition validate_message (v : pystr) : checked pystr :=
  match strip v with
  | [] => Rejected (ValueError "Message cannot be empty")
  | stripped => Accepted stripped
  end.

Section Form.

(** [str.isdigit] on one character, and the check behind [EmailStr], which
    returns the address it accepts. *)
Variable isdigit : N -> bool.
Variable email_validator : pystr -> option pystr.

(** [''.join(filter(str.isdigit, v))] *)
Definition digits (v : pystr) : pystr := List.filter isdigit v.

(** [validate_phone] *)
Definition validate_phone (v : option pystr) : checked (option pystr) :=
  if truthy v && negb (bool_decide (strip (default [] v) = [])) then
    let cleaned := digits (default [] v) in
    if (length cleaned <? 7)%nat then Rejected (ValueError "Phone number too short")
    else Accepted v
  else Accepted v.

(** The length bounds of a [Field]: the lower one is tested first. *)
Definition too_short (min_length : option nat) (v : pystr) : bool :=
  match min_length with
  | Some n => (length v <? n)%nat
  | None => false
  end.

Definition too_long (max_length : option nat) (v : pystr) : bool :=
  match max_length with
  | Some n => (n <? length v)%nat
  | None => false
  end.

Definition constr_length (min_length max_length : option nat) (v : pystr)
    : checked pystr :=
  if too_short min_length v
  then Rejected (MinLengthError (default 0%nat min_length))
  else if too_long max_length v
  then Rejected (MaxLengthError (default 0%nat max_length))
  else Accepted v.

(** An [Optional[str]] field: [None] passes, a string is checked. *)
Definition optional (check : pystr -> checked pystr) (raw : option pystr)
    : checked (option pystr) :=
  match raw with
  | None => Accepted None
  | Some s => and_then (check s) (fun v => Accepted (Some v))
  end.

(** Each field as pydantic validates it: the declared type and bounds of
    the [Field] first, then the validator of the class on the value that
    passed them. *)
Definition name_field (raw : pystr) : checked pystr :=
  and_then (constr_length (Some 2%nat) (Some 100%nat) raw) validate_name.

Definition email_field (raw : pystr) : checked pystr :=
  match email_validator raw with
  | Some address => Accepted address
  | None => Rejected EmailError
  end.

Definition company_field (raw : option pystr) : checked (option pystr) :=
  optional (constr_length None (Some 100%nat)) raw.

Definition phone_field (raw : option pystr) : checked (option pystr) :=
  and_then (optional (constr_length None (Some 20%nat)) raw) validate_phone.

Definition message_field (raw : pystr) : checked pystr :=
  and_then (constr_length (Some 10%nat) (Some 2000%nat) raw) validate_message.

Record ContactForm : Type := {
  name : pystr;
  email : pystr;
  company : option pystr;
  phone : option pystr;
  service : pystr;
  message : pystr
}.

Definition field_errors {A} (field : string) (c : checked A)
    : list (string * validation_error) :=
  match c with
  | Accepted _ => []
  | Rejected e => [(field, e)]
  end.

(** [ContactForm(name=..., ...)]: the validated form, or the errors of the
    fields that failed, in the order of their declaration. *)
Definition ContactForm_new (name email : pystr) (company phone : option pystr)
    (service message : pystr)
    : ContactForm + list (string * validation_error) :=
  match name_field name, email_field email, company_field company,
        phone_field phone, message_field message with
  | Accepted n, Accepted e, Accepted c, Accepted p, Accepted m =>
      inl {| name := n; email := e; company := c; phone := p;
             service := service; message := m |}
  | rn, re, rc, rp, rm =>
      inr (field_errors "name" rn ++ field_errors "email" re
           ++ field_errors "company" rc ++ field_errors "phone" rp
           ++ field_errors "message" rm)
  end.

End Form.

(** The decimal digits of ASCII, which every [str.isdigit] accepts. *)
Definition ascii_digit (c : N) : bool := (48 <=? c) && (c <=? 57).

End Contact.

(** ** The e-mail service ([app/services/email_service.py]) *)

Module Email.

(** The settings the service reads. *)
Record Settings : Type := {
  smtp_server : pystr;
  smtp_port : Z;
  smtp_username : option pystr;
  smtp_password : option pystr;
  contact_email : pystr
}.

(** The defaults of [app/core/config.py]. *)
Definition defaults : Settings :=
  {| smtp_server := lit "smtp.gmail.com";
     smtp_port := 587;
     smtp_username := None;
     smtp_password := None;
     contact_email := lit "info@hst.ie" |}.

Record EmailService : Type := {
  server : pystr;
  port : Z;
  username : option pystr;
  password : option pystr
}.

(** [EmailService.__init__] *)
Definition __init__ (settings : Settings) : EmailService :=
  {| server := smtp_server settings;
     port := smtp_port settings;
     username := smtp_username settings;
     password := smtp_password settings |}.

(** A [MIMEMultipart] message with its headers and its one text part. *)
Record message : Type := {
  From : pystr;
  To : pystr;
  Subject : pystr;
  payload : pystr
}.

Inductive smtp_command : Type :=
  | Connect (host : pystr) (port : Z)     (* smtplib.SMTP(host, port) *)
  | StartTLS
  | Login (user secret : pystr)
  | SendMessage (msg : message)
  | Quit.                                 (* leaving the [with] block *)

Inductive log_record : Type :=
  | LogWarning (text : pystr)
  | LogInfo (text : pystr)
  | LogError (e : exn).    (* "Error sending contact email: {e}" *)

(** What the mail server saw, what it accepted, and the log. *)
Record outbox : Type := Outbox {
  commands : list smtp_command;
  delivered : list message;
  log : list log_record
}.

(** The mail server: the exception a command raises, if any, given the
    number of commands issued before it. *)
Definition smtp_server_behaviour : Type := nat -> smtp_command -> option exn.

Definition T (A : Type) : Type :=
  smtp_server_behaviour -> outbox -> result A * outbox.

Definition ret {A} (a : A) : T A := fun _ s => (Ok a, s).

Definition bind {A B} (c : T A) (k : A -> T B) : T B :=
  fun o s =>
    match c o s with
    | (Ok a, s') => k a o s'
    | (Raise x, s') => (Raise x, s')
    end.

Definition try_except {A} (body : T A) (handler : exn -> T A) : T A :=
  fun o s =>
    match body o s with
    | (Ok a, s') => (Ok a, s')
    | (Raise x, s') => handler x o s'
    end.

Definition logging (r : log_record) : T unit :=
  fun _ s => (Ok tt, Outbox (commands s) (delivered s) (log s ++ [r])).

(** One command of the SMTP session.  A message counts as delivered when
    [send_message] returns. *)
Definition smtp (c : smtp_command) : T unit :=
  fun o s =>
    let issued := commands s ++ [c] in
    match o (length (commands s)) c with
    | Some x => (Raise x, Outbox issued (delivered s) (log s))
    | None =>
        (Ok tt,
         Outbox issued
           (match c with
            | SendMessage msg => delivered s ++ [msg]
            | _ => delivered s
            end)
           (log s))
    end.

(** [with smtplib.SMTP(host, port) as server: body]: when the connection
    is made the session is closed by [Quit] however the body ends, and an
    exception of [Quit] takes the place of the body's. *)
Definition with_smtp (host : pystr) (port : Z) (body : T unit) : T unit :=
  bind (smtp (Connect host port)) (fun _ =>
    fun o s =>
      match body o s with
      | (Ok tt, s1) => smtp Quit o s1
      | (Raise x, s1) =>
          match smtp Quit o s1 with
          | (Ok tt, s2) => (Raise x, s2)
          | (Raise y, s2) => (Raise y, s2)
          end
      end).

(** [str(v)] for an [Optional[str]]. *)
Definition str_of_optional (v : option pystr) : pystr :=
  match v with
  | Some s => s
  | None => lit "None"
  end.

(** [v or 'Not provided'] *)
Definition or_not_provided (v : option pystr) : pystr :=
  if truthy v then default [] v else lit "Not provided".

Definition line (indent : nat) (text : pystr) : pystr :=
  spaces indent ++ text ++ newline.

(** The f-string logged by [_log_contact_form]. *)
Definition form_record (f : Contact.ContactForm) : pystr :=
  newline
  ++ line 8 (lit "CONTACT FORM SUBMISSION:")
  ++ line 8 (lit "Name: " ++ Contact.name f)
  ++ line 8 (lit "Email: " ++ Contact.email f)
  ++ line 8 (lit "Company: " ++ str_of_optional (Contact.company f))
  ++ line 8 (lit "Phone: " ++ str_of_optional (Contact.phone f))
  ++ line 8 (lit "Service: " ++ Contact.service f)
  ++ line 8 (lit "Message: " ++ Contact.message f)
  ++ spaces 8.

(** [_log_contact_form] *)
Definition _log_contact_form (f : Contact.ContactForm) : T unit :=
  logging (LogInfo (form_record f)).

(** The body of the e-mail. *)
Definition email_body (f : Contact.ContactForm) : pystr :=
  newline
  ++ line 12 (lit "New contact form submission received:")
  ++ line 12 []
  ++ line 12 (lit "Name: " ++ Contact.name f)
  ++ line 12 (lit "Email: " ++ Contact.email f)
  ++ line 12 (lit "Company: " ++ or_not_provided (Contact.company f))
  ++ line 12 (lit "Phone: " ++ or_not_provided (Contact.phone f))
  ++ line 12 (lit "Service Interest: " ++ Contact.service f)
  ++ line 12 []
  ++ line 12 (lit "Message:")
  ++ line 12 (Contact.message f)
  ++ line 12 []
  ++ line 12 (lit "---")
  ++ line 12 (lit "Sent from HST Professional Services Website")
  ++ spaces 12.

(** [MIMEText(body, 'plain')]: the text is encoded, as us-ascii or else as
    utf-8, and neither takes a lone surrogate (CPython 3.11). *)
Definition MIMEText (text : pystr) : T pystr :=
  fun _ s =>
    if existsb is_surrogate text then (Raise UnicodeEncodeError, s)
    else (Ok text, s).

(** The message with its headers and the body attached. *)
Definition contact_message (svc : EmailService) (settings : Settings)
    (f : Contact.ContactForm) : T message :=
  bind (MIMEText (email_body f)) (fun part =>
    ret {| From := default [] (username svc);
           To := contact_email settings;
           Subject := lit "New Contact Form Submission - " ++ Contact.service f;
           payload := part |}).

(** [not self.smtp_username or not self.smtp_password] *)
Definition credentials_missing (svc : EmailService) : bool :=
  negb (truthy (username svc)) || negb (truthy (password svc)).

(** [send_contact_email] *)
Definition send_contact_email (svc : EmailService) (settings : Settings)
    (f : Contact.ContactForm) : T bool :=
  try_except
    (if credentials_missing svc then
       bind (logging (LogWarning
               (lit "SMTP credentials not configured, logging contact form instead")))
         (fun _ => bind (_log_contact_form f) (fun _ => ret true))
     else
       bind (contact_message svc settings f) (fun msg =>
       bind (with_smtp (server svc) (port svc)
               (bind (smtp StartTLS) (fun _ =>
                bind (smtp (Login (default [] (username svc))
                                  (default [] (password svc)))) (fun _ =>
                smtp (SendMessage msg)))))
         (fun _ =>
            bind (logging (LogInfo (lit "Contact email sent for " ++ Contact.name f)))
              (fun _ => ret true))))
    (fun e =>
       bind (logging (LogError e)) (fun _ =>
       bind (_log_contact_form f) (fun _ => ret false))).

(** A server on which every command succeeds, and an empty outbox. *)
Definition willing : smtp_server_behaviour := fun _ _ => None.
Definition empty_outbox : outbox := Outbox [] [] [].

(** The message of a form whose body can be encoded, and the SMTP session
    that delivers it. *)
Definition the_message (svc : EmailService) (settings : Settings)
    (f : Contact.ContactForm) : message :=
  {| From := default [] (username svc);
     To := contact_email settings;
     Subject := lit "New Contact Form Submission - " ++ Contact.service f;
     payload := email_body f |}.

Definition session (svc : EmailService) (msg : message) : list smtp_command :=
  [Connect (server svc) (port svc);
   StartTLS;
   Login (default [] (username svc)) (default [] (password svc));
   SendMessage msg;
   Quit].

(** A service with credentials, the example form of [ContactForm.Config],
    and a server that refuses to close the session. *)
Definition sample_service : EmailService :=
  {| server := lit "smtp.gmail.com";
     port := 587;
     username := Some (lit "mailer@hst.ie");
     password := Some (lit "secret") |}.

Definition sample_form : Contact.ContactForm :=
  {| Contact.name := lit "John Doe";
     Contact.email := lit "john.doe@example.com";
     Contact.company := Some (lit "Tech Corp");
     Contact.phone := Some (lit "+353 1 234 5678");
     Contact.service := lit "Technology Consulting";
     Contact.message :=
       lit "I'm interested in your technology consulting services for our digital transformation project." |}.

Definition quit_refused : smtp_server_behaviour :=
  fun _ c =>
    match c with
    | Quit => Some OSError
    | _ => None
    end.

(** The server accepts the commands [cs] when they are issued after [n]
    others. *)
Fixpoint accepts (o : smtp_server_behaviour) (n : nat) (cs : list smtp_command)
    : bool :=
  match cs with
  | [] => true
  | c :: rest =>
      match o n c with
      | None => accepts o (S n) rest
      | Some _ => false
      end
  end.

End Email.

(** ** Vocabulary of the further properties *)

(** The URL a request goes to. *)
Definition request_url (r : request) : pystr :=
  match r with
  | GET url _ _ => url
  | HEAD url => url
  end.

(** A code point that UTF-8 can encode: not a surrogate, and in range. *)
Definition encodable (c : N) : bool := negb (is_surrogate c) && (c <? 0x110000).

(** A string made of white space only (the empty string included). *)
Definition blank (s : pystr) : Prop :=
  Forall (fun c => Contact.isspace c = true) s.

(** * Properties *)

(** ** Test vectors *)

Example md5_empty :
  MD5.hexdigest [] = lit "d41d8cd98f00b204e9800998ecf8427e".
Proof. vm_compute. reflexivity. Qed.

Example md5_abc :
  MD5.hexdigest (lit "abc") = lit "900150983cd24fb0d6963f7d28e17f72".
Proof. vm_compute. reflexivity. Qed.

Example md5_two_blocks :
  MD5.hexdigest (repeat 97 70) = lit "0f5c6c4e740bfcc08c3c26ccb2673d46".
Proof. vm_compute. reflexivity. Qed.

Example encode_non_ascii :
  encode [0xE9; 0x20AC; 0x1F600] =
  Ok [0xC3; 0xA9; 0xE2; 0x82; 0xAC; 0xF0; 0x9F; 0x98; 0x80].
Proof. reflexivity. Qed.

Example encode_lone_surrogate : encode [0xD800] = Raise UnicodeEncodeError.
Proof. reflexivity. Qed.

Example str_of_int_samples :
  str_of_int 0 = lit "0" /\ str_of_int 1920 = lit "1920" /\ str_of_int (-42) = lit "-42".
Proof. repeat split. Qed.

Example join_keywords :
  join (lit " ") (keywords_for __init__ (lit "ai-machine-learning")) =
  lit "artificial intelligence machine learning technology future".
Proof. vm_compute. reflexivity. Qed.

Example replace_spaces :
  replace_char 32 45 (lit "artificial intelligence") = lit "artificial-intelligence".
Proof. reflexivity. Qed.

Example fingerprint_of_hero_image :
  _generate_cache_key (lit "business-team") 1920 1080 =
  Ok (lit "6d26caf2e04fedc3a9d9ffdc3704a5b2").
Proof. vm_compute. reflexivity. Qed.

(** ** Strings *)

Lemma lit_inj s t : lit s = lit t -> s = t.
Proof.
  unfold lit. revert t.
  induction s as [|a s IH]; intros [|b t]; simpl; try discriminate; auto.
  intros H. injection H as Hab Hst.
  f_equal; [| now apply IH].
  rewrite <- (ascii_N_embedding a), <- (ascii_N_embedding b). now f_equal.
Qed.

Lemma str_of_int_inj x y : str_of_int x = str_of_int y -> x = y.
Proof.
  unfold str_of_int. intros H. apply lit_inj in H.
  assert (Hi : Some (Z.to_int x) = Some (Z.to_int y))
    by (rewrite <- !NilEmpty.isi; now f_equal).
  injection Hi as Hi.
  rewrite <- (DecimalZ.of_to x), <- (DecimalZ.of_to y). now f_equal.
Qed.

Lemma string_of_uint_chars d :
  Forall int_char (lit (NilEmpty.string_of_uint d)).
Proof.
  induction d; simpl; constructor; auto; right; cbn; lia.
Qed.

Lemma str_of_int_chars z : Forall int_char (str_of_int z).
Proof.
  unfold str_of_int. destruct (Z.to_int z) as [d|d]; simpl.
  - apply string_of_uint_chars.
  - constructor; [left; reflexivity | apply string_of_uint_chars].
Qed.


Lemma str_of_int_nonempty z : str_of_int z <> [].
Proof.
  unfold str_of_int. destruct z as [|p|p]; simpl.
  - discriminate.
  - assert (H := DecimalPos.Unsigned.to_uint_nonnil p).
    destruct (Pos.to_uint p); [congruence | discriminate ..].
  - discriminate.
Qed.

(** Two strings that end in a separator followed by separator-free
    suffixes agree piecewise. *)
Lemma split_last_sep (u : N) (a b x y : pystr) :
  ~ In u x -> ~ In u y -> a ++ u :: x = b ++ u :: y -> a = b /\ x = y.
Proof.
  revert b. induction a as [|c a IH]; intros [|d b] Hx Hy H; simpl in H.
  - injection H as ->. auto.
  - injection H as <- H. exfalso. apply Hx. rewrite H.
    apply in_or_app. right. now left.
  - injection H as -> H. exfalso. apply Hy. rewrite <- H.
    apply in_or_app. right. now left.
  - injection H as -> H. destruct (IH b Hx Hy H) as [-> ->]. auto.
Qed.



(** ** UTF-8 is a prefix code *)






(** ** The digest is 32 lowercase hexadecimal characters *)








(** ** The fingerprint (C6) *)

(** The fingerprint of a triple is the digest of its encoded key string,
    and the encoded key string determines the triple. *)
Lemma fstring_Ok fields text r :
  fstring fields text = Ok r <-> forallb renderable fields = true /\ r = text.
Proof.
  unfold fstring. destruct (forallb renderable fields); split.
  - intros [= <-]. auto.
  - now intros [_ ->].
  - discriminate.
  - intros [[=] _].
Qed.

Lemma fstring_Raise fields text x :
  fstring fields text = Raise x <-> forallb renderable fields = false /\ x = ValueError.
Proof.
  unfold fstring. destruct (forallb renderable fields); split.
  - discriminate.
  - intros [[=] _].
  - intros [= <-]. auto.
  - now intros [_ ->].
Qed.

Lemma fstring_sizes width height text :
  fstring [width; height] text =
    if renderable width && renderable height then Ok text else Raise ValueError.
Proof. unfold fstring. cbn [forallb]. now rewrite andb_true_r. Qed.

Lemma generate_cache_key_Ok c w h k :
  _generate_cache_key c w h = Ok k ->
  exists data, encode (key_string c w h) = Ok data /\ k = MD5.hexdigest data.
Proof.
  unfold _generate_cache_key.
  destruct (fstring [w; h] (key_string c w h)) as [s |] eqn:F; [| discriminate].
  apply fstring_Ok in F as [_ ->].
  destruct (encode (key_string c w h)) as [data|]; [|discriminate].
  intros [= <-]. eauto.
Qed.

(** A fingerprint exists only for sizes that can be rendered. *)
Lemma generate_cache_key_renderable c w h k :
  _generate_cache_key c w h = Ok k -> renderable w = true /\ renderable h = true.
Proof.
  unfold _generate_cache_key. rewrite fstring_sizes.
  destruct (renderable w), (renderable h); try discriminate. auto.
Qed.




(** Changing any component changes the key string that is hashed. *)
Example fingerprint_distinguishes_underscores :
  _generate_cache_key (lit "a_1") 2 3 <> _generate_cache_key (lit "a") 1 2.
Proof. vm_compute. discriminate. Qed.

(** ** The category registry (C5) *)

Lemma registry_keys_NoDup : NoDup (registry_entries.*1).
Proof. apply (bool_decide_unpack _). vm_compute. exact I. Qed.

Lemma registry_keywords_nonempty :
  Forall (fun entry : pystr * list pystr => entry.2 <> []) registry_entries.
Proof. repeat constructor; discriminate. Qed.

Lemma registry_lookup category keywords :
  business_categories __init__ !! category = Some keywords <->
  (category, keywords) ∈ registry_entries.
Proof.
  symmetry. apply (elem_of_list_to_map (M := gmap pystr)), registry_keys_NoDup.
Qed.

Lemma keywords_for_nonempty key category :
  keywords_for (with_key key __init__) category <> [].
Proof.
  unfold keywords_for. cbn [business_categories with_key].
  destruct (business_categories __init__ !! category) as [ks|] eqn:E; simpl.
  - apply registry_lookup in E.
    pose proof registry_keywords_nonempty as H.
    rewrite Forall_forall in H. exact (H _ E).
  - discriminate.
Qed.

(** C5.  The lookup always yields a non-empty sequence: the registered
    keyword list of a registered category, and the category alone for any
    other string.  It is a total function of the category. *)
Theorem keywords_for_registry (category : pystr) :
  keywords_for __init__ category <> [] /\
  (forall keywords,
     (category, keywords) ∈ registry_entries ->
     keywords_for __init__ category = keywords) /\
  (category ∉ registry_entries.*1 ->
   keywords_for __init__ category = [category]).
Proof.
  split; [| unfold keywords_for; split].
  - exact (keywords_for_nonempty (unsplash_access_key __init__) category).
  - intros ks Hin. apply registry_lookup in Hin. now rewrite Hin.
  - intros Hout.
    destruct (business_categories __init__ !! category) as [ks|] eqn:E; simpl.
    + exfalso. apply Hout. apply registry_lookup in E.
      apply list_elem_of_fmap. exists (category, ks). auto.
    + reflexivity.
Qed.

Lemma keywords_for_registry_witness :
  keywords_for __init__ (lit "ai-machine-learning") =
    map lit ["artificial intelligence"; "machine learning"; "technology"; "future"]%string
  /\ keywords_for __init__ (lit "nonexistent-category") = [lit "nonexistent-category"].
Proof.
  split.
  - apply (proj1 (proj2 (keywords_for_registry (lit "ai-machine-learning")))).
    apply (bool_decide_unpack _). vm_compute. exact I.
  - apply (proj2 (proj2 (keywords_for_registry (lit "nonexistent-category")))).
    apply (bool_decide_unpack _). vm_compute. exact I.
Defined.
(** ** Awaiting a coroutine *)

Lemma await_bind {A B} (c : M A) (k : A -> M B) e w :
  (bind c k) e w =
  match c e w with
  | (Ok a, w') => k a e w'
  | (Raise x, w') => (Raise x, w')
  end.
Proof.
  revert w. induction c as [[a | x] | X step k' IH | c' IH]; intros w; cbn; trivial.
  destruct (step e w) as [x w']. apply IH.
Qed.

Lemma await_try_except {A} (body : M A) (handler : exn -> M A) e w :
  (try_except body handler) e w =
  match body e w with
  | (Ok a, w') => (Ok a, w')
  | (Raise x, w') => handler x e w'
  end.
Proof.
  revert w. induction body as [[a | x] | X step k' IH | c' IH]; intros w; cbn; trivial.
  destruct (step e w) as [x w']. apply IH.
Qed.

Lemma await_perform {A} (step : env -> world -> result A * world) e w :
  (perform step) e w = step e w.
Proof. cbn. now destruct (step e w). Qed.

Lemma await_async_exit {A} (block : M A) e w : (async_exit block) e w = block e w.
Proof.
  unfold async_exit. rewrite await_try_except, await_bind.
  now destruct (block e w) as [[a | x] w'].
Qed.

(** ** Integers that can be rendered *)

Lemma renderable_small z : (0 <= z < 1000)%Z -> renderable z = true.
Proof.
  intros Hz.
  assert (H : forallb (fun n => renderable (Z.of_nat n)) (seq 0 1000) = true)
    by (vm_compute; reflexivity).
  rewrite forallb_forall in H. specialize (H (Z.to_nat z)).
  rewrite Z2Nat.id in H by lia. apply H, in_seq. lia.
Qed.

Lemma renderable_seed z : renderable (z mod 1000) = true.
Proof. apply renderable_small, Z.mod_pos_bound. reflexivity. Qed.

Lemma fstring_picsum width height seed text :
  fstring [width; height; (seed mod 1000)%Z] text =
    if renderable width && renderable height then Ok text else Raise ValueError.
Proof.
  unfold fstring. cbn [forallb]. now rewrite renderable_seed, !andb_true_r.
Qed.

(** The decimal text of a power of ten: a 1 and then the zeros. *)
Lemma pow10_decimal n :
  (10 ^ Z.of_nat n)%Z =
    Z.of_int (Decimal.Pos (Decimal.D1 (Nat.iter n Decimal.D0 Decimal.Nil))).
Proof.
  change (Z.of_int (Decimal.Pos (Decimal.D1 (Nat.iter n Decimal.D0 Decimal.Nil))))
    with (Z.of_uint (Decimal.app (Decimal.D1 Decimal.Nil)
                       (Nat.iter n Decimal.D0 Decimal.Nil))).
  rewrite DecimalZ.of_uint_iter_D0.
  change (Z.of_uint (Decimal.D1 Decimal.Nil)) with 1%Z.
  induction n as [| n IH]; [reflexivity |].
  rewrite Nat2Z.inj_succ, Z.pow_succ_r by lia.
  cbn [Nat.iter]. now rewrite IH.
Qed.

Lemma str_of_int_pow10 n : str_of_int (10 ^ Z.of_nat n) = 49 :: repeat 48 n.
Proof.
  unfold str_of_int. rewrite pow10_decimal, DecimalZ.to_of.
  cbn [Decimal.norm Decimal.unorm Decimal.nzhead NilEmpty.string_of_int
       NilEmpty.string_of_uint].
  unfold lit. cbn [list_ascii_of_string map]. f_equal.
  induction n as [| n IH]; [reflexivity |].
  change (Nat.iter (S n) Decimal.D0 Decimal.Nil)
    with (Decimal.D0 (Nat.iter n Decimal.D0 Decimal.Nil)).
  cbn [NilEmpty.string_of_uint list_ascii_of_string map repeat].
  now rewrite IH.
Qed.

Lemma huge_unrenderable : renderable huge = false.
Proof.
  unfold renderable, huge. rewrite Z.abs_eq by (apply Z.pow_nonneg; lia).
  change 4300%Z with (Z.of_nat 4300).
  rewrite str_of_int_pow10. cbn [length]. rewrite repeat_length. reflexivity.
Qed.

(** ** What each helper does, case by case *)

Arguments lit : simpl never.
Arguments str_of_int : simpl never.
Arguments renderable : simpl never.
Arguments fstring : simpl never.
Arguments placeholder_reference : simpl never.
Arguments composed_url : simpl never.
Arguments redirect_url : simpl never.
Arguments picsum_url : simpl never.

Lemma get_cached_image_run m k e w :
  _get_cached_image m k e w =
  match files w !! cache_path m k with
  | None => (Ok PyNone, w)
  | Some Unreadable => (Ok PyNone, logged JSONDecodeError w)
  | Some (CacheData _ None) => (Ok PyNone, logged KeyError w)
  | Some (CacheData url (Some cached_time)) =>
      if (clock e (steps w) - cached_time <? cache_duration m)%Z then
        match url with
        | Some v => (Ok v, tick w)
        | None => (Ok PyNone, logged KeyError (tick w))
        end
      else (Ok PyNone, tick w)
  end.
Proof.
  unfold _get_cached_image, path_exists, json_load. cbn.
  destruct (files w !! cache_path m k) as [[|url [ts|]]|] eqn:E;
    rewrite ?bool_decide_true, ?bool_decide_false
      by (rewrite ?E; first [apply is_Some_None | eauto]);
    cbn; rewrite ?E; cbn; trivial.
  destruct (_ <? _)%Z; cbn; trivial. destruct url; reflexivity.
Qed.

Lemma cache_image_url_run m k url e w :
  _cache_image_url m k url e w =
  let path := cache_path m k in
  match disk_write e (S (steps w)) path with
  | Written =>
      (Ok tt,
       stored path (CacheData (Some (PyStr url)) (Some (clock e (steps w)))) (tick w))
  | OpenFails => (Ok tt, logged OSError (tick (tick w)))
  | DumpFails => (Ok tt, logged OSError (stored path Unreadable (tick w)))
  end.
Proof.
  unfold _cache_image_url, datetime_now, json_dump. cbn.
  destruct (disk_write e (S (steps w)) (cache_path m k)); reflexivity.
Qed.

Lemma fetch_from_unsplash_run m c width height e w :
  _fetch_from_unsplash m c width height e w =
  if key_missing m then (Ok None, w)
  else
    let w' := sent (search_request m c) w in
    match http e (steps w) (search_request m c) with
    | Fails x => (Ok None, logged x w')
    | Response status data =>
        if (status =? 200)%Z then
          match data with
          | Malformed => (Ok None, logged JSONDecodeError w')
          | Results [] => (Ok None, w')
          | Results (PhotoNoRaw :: _) => (Ok None, logged KeyError w')
          | Results (Photo raw :: _) =>
              if renderable width && renderable height
              then (Ok (Some (composed_url raw width height)), w')
              else (Ok None, logged ValueError w')
          end
        else (Ok None, w')
    end.
Proof.
  unfold _fetch_from_unsplash.
  destruct (key_missing m); [reflexivity |].
  rewrite await_try_except, await_async_exit, await_bind.
  unfold send at 1. cbn.
  destruct (http e (steps w) (search_request m c)) as [x | status data]; cbn;
    [reflexivity |].
  rewrite await_async_exit.
  destruct (status =? 200)%Z; [| reflexivity].
  destruct data as [| [| [| raw] rest]]; cbn; try reflexivity.
  rewrite fstring_sizes. destruct (renderable width && renderable height); reflexivity.
Qed.

Lemma fetch_fallback_image_run m c width height e w :
  _fetch_fallback_image m c width height e w =
  if renderable width && renderable height then
    let picsum := picsum_url (py_hash e) c width height in
    match redirect_of m c width height with
    | None => (Ok (Some picsum), w)
    | Some url =>
        let w' := sent (HEAD url) w in
        match http e (steps w) (HEAD url) with
        | Fails x => (Ok (Some picsum), logged x w')
        | Response status _ =>
            if (status =? 200)%Z then (Ok (Some url), w') else (Ok (Some picsum), w')
        end
    end
  else (Raise ValueError, logged ValueError w).
Proof.
  unfold _fetch_fallback_image, redirect_of, lorem_picsum.
  rewrite await_try_except, await_bind.
  destruct (keywords_for m c) as [| first rest].
  - cbn. rewrite !fstring_picsum.
    destruct (renderable width && renderable height); reflexivity.
  - rewrite await_bind. cbn [lift await]. rewrite fstring_sizes.
    destruct (renderable width && renderable height) eqn:R.
    + rewrite await_async_exit, await_bind. unfold send at 1. cbn.
      destruct (http e (steps w) _) as [x | status data]; cbn.
      * rewrite fstring_picsum, R. reflexivity.
      * rewrite await_async_exit.
        destruct (status =? 200)%Z; cbn; [reflexivity |].
        rewrite fstring_picsum, R. reflexivity.
    + cbn. rewrite fstring_picsum, R. reflexivity.
Qed.

(** ** The helpers absorb their own exceptions *)

Arguments _cache_image_url : simpl never.

Lemma get_cached_image_returns m k e w :
  exists v w1,
    _get_cached_image m k e w = (Ok v, w1) /\
    files w1 = files w /\ requests w1 = requests w.
Proof.
  rewrite get_cached_image_run.
  destruct (files w !! cache_path m k) as [[| url [ts |]] |];
    try destruct (_ <? _)%Z; try destruct url; eauto 6.
Qed.

Lemma fetch_from_unsplash_returns m c width height e w :
  exists o w1,
    _fetch_from_unsplash m c width height e w = (Ok o, w1) /\ files w1 = files w.
Proof.
  rewrite fetch_from_unsplash_run.
  destruct (key_missing m); [eauto |]. cbv zeta.
  destruct (http e (steps w) _) as [x | status data]; [eauto |].
  destruct (status =? 200)%Z; [| eauto].
  destruct data as [| [| [| raw] rest]]; eauto.
  destruct (renderable width && renderable height); eauto.
Qed.

Lemma redirect_url_nonempty keyword width height :
  redirect_url keyword width height <> [].
Proof. discriminate. Qed.

Lemma picsum_url_nonempty hash c width height :
  picsum_url hash c width height <> [].
Proof. discriminate. Qed.

Lemma placeholder_nonempty width height : placeholder_reference width height <> [].
Proof. discriminate. Qed.

Lemma composed_url_nonempty raw width height : composed_url raw width height <> [].
Proof. unfold composed_url. destruct raw; discriminate. Qed.

Lemma fetch_fallback_image_returns m c width height e w :
  renderable width = true -> renderable height = true ->
  exists url w1,
    _fetch_fallback_image m c width height e w = (Ok (Some url), w1) /\
    url <> [] /\ files w1 = files w.
Proof.
  intros Rw Rh. rewrite fetch_fallback_image_run, Rw, Rh. unfold redirect_of.
  cbn [andb]. cbv zeta.
  destruct (keywords_for m c) as [| first rest].
  - eauto using picsum_url_nonempty.
  - destruct (http e (steps w) _) as [x | status data];
      [| destruct (status =? 200)%Z];
      eauto 6 using picsum_url_nonempty, redirect_url_nonempty.
Qed.

(** Beyond the limit of the conversion the fallback fetch raises: the
    f-string of its handler cannot be rendered either. *)
Lemma fetch_fallback_image_raises m c width height e w :
  renderable width && renderable height = false ->
  _fetch_fallback_image m c width height e w = (Raise ValueError, logged ValueError w).
Proof. intros R. now rewrite fetch_fallback_image_run, R. Qed.

Lemma cache_image_url_returns m k url e w :
  exists w1,
    _cache_image_url m k url e w = (Ok tt, w1) /\ requests w1 = requests w.
Proof.
  rewrite cache_image_url_run. cbv zeta.
  destruct (disk_write e (S (steps w)) _); eauto.
Qed.

Lemma truthy_true o : truthy o = true -> exists u, o = Some u /\ u <> [].
Proof. destruct o as [[|]|]; try discriminate. eauto. Qed.

Lemma truth_str url : truth (PyStr url) = true <-> url <> [].
Proof. destruct url; simpl; split; congruence. Qed.

(** What a successful helper tells about the world. *)
Lemma get_cached_image_value m k e w v w1 :
  _get_cached_image m k e w = (Ok v, w1) ->
  v = PyNone \/
  exists ts,
    files w !! cache_path m k = Some (CacheData (Some v) (Some ts)) /\
    (clock e (steps w) - ts < cache_duration m)%Z /\ w1 = tick w.
Proof.
  rewrite get_cached_image_run.
  destruct (files w !! cache_path m k) as [[| u [ts |]] |];
    try (intros [= <- _]; now left).
  destruct (Z.ltb_spec (clock e (steps w) - ts) (cache_duration m));
    [| intros [= <- _]; now left].
  destruct u; [| intros [= <- _]; now left]. intros [= -> <-]. eauto.
Qed.

Lemma get_cached_image_Some m k e w v w1 :
  _get_cached_image m k e w = (Ok v, w1) -> truth v = true ->
  exists ts,
    files w !! cache_path m k = Some (CacheData (Some v) (Some ts)) /\
    (clock e (steps w) - ts < cache_duration m)%Z /\ w1 = tick w.
Proof.
  intros E T. apply get_cached_image_value in E as [-> | E]; [discriminate | exact E].
Qed.

Lemma fetch_from_unsplash_Some m c width height e w url w1 :
  _fetch_from_unsplash m c width height e w = (Ok (Some url), w1) ->
  key_missing m = false /\ exists raw, url = composed_url raw width height.
Proof.
  rewrite fetch_from_unsplash_run.
  destruct (key_missing m); [discriminate |]. cbv zeta.
  destruct (http e (steps w) _) as [x | status data]; [discriminate |].
  destruct (status =? 200)%Z; [| discriminate].
  destruct data as [| [| [| raw] rest]]; try discriminate.
  destruct (renderable width && renderable height); [| discriminate].
  intros [= <- _]. eauto.
Qed.

Lemma fetch_fallback_image_Some m c width height e w url w1 :
  _fetch_fallback_image m c width height e w = (Ok (Some url), w1) ->
  redirect_of m c width height = Some url \/
  url = picsum_url (py_hash e) c width height.
Proof.
  rewrite fetch_fallback_image_run.
  destruct (renderable width && renderable height); [| discriminate]. cbv zeta.
  destruct (redirect_of m c width height) as [u |]; [| intros [= <- _]; auto].
  destruct (http e (steps w) _) as [x | status data]; [intros [= <- _]; auto |].
  destruct (status =? 200)%Z; intros [= <- _]; auto.
Qed.

(** ** The paths through [get_image] *)

(** The outcome of [get_image], one disjunct per way out of its body:
    the key cannot be computed (handler), cache hit, search result,
    fallback result.  The final [return] of the placeholder is not among
    them: with a fingerprint the fallback never comes back empty-handed. *)
Lemma get_image_paths m c width height e w :
  (exists x,
     _generate_cache_key c width height = Raise x /\
     get_image m c width height e w = (handler_result width height, logged x w))
  \/
  (exists k v w1,
     _generate_cache_key c width height = Ok k /\
     _get_cached_image m k e w = (Ok v, w1) /\
     ((truth v = true /\ get_image m c width height e w = (Ok v, w1))
      \/
      (truth v = false /\
       exists o1 w2,
         _fetch_from_unsplash m c width height e w1 = (Ok o1, w2) /\
         ((exists url, o1 = Some url /\ url <> [] /\
             get_image m c width height e w =
               (Ok (PyStr url), snd (_cache_image_url m k url e w2)))
          \/
          (truthy o1 = false /\
           exists url w3,
             _fetch_fallback_image m c width height e w2 = (Ok (Some url), w3) /\
             url <> [] /\
             get_image m c width height e w =
               (Ok (PyStr url), snd (_cache_image_url m k url e w3))))))).
Proof.
  unfold get_image. rewrite await_try_except, await_bind. cbn [lift await].
  destruct (_generate_cache_key c width height) as [k | x] eqn:Hk.
  2: { left. exists x. split; [reflexivity |]. cbn. unfold handler_result.
       now destruct (_get_local_placeholder width height). }
  right. destruct (generate_cache_key_renderable _ _ _ _ Hk) as [Rw Rh].
  rewrite await_bind.
  destruct (get_cached_image_returns m k e w) as (v & w1 & E1 & _).
  exists k, v, w1. rewrite E1. do 2 (split; trivial).
  destruct (truth v) eqn:Tv; [left; auto |].
  right. split; trivial. rewrite await_bind.
  destruct (fetch_from_unsplash_returns m c width height e w1) as (o1 & w2 & E2 & _).
  exists o1, w2. rewrite E2. split; trivial. rewrite await_bind.
  destruct (truthy o1) eqn:To1.
  - left. destruct (truthy_true _ To1) as (url & -> & Hne).
    exists url. do 2 (split; trivial). cbn [ret await]. rewrite To1, await_bind.
    destruct (cache_image_url_returns m k url e w2) as (w4 & E4 & _).
    cbn [default from_option id]. now rewrite E4.
  - right. split; trivial.
    destruct (fetch_fallback_image_returns m c width height e w2 Rw Rh)
      as (url & w3 & E3 & Hne & _).
    exists url, w3. rewrite E3. do 2 (split; trivial).
    destruct url as [| ch url]; [congruence |]. cbn [truthy]. rewrite await_bind.
    destruct (cache_image_url_returns m k (ch :: url) e w3) as (w4 & E4 & _).
    cbn [default from_option id]. now rewrite E4.
Qed.

(** ** One lemma per way out of [get_image] *)

(** Two runs of the same computation from the same world agree. *)
Ltac same_runs :=
  repeat match goal with
         | Ha : ?t = ?a, Hb : ?t = ?b |- _ =>
             rewrite Ha in Hb; inversion Hb; subst; clear Hb
         end.

Ltac falsy_nonempty :=
  match goal with
  | Hne : ?u <> [], To : truthy (Some ?u) = false |- _ =>
      destruct u; [congruence | discriminate To]
  end.

Lemma get_image_hit m c width height e w k v w1 :
  _generate_cache_key c width height = Ok k ->
  _get_cached_image m k e w = (Ok v, w1) ->
  truth v = true ->
  get_image m c width height e w = (Ok v, w1).
Proof.
  intros Hk E1 Tv.
  destruct (get_image_paths m c width height e w)
    as [(x & Hk' & _) | (k' & v' & w1' & Hk' & E1' & [(_ & E) | (Tv' & _)])];
    same_runs; trivial; congruence.
Qed.

Lemma get_image_search m c width height e w k v w1 url w2 :
  _generate_cache_key c width height = Ok k ->
  _get_cached_image m k e w = (Ok v, w1) -> truth v = false ->
  _fetch_from_unsplash m c width height e w1 = (Ok (Some url), w2) ->
  get_image m c width height e w =
    (Ok (PyStr url), snd (_cache_image_url m k url e w2)).
Proof.
  intros Hk E1 Tv E2.
  destruct (fetch_from_unsplash_Some _ _ _ _ _ _ _ _ E2) as (_ & raw & Hraw).
  destruct (get_image_paths m c width height e w)
    as [(x & Hk' & _) | (k' & v' & w1' & Hk' & E1' &
          [(Tv' & _) | (_ & o1 & w2' & E2' &
            [(u & -> & _ & E) | (To1 & _)])])];
    same_runs; trivial; try congruence.
  pose proof (composed_url_nonempty raw width height) as Hne.
  destruct (composed_url raw width height); [congruence | discriminate To1].
Qed.

Lemma get_image_fallback m c width height e w k v w1 o1 w2 url w3 :
  _generate_cache_key c width height = Ok k ->
  _get_cached_image m k e w = (Ok v, w1) -> truth v = false ->
  _fetch_from_unsplash m c width height e w1 = (Ok o1, w2) -> truthy o1 = false ->
  _fetch_fallback_image m c width height e w2 = (Ok (Some url), w3) ->
  get_image m c width height e w =
    (Ok (PyStr url), snd (_cache_image_url m k url e w3)).
Proof.
  intros Hk E1 Tv E2 To1 E3.
  destruct (get_image_paths m c width height e w)
    as [(x & Hk' & _) | (k' & v' & w1' & Hk' & E1' &
          [(Tv' & _) | (_ & o1' & w2' & E2' &
            [(u & -> & Hne & _) | (_ & u & w3' & E3' & _ & E)])])];
    same_runs; trivial; try congruence; falsy_nonempty.
Qed.

Lemma get_cached_image_hash hash m k e w :
  _get_cached_image m k (with_hash hash e) w = _get_cached_image m k e w.
Proof. now rewrite !get_cached_image_run. Qed.

Lemma fetch_from_unsplash_hash hash m c width height e w :
  _fetch_from_unsplash m c width height (with_hash hash e) w =
  _fetch_from_unsplash m c width height e w.
Proof. now rewrite !fetch_from_unsplash_run. Qed.

Lemma cache_image_url_hash hash m k url e w :
  _cache_image_url m k url (with_hash hash e) w = _cache_image_url m k url e w.
Proof. now rewrite !cache_image_url_run. Qed.

(** ** The resolver and the limit of the conversion (C1) *)

Lemma encode_raises s x : encode s = Raise x -> x = UnicodeEncodeError.
Proof.
  revert x. induction s as [| c s IH]; simpl; intros x; [discriminate |].
  destruct (encode_char c); [| now intros [= <-]].
  destruct (encode s); [discriminate |]. intros [= <-]. now apply IH.
Qed.

(** The two ways in which the fingerprint fails. *)
Lemma generate_cache_key_Raise c width height x :
  _generate_cache_key c width height = Raise x ->
  (x = ValueError /\ renderable width && renderable height = false) \/
  (x = UnicodeEncodeError /\ renderable width && renderable height = true).
Proof.
  unfold _generate_cache_key. rewrite fstring_sizes.
  destruct (renderable width && renderable height).
  - destruct (encode (key_string c width height)) eqn:E; [discriminate |].
    intros [= <-]. right. split; [now apply encode_raises in E | reflexivity].
  - intros [= <-]. now left.
Qed.

Lemma generate_cache_key_unrenderable c width height :
  renderable width && renderable height = false ->
  _generate_cache_key c width height = Raise ValueError.
Proof. intros R. unfold _generate_cache_key. now rewrite fstring_sizes, R. Qed.

Lemma handler_result_spec width height :
  handler_result width height =
    if renderable width && renderable height
    then Ok (PyStr (placeholder_reference width height))
    else Raise ValueError.
Proof.
  unfold handler_result, _get_local_placeholder. rewrite fstring_sizes.
  now destruct (renderable width && renderable height).
Qed.

Lemma get_image_key_error m c width height e w x :
  _generate_cache_key c width height = Raise x ->
  get_image m c width height e w = (handler_result width height, logged x w).
Proof.
  intros Hk.
  destruct (get_image_paths m c width height e w)
    as [(x' & Hk' & E) | (k & v & w1 & Hk' & _)]; congruence.
Qed.

(** Beyond the limit [get_image] raises: the fingerprint cannot be
    rendered, and neither can the placeholder of the handler. *)
Lemma get_image_unrenderable m c width height e w :
  renderable width && renderable height = false ->
  get_image m c width height e w = (Raise ValueError, logged ValueError w).
Proof.
  intros R.
  rewrite (get_image_key_error m c width height e w ValueError)
    by now apply generate_cache_key_unrenderable.
  now rewrite handler_result_spec, R.
Qed.

(** A category that cannot be encoded gives the placeholder. *)
Lemma get_image_unencodable m c width height e w :
  _generate_cache_key c width height = Raise UnicodeEncodeError ->
  get_image m c width height e w =
    (Ok (PyStr (placeholder_reference width height)), logged UnicodeEncodeError w).
Proof.
  intros Hk. rewrite (get_image_key_error _ _ _ _ _ _ _ Hk), handler_result_spec.
  apply generate_cache_key_Raise in Hk as [[[=] _] | [_ ->]]. reflexivity.
Qed.

(** Within the limit [get_image] returns, and what it returns is a
    non-empty string or the value of a fresh cache record. *)
Lemma get_image_returns m c width height e w :
  renderable width && renderable height = true ->
  exists v w',
    get_image m c width height e w = (Ok v, w') /\
    truth v = true /\
    ((exists url, v = PyStr url /\ url <> []) \/
     (exists k ts,
        _generate_cache_key c width height = Ok k /\
        files w !! cache_path m k = Some (CacheData (Some v) (Some ts)) /\
        (clock e (steps w) - ts < cache_duration m)%Z)).
Proof.
  intros R.
  destruct (get_image_paths m c width height e w)
    as [(x & Hk & E) | (k & v & w1 & Hk & E1 &
          [(Tv & E) | (_ & o1 & w2 & _ &
            [(url & _ & Hne & E) | (_ & url & w3 & _ & Hne & E)])])];
    rewrite E.
  - rewrite handler_result_spec, R.
    eexists _, _. split; [reflexivity |]. split; [reflexivity |].
    left. eauto using placeholder_nonempty.
  - exists v, w1. do 2 (split; trivial). right.
    destruct (get_cached_image_Some _ _ _ _ _ _ E1 Tv) as (ts & Hf & Hage & _). eauto.
  - eexists _, _. split; [reflexivity |]. split; [now apply truth_str | eauto].
  - eexists _, _. split; [reflexivity |]. split; [now apply truth_str | eauto].
Qed.

(** C1, as amended.  For every manager and category and for a width and
    a height of at most 4300 digits (positive or not), in every world and
    whatever the network, the disk and the cache files do, [get_image]
    does not raise and returns a value that is true: a non-empty string,
    or else the value that a fresh cache record holds under the
    fingerprint, which is returned whatever its type; with a cache that
    holds strings only the result is a non-empty string.  For a width or
    a height of more than 4300 digits [get_image] raises [ValueError]. *)
Theorem get_image_raises_only_beyond_digit_limit
    (m : manager) (category : pystr) (width height : Z) (e : env) (w : world) :
  (renderable width && renderable height = true ->
   exists v w',
     get_image m category width height e w = (Ok v, w') /\
     truth v = true /\
     ((exists url, v = PyStr url /\ url <> []) \/
      (exists k ts,
         _generate_cache_key category width height = Ok k /\
         files w !! cache_path m k = Some (CacheData (Some v) (Some ts)) /\
         (clock e (steps w) - ts < cache_duration m)%Z)) /\
     (strings_only w -> exists url, v = PyStr url /\ url <> [])) /\
  (renderable width && renderable height = false ->
   get_image m category width height e w = (Raise ValueError, logged ValueError w)).
Proof.
  split; [| apply get_image_unrenderable].
  intros R.
  destruct (get_image_returns m category width height e w R)
    as (v & w' & E & Tv & Hv).
  exists v, w'. do 3 (split; trivial).
  intros Hs. destruct Hv as [Hv | (k & ts & _ & Hf & _)]; [exact Hv |].
  destruct (Hs _ _ _ Hf) as [url ->]. exists url.
  split; [reflexivity | now apply truth_str].
Qed.

Lemma get_image_raises_only_beyond_digit_limit_witness :
  (exists v w',
     get_image __init__ (lit "business-team") 800 600 offline empty_world = (Ok v, w') /\
     exists url, v = PyStr url /\ url <> []) /\
  get_image __init__ (lit "business-team") huge 600 offline empty_world =
    (Raise ValueError, logged ValueError empty_world).
Proof.
  destruct (get_image_raises_only_beyond_digit_limit
              __init__ (lit "business-team") 800 600 offline empty_world)
    as [Hin _].
  destruct (get_image_raises_only_beyond_digit_limit
              __init__ (lit "business-team") huge 600 offline empty_world)
    as [_ Hout].
  split.
  - destruct (Hin eq_refl) as (v & w' & E & _ & _ & Hs).
    exists v, w'. split; [exact E |]. apply Hs.
    intros path v' ts Hf. cbn [empty_world files] in Hf.
    rewrite lookup_empty in Hf. discriminate Hf.
  - apply Hout. now rewrite huge_unrenderable.
Defined.

(** C1 fails as stated.  For a positive width of 4301 digits [get_image]
    raises [ValueError] to its caller; and when the cache record under the
    fingerprint holds a number where the URL should be, [get_image]
    returns that number, which is not a string. *)
Lemma get_image_raises_for_a_huge_width :
  (0 < huge)%Z /\
  get_image __init__ (lit "business-team") huge 600 offline empty_world =
    (Raise ValueError, logged ValueError empty_world) /\
  fst (get_image __init__ (lit "business-team") 800 600 offline number_cached) =
    Ok (PyInt 5).
Proof.
  split; [reflexivity |]. split.
  - apply get_image_unrenderable. now rewrite huge_unrenderable.
  - vm_compute. reflexivity.
Qed.

(** ** The fallback fetch and the placeholder (C10, C3) *)

Lemma fetch_fallback_image_check_fails m c width height e w :
  renderable width && renderable height = true ->
  (forall url, redirect_of m c width height = Some url -> check_fails e w url) ->
  exists w',
    _fetch_fallback_image m c width height e w =
      (Ok (Some (picsum_url (py_hash e) c width height)), w') /\
    files w' = files w.
Proof.
  intros R Hfail. rewrite fetch_fallback_image_run, R. cbv zeta.
  destruct (redirect_of m c width height) as [url |]; [| eauto].
  specialize (Hfail url eq_refl). unfold check_fails in Hfail.
  destruct (http e (steps w) (HEAD url)) as [x | status data]; [eauto |].
  destruct (Z.eqb_spec status 200) as [-> | _]; [| eauto].
  now destruct (Hfail data).
Qed.

Lemma cache_image_url_written m k url e w :
  disk_write e (S (steps w)) (cache_path m k) = Written ->
  files (snd (_cache_image_url m k url e w)) !! cache_path m k =
    Some (CacheData (Some (PyStr url)) (Some (clock e (steps w)))).
Proof.
  intros Hw. rewrite cache_image_url_run. cbv zeta. rewrite Hw. cbn.
  apply lookup_insert_eq.
Qed.

Lemma get_image_key_ok m c width height e w k :
  _generate_cache_key c width height = Ok k ->
  exists v w',
    get_image m c width height e w = (Ok v, w') /\
    cache_or_provider_url m c width height e w k v.
Proof.
  intros Hk. unfold cache_or_provider_url, provider_url.
  destruct (get_image_paths m c width height e w)
    as [(x & Hk' & _) | (k' & v & w1 & Hk' & E1 &
          [(Tv & E) | (_ & o1 & w2 & E2 &
            [(url & -> & _ & E) | (_ & url & w3 & E3 & _ & E)])])];
    try congruence; assert (k' = k) as -> by congruence;
    rewrite E; eexists _, _; (split; [reflexivity |]).
  - destruct (get_cached_image_Some _ _ _ _ _ _ E1 Tv) as (ts & Hf & _). eauto.
  - apply fetch_from_unsplash_Some in E2. eauto.
  - apply fetch_fallback_image_Some in E3. right. exists url. tauto.
Qed.

Lemma get_image_fresh_record m c width height e w k v ts :
  _generate_cache_key c width height = Ok k ->
  truth v = true ->
  files w !! cache_path m k = Some (CacheData (Some v) (Some ts)) ->
  (clock e (steps w) - ts < cache_duration m)%Z ->
  get_image m c width height e w = (Ok v, tick w).
Proof.
  intros Hk Tv Hf Hage. apply (get_image_hit _ _ _ _ _ _ k); trivial.
  rewrite get_cached_image_run, Hf.
  now destruct (Z.ltb_spec (clock e (steps w) - ts) (cache_duration m)); [| lia].
Qed.

(** No provider gives the placeholder reference. *)
Lemma composed_url_last raw width height :
  last (composed_url raw width height) = Some 114.
Proof.
  unfold composed_url.
  change (lit "&fit=crop&crop=center") with (lit "&fit=crop&crop=cente" ++ [114]).
  rewrite !app_assoc. apply last_snoc.
Qed.

Lemma placeholder_reference_last width height :
  last (placeholder_reference width height) = Some 103.
Proof.
  unfold placeholder_reference.
  change (lit ".svg") with (lit ".sv" ++ [103]).
  rewrite !app_assoc. apply last_snoc.
Qed.

Lemma provider_url_not_placeholder m e c width height url :
  provider_url m e c width height url -> url <> placeholder_reference width height.
Proof.
  intros [(_ & raw & ->) | [Hr | ->]].
  - intros H. apply (f_equal last) in H.
    rewrite composed_url_last, placeholder_reference_last in H. discriminate H.
  - unfold redirect_of in Hr. destruct (keywords_for m c); [discriminate |].
    injection Hr as <-. discriminate.
  - discriminate.
Qed.

(** The placeholder is returned by the handler, or read from the cache. *)
Lemma get_image_placeholder_only m c width height e w w' :
  get_image m c width height e w = (Ok (PyStr (placeholder_reference width height)), w') ->
  _generate_cache_key c width height = Raise UnicodeEncodeError \/
  exists k ts,
    _generate_cache_key c width height = Ok k /\
    files w !! cache_path m k =
      Some (CacheData (Some (PyStr (placeholder_reference width height))) (Some ts)) /\
    (clock e (steps w) - ts < cache_duration m)%Z.
Proof.
  intros E.
  destruct (_generate_cache_key c width height) as [k | x] eqn:Hk.
  - right. destruct (get_image_key_ok m c width height e w k Hk) as (v & w1 & E' & Hv).
    rewrite E in E'. injection E' as <- <-.
    destruct (get_image_paths m c width height e w)
      as [(x & Hk' & _) | (k' & v & w1 & Hk' & E1 &
            [(Tv & E') | (_ & o1 & w2 & E2 &
              [(url & -> & _ & E') | (_ & url & w3 & E3 & _ & E')])])];
      try congruence; assert (k' = k) as -> by congruence;
      rewrite E in E'.
    + injection E' as <- <-.
      destruct (get_cached_image_Some _ _ _ _ _ _ E1 Tv) as (ts & Hf & Hage & _). eauto.
    + injection E' as <- _. apply fetch_from_unsplash_Some in E2.
      exfalso. eapply (provider_url_not_placeholder m e c); [| reflexivity].
      left. exact E2.
    + injection E' as <- _. apply fetch_fallback_image_Some in E3.
      exfalso. eapply (provider_url_not_placeholder m e c); [| reflexivity].
      right. exact E3.
  - left. apply generate_cache_key_Raise in Hk as Hx.
    destruct Hx as [[-> R] | [-> _]]; [| reflexivity].
    rewrite (get_image_unrenderable _ _ _ _ _ _ R) in E. discriminate E.
Qed.

(** C10, as amended.  For a width and a height of at most 4300 digits
    [_fetch_fallback_image] returns a non-empty URL and does not raise,
    and when the reachability check raises or answers another status than
    200 the URL is the random-image one, with a seed in [0, 1000); beyond
    that limit it raises [ValueError].  The cache lookup, the search fetch
    and the cache write never raise.  So the handler of [get_image] is
    reached exactly when the fingerprint cannot be computed, which happens
    for a category that cannot be encoded ([UnicodeEncodeError]: the
    result is the placeholder) and for a width or a height beyond the
    limit ([ValueError]: [get_image] raises); with a fingerprint the
    result is the value of the cache record or a provider URL. *)
Theorem fallback_total_placeholder_on_key_error
    (m : manager) (c : pystr) (width height : Z) (e : env) (w : world) :
  (renderable width && renderable height = true ->
   (exists url w',
      _fetch_fallback_image m c width height e w = (Ok (Some url), w') /\ url <> []) /\
   ((forall url, redirect_of m c width height = Some url -> check_fails e w url) ->
    exists w',
      _fetch_fallback_image m c width height e w =
        (Ok (Some (picsum_url (py_hash e) c width height)), w'))) /\
  (renderable width && renderable height = false ->
   _fetch_fallback_image m c width height e w =
     (Raise ValueError, logged ValueError w)) /\
  (picsum_url (py_hash e) c width height =
     lit "https://picsum.photos/" ++ str_of_int width ++ lit "/"
       ++ str_of_int height ++ lit "?random=" ++ str_of_int (py_hash e c mod 1000)
   /\ 0 <= py_hash e c mod 1000 < 1000)%Z /\
  (forall x,
     _generate_cache_key c width height = Raise x ->
     (x = UnicodeEncodeError /\
      renderable width && renderable height = true /\
      get_image m c width height e w =
        (Ok (PyStr (placeholder_reference width height)), logged x w)) \/
     (x = ValueError /\
      renderable width && renderable height = false /\
      get_image m c width height e w = (Raise ValueError, logged x w))) /\
  (forall k,
     _generate_cache_key c width height = Ok k ->
     exists v w',
       get_image m c width height e w = (Ok v, w') /\
       cache_or_provider_url m c width height e w k v) /\
  (forall k, never_raises (_get_cached_image m k)) /\
  never_raises (_fetch_from_unsplash m c width height) /\
  (forall k url, never_raises (_cache_image_url m k url)).
Proof.
  split; [| split; [| split; [| split; [| split; [| split; [| split]]]]]].
  - intros R. apply andb_true_iff in R as [Rw Rh]. split.
    + destruct (fetch_fallback_image_returns m c width height e w Rw Rh)
        as (url & w' & E & Hne & _). eauto.
    + intros Hfail.
      destruct (fetch_fallback_image_check_fails m c width height e w) as (w' & E & _);
        [now rewrite Rw, Rh | exact Hfail | eauto].
  - apply fetch_fallback_image_raises.
  - split; [reflexivity | apply Z.mod_pos_bound; reflexivity].
  - intros x Hk. destruct (generate_cache_key_Raise _ _ _ _ Hk) as [[-> R] | [-> R]].
    + right. do 2 (split; trivial). now apply get_image_unrenderable.
    + left. do 2 (split; trivial). now apply get_image_unencodable.
  - intros k. apply get_image_key_ok.
  - intros k e' w'.
    destruct (get_cached_image_returns m k e' w') as (o & w1 & E & _). eauto.
  - intros e' w'.
    destruct (fetch_from_unsplash_returns m c width height e' w') as (o & w1 & E & _).
    eauto.
  - intros k url e' w'.
    destruct (cache_image_url_returns m k url e' w') as (w1 & E & _).
    exists tt, w1. exact E.
Qed.

Lemma fallback_total_placeholder_on_key_error_witness :
  (exists w',
     _fetch_fallback_image __init__ (lit "business-team") 800 600 offline empty_world =
       (Ok (Some (picsum_url (py_hash offline) (lit "business-team") 800 600)), w')) /\
  _fetch_fallback_image __init__ (lit "business-team") huge 600 offline empty_world =
    (Raise ValueError, logged ValueError empty_world) /\
  (exists v w',
     get_image __init__ (lit "business-team") 800 600 offline empty_world = (Ok v, w') /\
     cache_or_provider_url __init__ (lit "business-team") 800 600 offline empty_world
       (lit "06a3a7149cb070b75448783074ef67d5") v).
Proof.
  split; [| split].
  - apply (fallback_total_placeholder_on_key_error
             __init__ (lit "business-team") 800 600 offline empty_world);
      [reflexivity |].
    intros url _ data. discriminate.
  - apply (fallback_total_placeholder_on_key_error
             __init__ (lit "business-team") huge 600 offline empty_world).
    now rewrite huge_unrenderable.
  - apply (fallback_total_placeholder_on_key_error
             __init__ (lit "business-team") 800 600 offline empty_world).
    vm_compute. reflexivity.
Defined.

(** C10 fails as stated for a category holding a lone surrogate: the handler
    of [get_image] returns the placeholder for the [UnicodeEncodeError] of
    [_generate_cache_key], and no helper has raised. *)
Lemma placeholder_without_helper_exception :
  get_image __init__ [0xD800] 800 600 offline empty_world =
    (Ok (PyStr (placeholder_reference 800 600)), logged UnicodeEncodeError empty_world) /\
  ~ helper_raises __init__ [0xD800] 800 600 offline.
Proof.
  split; [apply get_image_unencodable; reflexivity |].
  intros [(k & w & x & w' & E) | [(w & x & w' & E) | (k & url & w & x & w' & E)]].
  - destruct (get_cached_image_returns __init__ k offline w) as (? & ? & E' & _).
    congruence.
  - destruct (fetch_from_unsplash_returns __init__ [0xD800] 800 600 offline w)
      as (? & ? & E' & _).
    congruence.
  - destruct (cache_image_url_returns __init__ k url offline w) as (? & E' & _).
    congruence.
Qed.

(** C3, as amended.  The failure of the providers never gives the
    placeholder: when the cache misses and providers 1 and 2 both fail,
    the result is the random-image URL of provider 3, built without a
    request; it is not the placeholder, it is written to the cache under
    the fingerprint, where it is found if the disk accepts the write, and a
    call made while that record is less than 24 hours old returns it from
    the cache.  [get_image] returns the placeholder, of the form
    [/static/images/placeholder-{width}x{height}.svg], in two cases only:
    when the fingerprint raises [UnicodeEncodeError], and then nothing is
    written to the cache and no request is made; or when a fresh cache
    record under the fingerprint holds that very string. *)
Theorem placeholder_uncached_failed_providers_yield_picsum
    (m : manager) (c : pystr) (width height : Z) (e : env) (w : world) :
  (forall placeholder,
     _get_local_placeholder width height = Ok placeholder ->
     placeholder =
       lit "/static/images/placeholder-" ++ str_of_int width ++ lit "x"
         ++ str_of_int height ++ lit ".svg") /\
  (_generate_cache_key c width height = Raise UnicodeEncodeError ->
   exists w',
     get_image m c width height e w =
       (Ok (PyStr (placeholder_reference width height)), w') /\
     _get_local_placeholder width height = Ok (placeholder_reference width height) /\
     files w' = files w /\ requests w' = requests w) /\
  (forall w',
     get_image m c width height e w =
       (Ok (PyStr (placeholder_reference width height)), w') ->
     _generate_cache_key c width height = Raise UnicodeEncodeError \/
     exists k ts,
       _generate_cache_key c width height = Ok k /\
       files w !! cache_path m k =
         Some (CacheData (Some (PyStr (placeholder_reference width height))) (Some ts)) /\
       (clock e (steps w) - ts < cache_duration m)%Z) /\
  (forall k v w1 o1 w2,
     _generate_cache_key c width height = Ok k ->
     _get_cached_image m k e w = (Ok v, w1) -> truth v = false ->
     _fetch_from_unsplash m c width height e w1 = (Ok o1, w2) -> truthy o1 = false ->
     (forall url, redirect_of m c width height = Some url -> check_fails e w2 url) ->
     let url := picsum_url (py_hash e) c width height in
     exists w3 w',
       get_image m c width height e w = (Ok (PyStr url), w') /\
       url <> placeholder_reference width height /\
       w' = snd (_cache_image_url m k url e w3) /\
       requests w3 = requests w2 ++
         match redirect_of m c width height with
         | Some checked => [HEAD checked]
         | None => []
         end /\
       (disk_write e (S (steps w3)) (cache_path m k) = Written ->
        files w' !! cache_path m k =
          Some (CacheData (Some (PyStr url)) (Some (clock e (steps w3)))) /\
        ((clock e (steps w') - clock e (steps w3) < cache_duration m)%Z ->
         get_image m c width height e w' = (Ok (PyStr url), tick w')))).
Proof.
  split; [| split; [| split]].
  - intros p Hp. unfold _get_local_placeholder in Hp.
    now apply fstring_Ok in Hp as [_ ->].
  - intros Hk. rewrite (get_image_unencodable _ _ _ _ _ _ Hk).
    eexists. split; [reflexivity |]. split; [| split; reflexivity].
    apply generate_cache_key_Raise in Hk as [[[=] _] | [_ R]].
    unfold _get_local_placeholder. now rewrite fstring_sizes, R.
  - apply get_image_placeholder_only.
  - intros k v w1 o1 w2 Hk E1 Tv E2 To1 Hfail url.
    destruct (generate_cache_key_renderable _ _ _ _ Hk) as [Rw Rh].
    destruct (fetch_fallback_image_check_fails m c width height e w2) as (w3 & E3 & _);
      [now rewrite Rw, Rh | exact Hfail |].
    exists w3, (snd (_cache_image_url m k url e w3)).
    split; [| split; [discriminate | split; [reflexivity | split]]].
    + exact (get_image_fallback _ _ _ _ _ _ _ _ _ _ _ _ _ Hk E1 Tv E2 To1 E3).
    + rewrite fetch_fallback_image_run, Rw, Rh in E3. cbn [andb] in E3. cbv zeta in E3.
      destruct (redirect_of m c width height) as [checked |].
      * destruct (http e (steps w2) (HEAD checked)) as [x | status data];
          [| destruct (status =? 200)%Z];
          apply (f_equal snd) in E3; cbn [snd] in E3; rewrite <- E3; reflexivity.
      * apply (f_equal snd) in E3. cbn [snd] in E3. rewrite <- E3.
        now rewrite app_nil_r.
    + intros Hw. pose proof (cache_image_url_written m k url e w3 Hw) as Hf.
      split; [exact Hf |]. intros Hage.
      apply (get_image_fresh_record m c width height e _ k (PyStr url)
               (clock e (steps w3))); trivial.
Qed.

Lemma placeholder_uncached_failed_providers_yield_picsum_witness :
  (exists w',
     get_image __init__ [0xD800] 800 600 offline empty_world =
       (Ok (PyStr (placeholder_reference 800 600)), w') /\
     files w' = files empty_world /\ requests w' = requests empty_world) /\
  (exists w',
     get_image __init__ (lit "business-team") 800 600 offline empty_world =
       (Ok (PyStr (lit "https://picsum.photos/800/600?random=0")), w')).
Proof.
  split.
  - destruct (proj1 (proj2 (placeholder_uncached_failed_providers_yield_picsum
               __init__ [0xD800] 800 600 offline empty_world)) eq_refl)
      as (w' & E & _ & F & R).
    exists w'. auto.
  - destruct (proj2 (proj2 (proj2 (placeholder_uncached_failed_providers_yield_picsum
               __init__ (lit "business-team") 800 600 offline empty_world)))
               (lit "06a3a7149cb070b75448783074ef67d5") PyNone empty_world
               None empty_world)
      as (w3 & w' & E & _).
    + vm_compute. reflexivity.
    + vm_compute. reflexivity.
    + reflexivity.
    + reflexivity.
    + reflexivity.
    + intros url _ data. discriminate.
    + exists w'. exact E.
Defined.

(** C3 fails as stated when every request times out: the result is not
    the placeholder but the random-image URL, it is written to the cache,
    and the next call returns it from the cache without trying the
    network again. *)
Lemma failed_providers_cache_picsum :
  let url := picsum_url (py_hash offline) (lit "business-team") 800 600 in
  let path := cache_path __init__ (lit "06a3a7149cb070b75448783074ef67d5") in
  let run := get_image __init__ (lit "business-team") 800 600 offline empty_world in
  let again := get_image __init__ (lit "business-team") 800 600 offline (snd run) in
  (forall n r, http offline n r = Fails TimeoutError) /\
  _generate_cache_key (lit "business-team") 800 600 =
    Ok (lit "06a3a7149cb070b75448783074ef67d5") /\
  fst run = Ok (PyStr url) /\
  url <> placeholder_reference 800 600 /\
  files empty_world !! path = None /\
  files (snd run) !! path = Some (CacheData (Some (PyStr url)) (Some 0%Z)) /\
  fst again = Ok (PyStr url) /\
  requests (snd again) = requests (snd run).
Proof.
  intros url path run again. split; [reflexivity |].
  split; [vm_compute; reflexivity |]. split; [vm_compute; reflexivity |].
  split; [discriminate |]. split; [vm_compute; reflexivity |].
  split; [vm_compute; reflexivity |]. split; vm_compute; reflexivity.
Qed.

(** ** Provider 2 answers before provider 3 is tried (C4) *)

Lemma fetch_fallback_image_redirect m c width height e w first rest data :
  renderable width && renderable height = true ->
  keywords_for m c = first :: rest ->
  let url := redirect_url (replace_char 32 45 first) width height in
  http e (steps w) (HEAD url) = Response 200 data ->
  _fetch_fallback_image m c width height e w = (Ok (Some url), sent (HEAD url) w).
Proof.
  intros R Hkw url Hhead. rewrite fetch_fallback_image_run, R. unfold redirect_of.
  rewrite Hkw. cbv zeta. fold url. now rewrite Hhead.
Qed.

Lemma redirect_is_not_picsum keyword hash c width height :
  redirect_url keyword width height <> picsum_url hash c width height.
Proof. discriminate. Qed.

(** C4.  On a cache miss, when the search provider returns absent and the
    reachability check of provider 2 answers 200, [get_image] returns
    [https://source.unsplash.com/{width}x{height}/?{keyword}] for the
    first keyword with its spaces turned into hyphens, and caches it.
    Provider 3 is not involved: the check is the only request added, the
    result is not the random-image URL, and the outcome is the same
    whatever [hash] would answer. *)
Theorem redirect_provider_short_circuits
    (m : manager) (c : pystr) (width height : Z) (e : env) (w : world)
    (k : pystr) (v : pyvalue) (w1 w2 : world)
    (first : pystr) (rest : list pystr) (data : body) :
  let url :=
    lit "https://source.unsplash.com/" ++ str_of_int width ++ lit "x"
      ++ str_of_int height ++ lit "/?" ++ replace_char 32 45 first in
  _generate_cache_key c width height = Ok k ->
  _get_cached_image m k e w = (Ok v, w1) -> truth v = false ->
  _fetch_from_unsplash m c width height e w1 = (Ok None, w2) ->
  keywords_for m c = first :: rest ->
  http e (steps w2) (HEAD url) = Response 200 data ->
  exists w',
    get_image m c width height e w = (Ok (PyStr url), w') /\
    w' = snd (_cache_image_url m k url e (sent (HEAD url) w2)) /\
    requests w' = requests w2 ++ [HEAD url] /\
    url <> picsum_url (py_hash e) c width height /\
    forall hash,
      get_image m c width height (with_hash hash e) w = (Ok (PyStr url), w').
Proof.
  intros url Hk E1 Tv E2 Hkw Hhead.
  assert (Hurl : url = redirect_url (replace_char 32 45 first) width height)
    by reflexivity.
  clearbody url. subst url.
  set (url := redirect_url (replace_char 32 45 first) width height) in *.
  assert (R : renderable width && renderable height = true).
  { destruct (generate_cache_key_renderable _ _ _ _ Hk) as [-> ->]. reflexivity. }
  pose proof (fetch_fallback_image_redirect m c width height e w2 _ _ _ R Hkw Hhead)
    as E3.
  exists (snd (_cache_image_url m k url e (sent (HEAD url) w2))).
  split; [| split; [reflexivity | split; [| split]]].
  - eapply get_image_fallback; eauto.
  - destruct (cache_image_url_returns m k url e (sent (HEAD url) w2)) as (w4 & E4 & Rq).
    rewrite E4. exact Rq.
  - apply redirect_is_not_picsum.
  - intros hash. rewrite <- (cache_image_url_hash hash).
    apply (get_image_fallback m c width height (with_hash hash e) w k v w1 None w2);
      trivial.
    + now rewrite get_cached_image_hash.
    + now rewrite fetch_from_unsplash_hash.
    + now apply (fetch_fallback_image_redirect m c width height (with_hash hash e)
                   w2 first rest data).
Qed.

Lemma redirect_provider_short_circuits_witness :
  exists w',
    get_image __init__ (lit "ai-machine-learning") 800 600 online empty_world =
      (Ok (PyStr (lit "https://source.unsplash.com/800x600/?artificial-intelligence")),
       w') /\
    requests w' =
      [HEAD (lit "https://source.unsplash.com/800x600/?artificial-intelligence")].
Proof.
  destruct (redirect_provider_short_circuits
              __init__ (lit "ai-machine-learning") 800 600 online empty_world
              (lit "bc28a24205b20dc6faba1fa537051e94") PyNone empty_world empty_world
              (lit "artificial intelligence")
              (map lit ["machine learning"; "technology"; "future"]%string)
              (Results []))
    as (w' & E & _ & R & _).
  - vm_compute. reflexivity.
  - vm_compute. reflexivity.
  - reflexivity.
  - vm_compute. reflexivity.
  - vm_compute. reflexivity.
  - reflexivity.
  - exists w'. split; [exact E | exact R].
Defined.

(** ** The search provider (C7, C9) *)

Lemma key_missing_spec m :
  key_missing m = true <->
  unsplash_access_key m = None \/ unsplash_access_key m = Some [] \/
  unsplash_access_key m = Some YOUR_UNSPLASH_ACCESS_KEY.
Proof.
  unfold key_missing. destruct (unsplash_access_key m) as [[| ch key] |]; simpl.
  - intuition.
  - rewrite bool_decide_eq_true. split; [auto | intros [? | [? | ?]]; congruence].
  - intuition.
Qed.

Lemma key_configured m key :
  unsplash_access_key m = Some key ->
  key <> [] -> key <> YOUR_UNSPLASH_ACCESS_KEY -> key_missing m = false.
Proof.
  intros Hm H1 H2. destruct (key_missing m) eqn:E; [| reflexivity].
  apply key_missing_spec in E as [E | [E | E]]; congruence.
Qed.

(** Without a credential the search provider is skipped: it returns
    absent and leaves the world as it was (no request, nothing logged). *)
Lemma search_skipped_without_credential m c width height e w :
  key_missing m = true ->
  _fetch_from_unsplash m c width height e w = (Ok None, w).
Proof. intros H. now rewrite fetch_from_unsplash_run, H. Qed.

Lemma fetch_from_unsplash_top_result m c width height e w raw rest :
  key_missing m = false ->
  renderable width && renderable height = true ->
  http e (steps w) (search_request m c) = Response 200 (Results (Photo raw :: rest)) ->
  _fetch_from_unsplash m c width height e w =
    (Ok (Some (composed_url raw width height)), sent (search_request m c) w).
Proof. intros Hkey R Hget. now rewrite fetch_from_unsplash_run, Hkey, Hget, R. Qed.

(** C7.  With a credential configured, on a cache miss, when the search
    answers 200 with [https://img.example/photo123/raw] as the raw URL of
    its top result, [get_image("business-team", 1920, 1080)] returns
    [https://img.example/photo123/raw&w=1920&h=1080&fit=crop&crop=center]
    after that single request and writes it to the cache under the
    fingerprint of the triple, where the record is found when the disk
    accepts the write. *)
Theorem search_result_composed_and_cached
    (key : pystr) (e : env) (w : world) (v : pyvalue) (w1 : world)
    (rest : list photo_entry) :
  let m := with_key (Some key) __init__ in
  let fingerprint := lit "6d26caf2e04fedc3a9d9ffdc3704a5b2" in
  let raw := lit "https://img.example/photo123/raw" in
  let url := lit "https://img.example/photo123/raw&w=1920&h=1080&fit=crop&crop=center" in
  let search :=
    GET (lit "https://api.unsplash.com/search/photos")
        [(lit "Authorization", lit "Client-ID " ++ key)]
        [(lit "query", lit "business team office professional");
         (lit "orientation", lit "landscape");
         (lit "per_page", lit "1"); (lit "order_by", lit "relevant")] in
  key <> [] -> key <> YOUR_UNSPLASH_ACCESS_KEY ->
  _get_cached_image m fingerprint e w = (Ok v, w1) -> truth v = false ->
  http e (steps w1) search = Response 200 (Results (Photo raw :: rest)) ->
  _generate_cache_key (lit "business-team") 1920 1080 = Ok fingerprint /\
  exists w',
    get_image m (lit "business-team") 1920 1080 e w = (Ok (PyStr url), w') /\
    w' = snd (_cache_image_url m fingerprint url e (sent search w1)) /\
    requests w' = requests w ++ [search] /\
    (disk_write e (S (S (steps w1))) (cache_path m fingerprint) = Written ->
     files w' !! cache_path m fingerprint =
       Some (CacheData (Some (PyStr url)) (Some (clock e (S (steps w1)))))).
Proof.
  intros m fingerprint raw url search Hk1 Hk2 E1 Tv Hget.
  assert (Hkey : _generate_cache_key (lit "business-team") 1920 1080 = Ok fingerprint)
    by (vm_compute; reflexivity).
  assert (Hsearch : search_request m (lit "business-team") = search)
    by (vm_compute; reflexivity).
  assert (Hurl : composed_url raw 1920 1080 = url) by (vm_compute; reflexivity).
  assert (Hm : key_missing m = false) by (now apply (key_configured m key)).
  rewrite <- Hsearch in *.
  pose proof (fetch_from_unsplash_top_result m (lit "business-team") 1920 1080
                e w1 raw rest Hm eq_refl Hget) as E2.
  rewrite Hurl in E2.
  split; [exact Hkey |].
  exists (snd (_cache_image_url m fingerprint url e
                 (sent (search_request m (lit "business-team")) w1))).
  split; [| split; [reflexivity | split]].
  - eapply get_image_search; eauto.
  - destruct (cache_image_url_returns m fingerprint url e
                (sent (search_request m (lit "business-team")) w1)) as (w4 & E4 & R).
    rewrite E4. cbn [snd]. rewrite R. cbn [requests sent].
    destruct (get_cached_image_returns m fingerprint e w) as (? & ? & E1' & _ & R1).
    rewrite E1 in E1'. injection E1' as <- <-. now rewrite R1.
  - intros Hw.
    exact (cache_image_url_written m fingerprint url e
             (sent (search_request m (lit "business-team")) w1) Hw).
Qed.

Lemma search_result_composed_and_cached_witness :
  let m := with_key (Some (lit "real-key")) __init__ in
  let e :=
    Env (fun n => Z.of_nat n)
        (fun _ _ => Response 200 (Results [Photo (lit "https://img.example/photo123/raw")]))
        (fun _ _ => Written) (fun _ => 0%Z) (fun _ => []) in
  let url := lit "https://img.example/photo123/raw&w=1920&h=1080&fit=crop&crop=center" in
  exists w',
    get_image m (lit "business-team") 1920 1080 e empty_world = (Ok (PyStr url), w') /\
    files w' !! cache_path m (lit "6d26caf2e04fedc3a9d9ffdc3704a5b2") =
      Some (CacheData (Some (PyStr url)) (Some 1%Z)).
Proof.
  intros m e url.
  destruct (search_result_composed_and_cached
              (lit "real-key") e empty_world PyNone empty_world [])
    as (_ & w' & E & _ & _ & F).
  - discriminate.
  - discriminate.
  - vm_compute. reflexivity.
  - reflexivity.
  - reflexivity.
  - exists w'. split; [exact E | apply F; reflexivity].
Defined.

(** C9, on the code.  Whatever credential the settings hold, the manager
    of the application carries the placeholder credential, and its search
    provider returns absent without a request and without an error. *)
Theorem configured_credential_is_ignored
    (settings : Config.Settings) (c : pystr) (width height : Z)
    (e : env) (w : world) :
  unsplash_access_key (asset_manager settings) = Some YOUR_UNSPLASH_ACCESS_KEY /\
  _fetch_from_unsplash (asset_manager settings) c width height e w = (Ok None, w).
Proof.
  split; [reflexivity |].
  apply search_skipped_without_credential. reflexivity.
Qed.

Example real_key_is_not_used :
  let settings := {| Config.unsplash_access_key := Some (lit "real-key") |} in
  unsplash_access_key (asset_manager settings) <> Config.unsplash_access_key settings.
Proof. discriminate. Qed.

(** ** Caching and expiry (C2) *)

Lemma fetch_from_unsplash_requests m c width height e w o w' :
  _fetch_from_unsplash m c width height e w = (Ok o, w') ->
  (key_missing m = true /\ requests w' = requests w) \/
  (key_missing m = false /\ requests w' = requests w ++ [search_request m c]).
Proof.
  rewrite fetch_from_unsplash_run.
  destruct (key_missing m); [intros [= _ <-]; auto |]. cbv zeta.
  destruct (http e (steps w) _) as [x | status data]; [intros [= _ <-]; auto |].
  destruct (status =? 200)%Z; [| intros [= _ <-]; auto].
  destruct data as [| [| [| raw] rest]]; try (intros [= _ <-]; auto).
  destruct (renderable width && renderable height); intros [= _ <-]; auto.
Qed.

Lemma fetch_fallback_image_requests m c width height e w o w' :
  _fetch_fallback_image m c width height e w = (Ok o, w') ->
  requests w' =
    requests w ++
    match redirect_of m c width height with
    | Some url => [HEAD url]
    | None => []
    end.
Proof.
  rewrite fetch_fallback_image_run.
  destruct (renderable width && renderable height); [| discriminate]. cbv zeta.
  destruct (redirect_of m c width height) as [url |].
  - destruct (http e (steps w) _) as [x | status data]; [intros [= _ <-]; auto |].
    destruct (status =? 200)%Z; intros [= _ <-]; auto.
  - intros [= _ <-]. now rewrite app_nil_r.
Qed.

Lemma cache_image_url_requests m k url e w :
  requests (snd (_cache_image_url m k url e w)) = requests w.
Proof.
  destruct (cache_image_url_returns m k url e w) as (w1 & E & R). now rewrite E.
Qed.

Lemma redirect_of_registry key c width height :
  exists url, redirect_of (with_key key __init__) c width height = Some url.
Proof.
  unfold redirect_of. pose proof (keywords_for_nonempty key c) as H.
  destruct (keywords_for (with_key key __init__) c); [congruence | eauto].
Qed.

(** The requests of one call: those already made, then at most the
    search and the reachability check. *)
Lemma get_image_requests m c width height e w :
  exists added,
    requests (snd (get_image m c width height e w)) = requests w ++ added /\
    (length added <= if key_missing m then 1 else 2)%nat.
Proof.
  destruct (get_image_paths m c width height e w)
    as [(x & Hk & E') | (k & v & w1 & Hk & E1 &
          [(Tv & E') | (Tv & o1 & w2 & E2 &
            [(u & -> & Hne & E') | (To1 & u & w3 & E3 & Hne & E')])])];
    rewrite E'; cbn [snd].
  - exists []. cbn. rewrite app_nil_r. split; [reflexivity | destruct key_missing; lia].
  - destruct (get_cached_image_returns m k e w) as (? & ? & E1' & _ & R).
    same_runs. exists []. rewrite app_nil_r.
    split; [assumption | cbn; destruct key_missing; lia].
  - destruct (get_cached_image_returns m k e w) as (? & ? & E1' & _ & R).
    same_runs. rewrite cache_image_url_requests.
    apply fetch_from_unsplash_requests in E2 as [[Hm ->] | [Hm ->]]; rewrite Hm, R.
    + exists []. rewrite app_nil_r. cbn. split; [reflexivity | lia].
    + eexists. split; [reflexivity | cbn; lia].
  - destruct (get_cached_image_returns m k e w) as (? & ? & E1' & _ & R).
    same_runs. rewrite cache_image_url_requests.
    apply fetch_fallback_image_requests in E3. rewrite E3.
    apply fetch_from_unsplash_requests in E2 as [[Hm ->] | [Hm ->]]; rewrite Hm, R.
    + eexists. split; [reflexivity |]. destruct redirect_of; cbn; lia.
    + rewrite <- app_assoc. eexists. split; [reflexivity |].
      destruct redirect_of; cbn; lia.
Qed.

(** With a working disk, the value a call returns is the value of the
    record it leaves under the fingerprint. *)
Lemma get_image_leaves_record m c width height e w k v w' :
  _generate_cache_key c width height = Ok k ->
  (forall n path, disk_write e n path = Written) ->
  get_image m c width height e w = (Ok v, w') ->
  truth v = true /\
  exists ts, files w' !! cache_path m k = Some (CacheData (Some v) (Some ts)).
Proof.
  intros Hk Hdisk E.
  destruct (get_image_paths m c width height e w)
    as [(x & Hk' & E') | (k' & v' & w1 & Hk' & E1 &
          [(Tv & E') | (Tv & o1 & w2 & E2 &
            [(u & -> & Hne & E') | (To1 & u & w3 & E3 & Hne & E')])])];
    try congruence; rewrite E' in E; injection E as <- <-;
    assert (k' = k) as -> by congruence.
  - split; [assumption |].
    destruct (get_cached_image_Some _ _ _ _ _ _ E1 Tv) as (ts & Hf & _ & ->). eauto.
  - split; [now apply truth_str |]. eexists. apply cache_image_url_written, Hdisk.
  - split; [now apply truth_str |]. eexists. apply cache_image_url_written, Hdisk.
Qed.

Lemma get_cached_image_expired m k e w url ts :
  files w !! cache_path m k = Some (CacheData url (Some ts)) ->
  (cache_duration m <= clock e (steps w) - ts)%Z ->
  _get_cached_image m k e w = (Ok PyNone, tick w).
Proof.
  intros Hf Hage. rewrite get_cached_image_run, Hf.
  now destruct (Z.ltb_spec (clock e (steps w) - ts) (cache_duration m)); [lia |].
Qed.

(** After a miss, a manager built on the registry sends at least one
    request. *)
Lemma get_image_miss_attempts key c width height e w k v w1 :
  let m := with_key key __init__ in
  _generate_cache_key c width height = Ok k ->
  _get_cached_image m k e w = (Ok v, w1) -> truth v = false ->
  exists url w' req reqs,
    get_image m c width height e w = (Ok (PyStr url), w') /\
    requests w' = requests w ++ req :: reqs.
Proof.
  intros m Hk E1 Tv.
  destruct (generate_cache_key_renderable _ _ _ _ Hk) as [Rw Rh].
  destruct (get_cached_image_returns m k e w) as (v' & w1' & E1' & _ & R).
  rewrite E1 in E1'. injection E1' as <- <-.
  destruct (fetch_from_unsplash_returns m c width height e w1) as (o1 & w2 & E2 & _).
  pose proof (fetch_from_unsplash_requests _ _ _ _ _ _ _ _ E2) as R2.
  destruct (truthy o1) eqn:To1.
  - apply truthy_true in To1 as (u & -> & Hne).
    exists u, (snd (_cache_image_url m k u e w2)).
    pose proof (get_image_search _ _ _ _ _ _ _ _ _ _ _ Hk E1 Tv E2) as E.
    destruct R2 as [[Hm _] | [_ R2]].
    + rewrite (search_skipped_without_credential _ _ _ _ _ _ Hm) in E2.
      discriminate E2.
    + exists (search_request m c), []. split; [exact E |].
      now rewrite cache_image_url_requests, R2, R.
  - destruct (fetch_fallback_image_returns m c width height e w2 Rw Rh)
      as (u & w3 & E3 & Hne & _).
    exists u, (snd (_cache_image_url m k u e w3)).
    pose proof (get_image_fallback _ _ _ _ _ _ _ _ _ _ _ _ _ Hk E1 Tv E2 To1 E3) as E.
    destruct (redirect_of_registry key c width height) as [r Hr].
    apply fetch_fallback_image_requests in E3. fold m in Hr. rewrite Hr in E3.
    rewrite cache_image_url_requests, E3.
    destruct R2 as [[_ ->] | [_ ->]]; rewrite R.
    + exists (HEAD r), []. auto.
    + exists (search_request m c), [HEAD r]. rewrite <- app_assoc. auto.
Qed.

(** C2, as amended.  For a fixed triple, a cached record is reused
    exactly when it is less than 24 hours old.  With a working disk the
    value a call returns is the value of the record it leaves, so a second
    call within 24 hours of that record returns the same value and sends
    no request; the requests of both calls together are those of the
    first: at most the search and the reachability check, and at most one
    without a credential.  A record 24 hours old or older is not reused,
    and the call then sends at least one request. *)
Theorem cache_reuse_within_ttl
    (key : option pystr) (c : pystr) (width height : Z) (e : env) (w : world)
    (k : pystr) :
  let m := with_key key __init__ in
  _generate_cache_key c width height = Ok k ->
  cache_duration m = 86400000000%Z /\
  (forall url ts,
     url <> [] ->
     files w !! cache_path m k = Some (CacheData (Some (PyStr url)) (Some ts)) ->
     ((clock e (steps w) - ts < 86400000000)%Z ->
      get_image m c width height e w = (Ok (PyStr url), tick w) /\
      requests (tick w) = requests w /\ files (tick w) = files w) /\
     ((86400000000 <= clock e (steps w) - ts)%Z ->
      _get_cached_image m k e w = (Ok PyNone, tick w) /\
      exists url' w' req reqs,
        get_image m c width height e w = (Ok (PyStr url'), w') /\
        requests w' = requests w ++ req :: reqs)) /\
  (forall v w1,
     (forall n path, disk_write e n path = Written) ->
     get_image m c width height e w = (Ok v, w1) ->
     exists ts,
       files w1 !! cache_path m k = Some (CacheData (Some v) (Some ts)) /\
       ((clock e (steps w1) - ts < 86400000000)%Z ->
        exists w2 added,
          get_image m c width height e w1 = (Ok v, w2) /\
          requests w2 = requests w1 /\
          requests w2 = requests w ++ added /\
          (length added <= if key_missing m then 1 else 2)%nat)).
Proof.
  intros m Hk. split; [reflexivity | split].
  - intros url ts Hne Hf. split.
    + intros Hage. split; [| split; reflexivity].
      apply (get_image_fresh_record m c width height e w k (PyStr url) ts); trivial.
      now apply truth_str.
    + intros Hage.
      assert (E1 : _get_cached_image m k e w = (Ok PyNone, tick w))
        by now apply (get_cached_image_expired m k e w (Some (PyStr url)) ts).
      split; [exact E1 |].
      now apply (get_image_miss_attempts key c width height e w k PyNone (tick w)).
  - intros v w1 Hdisk E.
    destruct (get_image_leaves_record _ _ _ _ _ _ _ _ _ Hk Hdisk E) as (Tv & ts & Hf).
    exists ts. split; [exact Hf |]. intros Hage.
    destruct (get_image_requests m c width height e w) as (added & R & Hlen).
    rewrite E in R. cbn [snd] in R.
    exists (tick w1), added. repeat split; trivial.
    now apply (get_image_fresh_record m c width height e w1 k v ts).
Qed.

Lemma cache_reuse_within_ttl_witness :
  let m := with_key None __init__ in
  let c := lit "business-team" in
  let run1 := get_image m c 800 600 online empty_world in
  let url := lit "https://source.unsplash.com/800x600/?business" in
  fst run1 = Ok (PyStr url) /\
  exists w2 added,
    get_image m c 800 600 online (snd run1) = (Ok (PyStr url), w2) /\
    requests w2 = requests (snd run1) /\
    requests w2 = requests empty_world ++ added /\
    (length added <= 1)%nat.
Proof.
  intros m c run1 url.
  assert (E1 : fst run1 = Ok (PyStr url)) by (vm_compute; reflexivity).
  split; [exact E1 |].
  destruct (proj2 (proj2 (cache_reuse_within_ttl None c 800 600 online empty_world
                            (lit "06a3a7149cb070b75448783074ef67d5") eq_refl))
              (PyStr url) (snd run1)) as (ts & Hf & Hsecond).
  - reflexivity.
  - rewrite <- E1. apply surjective_pairing.
  - apply Hsecond.
    assert (Hts : files (snd run1) !! cache_path m (lit "06a3a7149cb070b75448783074ef67d5")
                  = Some (CacheData (Some (PyStr url)) (Some 1%Z)))
      by (vm_compute; reflexivity).
    assert (Hone : Some (CacheData (Some (PyStr url)) (Some ts)) =
                   Some (CacheData (Some (PyStr url)) (Some 1%Z)))
      by exact (eq_trans (eq_sym Hf) Hts).
    injection Hone as ->. vm_compute. reflexivity.
Defined.

(** C2 fails as stated.  With a credential configured, when the search
    finds nothing and the redirect check succeeds, the first call alone
    sends two requests, although the second call, within the 24 hours,
    returns the same URL and sends none.  And when the cache directory
    cannot be written, no record is left: the second call sends the
    reachability check again. *)
Lemma two_requests_across_two_calls :
  let c := lit "business-team" in
  let url := lit "https://source.unsplash.com/800x600/?business" in
  (let m := with_key (Some (lit "real-key")) __init__ in
   let run1 := get_image m c 800 600 online empty_world in
   let run2 := get_image m c 800 600 online (snd run1) in
   fst run1 = Ok (PyStr url) /\ fst run2 = Ok (PyStr url) /\
   requests (snd run1) = [search_request m c; HEAD url] /\
   requests (snd run2) = requests (snd run1) /\
   ~ (length (requests (snd run2)) <= 1)%nat) /\
  (let run1 := get_image __init__ c 800 600 read_only empty_world in
   let run2 := get_image __init__ c 800 600 read_only (snd run1) in
   fst run1 = Ok (PyStr url) /\ fst run2 = Ok (PyStr url) /\
   requests (snd run1) = [HEAD url] /\
   requests (snd run2) = [HEAD url; HEAD url] /\
   ~ (length (requests (snd run2)) <= 1)%nat).
Proof.
  intros c url. split.
  - intros m run1 run2.
    assert (R : requests (snd run2) = [search_request m c; HEAD url])
      by (vm_compute; reflexivity).
    split; [vm_compute; reflexivity |]. split; [vm_compute; reflexivity |].
    split; [vm_compute; reflexivity |]. split; [vm_compute; reflexivity |].
    rewrite R. cbn. lia.
  - intros run1 run2.
    assert (R : requests (snd run2) = [HEAD url; HEAD url])
      by (vm_compute; reflexivity).
    split; [vm_compute; reflexivity |]. split; [vm_compute; reflexivity |].
    split; [vm_compute; reflexivity |]. split; [exact R |].
    rewrite R. cbn. lia.
Qed.

(** ** The gallery (C8) *)

(** *** What a coroutine guarantees, whatever runs at its suspension points *)

Lemma guarantees_weaken {A} e I (c : M A) (Q Q' : result A -> Prop) :
  (forall r, Q r -> Q' r) -> guarantees e I c Q -> guarantees e I c Q'.
Proof.
  intros HQ. induction c as [r | X step k IH | c IH]; cbn; auto.
  intros H w Iw. destruct (H w Iw) as [Iw' Hk]. split; [exact Iw' | now apply IH].
Qed.

Lemma guarantees_bind {A B} e I (c : M A) (k : A -> M B) (Q : result B -> Prop) :
  guarantees e I c
    (fun r => match r with
              | Ok a => guarantees e I (k a) Q
              | Raise x => Q (Raise x)
              end) ->
  guarantees e I (bind c k) Q.
Proof.
  induction c as [[a | x] | X step k' IH | c IH]; cbn; auto.
  intros H w Iw. destruct (H w Iw) as [Iw' Hk]. split; [exact Iw' | now apply IH].
Qed.

Lemma guarantees_try_except {A} e I (body : M A) (handler : exn -> M A)
    (Q : result A -> Prop) :
  guarantees e I body
    (fun r => match r with
              | Ok a => Q (Ok a)
              | Raise x => guarantees e I (handler x) Q
              end) ->
  guarantees e I (try_except body handler) Q.
Proof.
  induction body as [[a | x] | X step k' IH | c IH]; cbn; auto.
  intros H w Iw. destruct (H w Iw) as [Iw' Hk]. split; [exact Iw' | now apply IH].
Qed.

Lemma guarantees_perform {A} e (I : world -> Prop)
    (step : env -> world -> result A * world) (Q : result A -> Prop) :
  (forall w, I w -> I (snd (step e w)) /\ Q (fst (step e w))) ->
  guarantees e I (perform step) Q.
Proof. intros H. exact H. Qed.

Lemma guarantees_async_exit {A} e I (block : M A) (Q : result A -> Prop) :
  guarantees e I block Q -> guarantees e I (async_exit block) Q.
Proof.
  intros H. unfold async_exit. apply guarantees_try_except, guarantees_bind.
  eapply guarantees_weaken; [| exact H]. intros [a | x] Hr; exact Hr.
Qed.

Lemma guarantees_trivial {A} e (c : M A) :
  guarantees e (fun _ => True) c (fun _ => True).
Proof. induction c; cbn; auto. Qed.

(** *** The event loop keeps what the tasks guarantee *)

Lemma advance_guarantees {A} e I (c : M A) (Q : result A -> Prop) w :
  guarantees e I c Q -> I w ->
  guarantees e I (fst (advance c e w)) Q /\ I (snd (advance c e w)).
Proof.
  revert w. induction c as [r | X step k IH | c IH]; intros w H Iw; cbn in *; auto.
  destruct (H w Iw) as [Iw' Hk]. destruct (step e w) as [x w']. now apply IH.
Qed.

Lemma await_guarantees {A} e I (c : M A) (Q : result A -> Prop) w :
  guarantees e I c Q -> I w -> Q (fst (c e w)) /\ I (snd (c e w)).
Proof.
  revert w. induction c as [r | X step k IH | c IH]; intros w H Iw; cbn in *; auto.
  destruct (H w Iw) as [Iw' Hk]. destruct (step e w) as [x w']. now apply IH.
Qed.

Lemma resume_guarantees {A} e I (i : nat) (tasks : list (M A))
    (Qs : list (result A -> Prop)) w :
  Forall2 (guarantees e I) tasks Qs -> I w ->
  Forall2 (guarantees e I) (fst (resume i tasks e w)) Qs /\ I (snd (resume i tasks e w)).
Proof.
  intros H Iw. unfold resume.
  destruct (tasks !! i) as [c |] eqn:Hc; [| auto].
  destruct (Forall2_lookup_l _ _ _ _ _ H Hc) as (Q & HQ & Hg).
  destruct (advance_guarantees e I c Q w Hg Iw) as [Hg' Iw'].
  destruct (advance c e w) as [c' w']. cbn [fst snd] in *. split; [| exact Iw'].
  rewrite <- (list_insert_id Qs i Q HQ). now apply Forall2_insert.
Qed.

Lemma event_loop_guarantees {A} e I (turns : list nat) (tasks : list (M A))
    (Qs : list (result A -> Prop)) w :
  Forall2 (guarantees e I) tasks Qs -> I w ->
  Forall2 (guarantees e I) (fst (event_loop turns tasks e w)) Qs /\
  I (snd (event_loop turns tasks e w)).
Proof.
  revert tasks w. induction turns as [| i turns IH]; intros tasks w H Iw; cbn; auto.
  destruct (resume_guarantees e I (i mod length tasks) tasks Qs w H Iw) as [H' Iw'].
  destruct (resume (i mod length tasks) tasks e w) as [tasks' w']. now apply IH.
Qed.

Lemma complete_guarantees {A} e I (tasks : list (M A))
    (Qs : list (result A -> Prop)) w :
  Forall2 (guarantees e I) tasks Qs -> I w ->
  Forall2 (fun r (Q : result A -> Prop) => Q r) (fst (complete tasks e w)) Qs /\
  I (snd (complete tasks e w)).
Proof.
  intros H. revert w. induction H as [| c Q tasks Qs Hc _ IH]; intros w Iw; cbn.
  - split; [constructor | exact Iw].
  - destruct (await_guarantees e I c Q w Hc Iw) as [Hr Iw1].
    destruct (c e w) as [r w1]. cbn [fst snd] in *.
    destruct (IH w1 Iw1) as [Hrs Iw2].
    destruct (complete tasks e w1) as [rs w2]. cbn [fst snd] in *.
    split; [now constructor | exact Iw2].
Qed.

(** [gather] never raises, and what each task guarantees holds of its
    result. *)
Lemma gather_guarantees {A} e I (tasks : list (M A))
    (Qs : list (result A -> Prop)) w :
  Forall2 (guarantees e I) tasks Qs -> I w ->
  exists results w',
    gather tasks e w = (Ok results, w') /\
    Forall2 (fun r (Q : result A -> Prop) => Q r) results Qs /\ I w'.
Proof.
  intros H Iw. unfold gather. rewrite await_perform.
  destruct (event_loop_guarantees e I (schedule e (steps w)) tasks Qs w H Iw)
    as [H1 Iw1].
  destruct (event_loop (schedule e (steps w)) tasks e w) as [tasks' w1].
  cbn [fst snd] in *.
  destruct (complete_guarantees e I tasks' Qs w1 H1 Iw1) as [H2 Iw2].
  destruct (complete tasks' e w1) as [results w2]. cbn [fst snd] in *. eauto.
Qed.

Lemma gather_returns {A} (tasks : list (M A)) e w :
  exists results w',
    gather tasks e w = (Ok results, w') /\ length results = length tasks.
Proof.
  destruct (gather_guarantees e (fun _ => True) tasks
              (map (fun _ _ => True) tasks) w) as (results & w' & E & H & _).
  - clear. induction tasks; cbn; constructor; auto using guarantees_trivial.
  - exact I.
  - exists results, w'. split; [exact E |].
    apply Forall2_length in H. now rewrite length_map in H.
Qed.

(** *** What the tasks of a batch guarantee *)

Lemma cache_path_inj m k k' : cache_path m k = cache_path m k' -> k = k'.
Proof.
  unfold cache_path. intros H.
  apply app_inv_head in H. apply app_inv_head in H.
  now apply app_inv_tail in H.
Qed.

Section Batch.

Variable m : manager.
Variable e : env.
Variable w0 : world.
Variable categories : list pystr.
Variables width height : Z.

(** The cache directory while the batch runs. *)
Local Abbreviation I := (batch_files m e w0 categories width height).

Lemma batch_files_start : I w0.
Proof. intros path f Hf. now left. Qed.

Lemma batch_files_frame w w' : files w' = files w -> I w -> I w'.
Proof. intros F Iw path f Hf. apply Iw. now rewrite <- F. Qed.

Lemma guarantees_log {A} x (c : M A) (Q : result A -> Prop) :
  guarantees e I c Q -> guarantees e I (logger_error x;;; c) Q.
Proof.
  intros H. apply guarantees_bind, guarantees_perform. intros w Iw.
  split; [now apply (batch_files_frame w) | exact H].
Qed.

Lemma guarantees_send {B} r (k : Z * body -> M B) (Q : result B -> Prop) :
  (forall n x, http e n r = Fails x -> Q (Raise x)) ->
  (forall n status data,
     http e n r = Response status data -> guarantees e I (k (status, data)) Q) ->
  guarantees e I (response <- send r;; k response) Q.
Proof.
  intros Hx Hk. apply guarantees_bind. unfold send.
  apply guarantees_bind, guarantees_perform. intros w Iw.
  split; [now apply (batch_files_frame w) |]. cbn.
  destruct (http e (steps w) r) as [x | status data] eqn:E; cbn; eauto.
Qed.

Lemma get_cached_image_guarantees k :
  guarantees e I (_get_cached_image m k)
    (fun r =>
       exists v, r = Ok v /\
         (truth v = true ->
          (exists ts,
             files w0 !! cache_path m k = Some (CacheData (Some v) (Some ts))) \/
          (exists c url,
             v = PyStr url /\ c ∈ categories /\
             _generate_cache_key c width height = Ok k /\
             answered_url m e c width height url))).
Proof.
  assert (Hnone : forall x,
            guarantees e I (logger_error x;;; ret PyNone)
              (fun r => exists v, r = Ok v /\
                 (truth v = true ->
                  (exists ts,
                     files w0 !! cache_path m k = Some (CacheData (Some v) (Some ts))) \/
                  (exists c url,
                     v = PyStr url /\ c ∈ categories /\
                     _generate_cache_key c width height = Ok k /\
                     answered_url m e c width height url)))).
  { intros x. apply guarantees_log. cbn. exists PyNone. split; [reflexivity | discriminate]. }
  unfold _get_cached_image. apply guarantees_try_except, guarantees_bind.
  apply guarantees_perform. intros w Iw. split; [exact Iw |]. cbn [fst].
  destruct (bool_decide (is_Some (files w !! cache_path m k)));
    [| cbn; exists PyNone; split; [reflexivity | discriminate]].
  apply guarantees_bind, guarantees_perform. clear w Iw. intros w Iw.
  destruct (files w !! cache_path m k) as [[| url ts] |] eqn:Hf; cbn [fst snd];
    (split; [exact Iw |]); try apply Hnone.
  apply guarantees_bind. destruct ts as [ts |]; cbn [snd getitem]; [| apply Hnone].
  cbn [guarantees ret]. apply guarantees_bind, guarantees_perform.
  intros w1 Iw1. split; [now apply (batch_files_frame w1) |]. cbn [fst].
  destruct (_ <? _)%Z; [| cbn; exists PyNone; split; [reflexivity | discriminate]].
  destruct url as [v |]; cbn [fst getitem]; [| apply Hnone].
  cbn. exists v. split; [reflexivity |]. intros _.
  destruct (Iw _ _ Hf) as [H0 | (c & k' & Hc & Hk & Hp & [[=] | (u & ts' & Hu & [= -> _])])].
  - left. eauto.
  - right. apply cache_path_inj in Hp as <-. eauto 6.
Qed.

Lemma fetch_from_unsplash_guarantees c :
  guarantees e I (_fetch_from_unsplash m c width height)
    (fun r =>
       exists o, r = Ok o /\
         forall url, o = Some url ->
           key_missing m = false /\
           exists n raw rest,
             http e n (search_request m c) =
               Response 200 (Results (Photo raw :: rest)) /\
             url = composed_url raw width height).
Proof.
  assert (Hnone : forall x,
            guarantees e I (logger_error x;;; ret None)
              (fun r => exists o, r = Ok o /\
                 forall url, o = Some url ->
                   key_missing m = false /\
                   exists n raw rest,
                     http e n (search_request m c) =
                       Response 200 (Results (Photo raw :: rest)) /\
                     url = composed_url raw width height)).
  { intros x. apply guarantees_log. cbn. exists None. split; [reflexivity | discriminate]. }
  unfold _fetch_from_unsplash. apply guarantees_try_except.
  destruct (key_missing m) eqn:Hm;
    [cbn; exists None; split; [reflexivity | discriminate] |].
  apply guarantees_async_exit, guarantees_send; [intros _ x _; apply Hnone |].
  intros n status data Hn. apply guarantees_async_exit. cbn [fst snd].
  destruct (Z.eqb_spec status 200) as [-> | _];
    [| cbn; exists None; split; [reflexivity | discriminate]].
  unfold json_results.
  destruct data as [| [| [| raw] rest]]; cbn; try apply Hnone;
    try (exists None; split; [reflexivity | discriminate]).
  rewrite fstring_sizes. destruct (renderable width && renderable height); cbn.
  - eexists. split; [reflexivity |]. intros url [= <-]. eauto 6.
  - apply Hnone.
Qed.

Lemma lorem_picsum_guarantees c {B} (k : pystr -> M B) (Q : result B -> Prop) :
  renderable width && renderable height = true ->
  guarantees e I (k (picsum_url (py_hash e) c width height)) Q ->
  guarantees e I (url <- lorem_picsum c width height;; k url) Q.
Proof.
  intros R H. apply guarantees_bind, guarantees_perform. intros w Iw.
  split; [exact Iw |]. cbn [fst]. now rewrite fstring_picsum, R.
Qed.

Lemma fetch_fallback_image_guarantees c :
  renderable width && renderable height = true ->
  guarantees e I (_fetch_fallback_image m c width height)
    (fun r =>
       exists url, r = Ok (Some url) /\ url <> [] /\
         ((redirect_of m c width height = Some url /\
           exists n data, http e n (HEAD url) = Response 200 data) \/
          (url = picsum_url (py_hash e) c width height /\
           forall checked,
             redirect_of m c width height = Some checked ->
             exists n, forall data, http e n (HEAD checked) <> Response 200 data))).
Proof.
  intros R.
  assert (Hq : (forall checked,
                  redirect_of m c width height = Some checked ->
                  exists n, forall data, http e n (HEAD checked) <> Response 200 data) ->
               exists url,
                 Ok (Some (picsum_url (py_hash e) c width height)) = Ok (Some url) /\
                 url <> [] /\
                 ((redirect_of m c width height = Some url /\
                   exists n data, http e n (HEAD url) = Response 200 data) \/
                  (url = picsum_url (py_hash e) c width height /\
                   forall checked,
                     redirect_of m c width height = Some checked ->
                     exists n, forall data,
                       http e n (HEAD checked) <> Response 200 data))).
  { intros Hfail. eexists. split; [reflexivity |].
    split; [apply picsum_url_nonempty | now right]. }
  unfold _fetch_fallback_image, redirect_of in *. apply guarantees_try_except.
  apply guarantees_bind. revert Hq.
  destruct (keywords_for m c) as [| first rest]; intros Hq.
  { cbn [guarantees ret]. apply lorem_picsum_guarantees; [exact R |].
    cbn. apply Hq. discriminate. }
  cbn zeta. rewrite fstring_sizes, R. cbn [lift bind].
  apply guarantees_async_exit, guarantees_send.
  - intros n x Hn. apply guarantees_log.
    apply lorem_picsum_guarantees; [exact R |]. cbn. apply Hq.
    intros checked [= <-]. exists n. intros data. rewrite Hn. discriminate.
  - intros n status data Hn. apply guarantees_async_exit. cbn [fst].
    destruct (Z.eqb_spec status 200) as [-> | Hs]; cbn [guarantees ret].
    + eexists. split; [reflexivity |].
      split; [apply redirect_url_nonempty | left; eauto].
    + apply lorem_picsum_guarantees; [exact R |]. cbn. apply Hq.
      intros checked [= <-]. exists n. intros data'. rewrite Hn. congruence.
Qed.

Lemma cache_image_url_guarantees c k url :
  c ∈ categories ->
  _generate_cache_key c width height = Ok k ->
  answered_url m e c width height url ->
  guarantees e I (_cache_image_url m k url) (fun r => r = Ok tt).
Proof.
  intros Hc Hk Hu. unfold _cache_image_url. apply guarantees_try_except.
  apply guarantees_bind, guarantees_perform. intros w Iw.
  split; [now apply (batch_files_frame w) |]. cbn [fst guarantees].
  apply guarantees_perform. intros w' Iw'.
  assert (Hput : forall f,
            written_by_batch m e categories width height (cache_path m k) f ->
            I (World (<[cache_path m k := f]> (files w')) (S (steps w'))
                 (requests w') (errors w'))).
  { intros f Hf path f' Hl. cbn [files] in Hl.
    destruct (decide (cache_path m k = path)) as [<- | Hne].
    - rewrite lookup_insert_eq in Hl. injection Hl as <-. now right.
    - rewrite lookup_insert_ne in Hl by exact Hne. now apply Iw'. }
  destruct (disk_write e (steps w') (cache_path m k)); cbn [fst snd].
  - split; [| reflexivity]. apply Hput. exists c, k. eauto 8.
  - split; [now apply (batch_files_frame w') |].
    apply guarantees_perform. intros w1 Iw1.
    split; [now apply (batch_files_frame w1) | reflexivity].
  - split; [apply Hput; exists c, k; auto |].
    apply guarantees_perform. intros w1 Iw1.
    split; [now apply (batch_files_frame w1) | reflexivity].
Qed.

(** Whatever the other tasks of the batch do in between, the resolution
    of a category of the batch comes to what [resolution] says. *)
Lemma get_image_guarantees c :
  c ∈ categories ->
  guarantees e I (get_image m c width height)
    (resolution m e w0 categories width height c).
Proof.
  intros Hc. unfold get_image, resolution. apply guarantees_try_except.
  destruct (_generate_cache_key c width height) as [k | x] eqn:Hk; cbn [lift bind].
  2: { cbn [guarantees]. apply guarantees_log. unfold handler_result.
       destruct (_get_local_placeholder width height); reflexivity. }
  assert (R : renderable width && renderable height = true).
  { destruct (generate_cache_key_renderable _ _ _ _ Hk) as [-> ->]. reflexivity. }
  assert (Hstore : forall url,
            url <> [] -> answered_url m e c width height url ->
            guarantees e I
              (if truthy (Some url)
               then _cache_image_url m k (default [] (Some url));;;
                    ret (PyStr (default [] (Some url)))
               else placeholder <- lift (_get_local_placeholder width height);;
                    ret (PyStr placeholder))
              (fun r =>
                 match r with
                 | Ok a =>
                     (exists url0, Ok a = Ok (PyStr url0) /\
                        answered_url m e c width height url0) \/
                     (exists v ts, Ok a = Ok v /\ truth v = true /\
                        files w0 !! cache_path m k =
                          Some (CacheData (Some v) (Some ts))) \/
                     (exists c0 url0, Ok a = Ok (PyStr url0) /\ c0 ∈ categories /\
                        _generate_cache_key c0 width height = Ok k /\
                        answered_url m e c0 width height url0)
                 | Raise x =>
                     guarantees e I
                       (logger_error x;;;
                        placeholder <- lift (_get_local_placeholder width height);;
                        ret (PyStr placeholder))
                       (fun r0 =>
                          (exists url0, r0 = Ok (PyStr url0) /\
                             answered_url m e c width height url0) \/
                          (exists v ts, r0 = Ok v /\ truth v = true /\
                             files w0 !! cache_path m k =
                               Some (CacheData (Some v) (Some ts))) \/
                          (exists c0 url0, r0 = Ok (PyStr url0) /\ c0 ∈ categories /\
                             _generate_cache_key c0 width height = Ok k /\
                             answered_url m e c0 width height url0))
                 end)).
  { intros url Hne Hu. destruct url as [| ch url]; [congruence |].
    cbn [truthy default from_option id]. apply guarantees_bind.
    eapply guarantees_weaken; [| exact (cache_image_url_guarantees c k _ Hc Hk Hu)].
    intros r ->. cbn. left. eauto. }
  apply guarantees_bind.
  eapply guarantees_weaken; [| apply get_cached_image_guarantees].
  intros r (v & -> & Hv). destruct (truth v) eqn:Tv.
  { cbn. right. destruct (Hv eq_refl) as [(ts & Hf) | (c' & url & -> & Hc' & Hk' & Hu)].
    - left. eauto.
    - right. eauto 6. }
  apply guarantees_bind.
  eapply guarantees_weaken; [| apply fetch_from_unsplash_guarantees].
  intros r (o1 & -> & Ho1). apply guarantees_bind.
  destruct (truthy o1) eqn:To1.
  - destruct (truthy_true _ To1) as (url & -> & Hne). cbn [guarantees ret].
    apply Hstore; [exact Hne |]. left. now apply Ho1.
  - eapply guarantees_weaken; [| apply (fetch_fallback_image_guarantees c R)].
    intros r (url & -> & Hne & Hu). apply Hstore; [exact Hne |]. right. exact Hu.
Qed.

End Batch.

(** *** The filter of the gallery *)

Lemma select_images_sublist results :
  sublist (select_images results) (map image_of results).
Proof.
  unfold select_images.
  induction results as [| r results IH]; simpl; [constructor |].
  destruct (is_image r); simpl; now constructor.
Qed.

Lemma select_images_length results :
  (length (select_images results) <= length results)%nat.
Proof.
  rewrite <- (length_map image_of results).
  apply sublist_length, select_images_sublist.
Qed.

Lemma is_image_spec r :
  is_image r = true <-> exists img, r = Ok (PyStr img) /\ img <> [].
Proof.
  split.
  - destruct r as [[| | | | [| ch img] | |] | x]; try discriminate. eauto.
  - intros ([| ch img] & -> & Hne); [congruence | reflexivity].
Qed.

Lemma select_images_elem results img :
  img ∈ select_images results <-> img <> [] /\ Ok (PyStr img) ∈ results.
Proof.
  unfold select_images. rewrite list_elem_of_In, in_map_iff. split.
  - intros (r & <- & Hin). apply filter_In in Hin as [Hin Hr].
    apply is_image_spec in Hr as (i & -> & Hne).
    split; [exact Hne | now apply list_elem_of_In].
  - intros [Hne Hin]. exists (Ok (PyStr img)). split; [reflexivity |].
    apply filter_In. split; [now apply list_elem_of_In |].
    apply is_image_spec. eauto.
Qed.

Lemma select_images_all results :
  Forall (fun r => is_image r = true) results ->
  select_images results = map image_of results.
Proof.
  unfold select_images. induction 1 as [| r rs Hr _ IH]; simpl; [reflexivity |].
  rewrite Hr. simpl. now rewrite IH.
Qed.

(** *** The batch *)

Lemma Forall2_map_same {A B C} (R : B -> C -> Prop) (f : A -> B) (g : A -> C) l :
  (forall x, x ∈ l -> R (f x) (g x)) -> Forall2 R (map f l) (map g l).
Proof.
  induction l as [| a l IH]; intros H; simpl; constructor.
  - apply H. left.
  - apply IH. intros x Hx. apply H. now right.
Qed.

Lemma Forall2_map_left {A B} (Q : A -> B -> Prop) l rs :
  Forall2 (fun r (P : B -> Prop) => P r) rs (map Q l) -> Forall2 Q l rs.
Proof.
  revert rs. induction l as [| a l IH]; intros rs H; simpl in H.
  - apply Forall2_nil_inv_r in H as ->. constructor.
  - apply Forall2_cons_inv_r in H as (r & rs' & Hr & Hrs & ->).
    constructor; auto.
Qed.

Lemma provider_url_nonempty m e c width height url :
  provider_url m e c width height url -> url <> [].
Proof.
  intros [[_ [raw ->]] | [H | ->]];
    [apply composed_url_nonempty | | apply picsum_url_nonempty].
  unfold redirect_of in H. destruct (keywords_for m c); [discriminate |].
  injection H as <-. apply redirect_url_nonempty.
Qed.

Lemma answered_url_provider m e c width height url :
  answered_url m e c width height url -> provider_url m e c width height url.
Proof.
  intros [(Hm & n & raw & rest & _ & ->) | [[H _] | [-> _]]].
  - left. eauto.
  - right. now left.
  - right. now right.
Qed.

Lemma answered_url_nonempty m e c width height url :
  answered_url m e c width height url -> url <> [].
Proof. intros H. eapply provider_url_nonempty, answered_url_provider, H. Qed.

(** With a fingerprint and no record under it when the batch starts,
    the resolution of a category comes to a URL given by a provider, for
    that category or for one of the batch with the same fingerprint: it
    is not the placeholder. *)
Lemma resolution_uncached m e w categories width height c k r :
  _generate_cache_key c width height = Ok k ->
  files w !! cache_path m k = None ->
  resolution m e w categories width height c r ->
  exists c' url,
    r = Ok (PyStr url) /\
    _generate_cache_key c' width height = Ok k /\
    answered_url m e c' width height url /\
    url <> [] /\ url <> placeholder_reference width height.
Proof.
  intros Hk Hf. unfold resolution. rewrite Hk.
  intros [(url & -> & Hu) | [(v & ts & _ & _ & Hv) | (c' & url & -> & _ & Hk' & Hu)]].
  - exists c, url. repeat split; trivial.
    + eapply answered_url_nonempty, Hu.
    + eapply provider_url_not_placeholder, answered_url_provider, Hu.
  - congruence.
  - exists c', url. repeat split; trivial.
    + eapply answered_url_nonempty, Hu.
    + eapply provider_url_not_placeholder, answered_url_provider, Hu.
Qed.

(** The results gathered by [get_image_gallery]: one per category, each
    what the resolution of its category comes to. *)
Lemma get_image_gallery_results m categories width height e w :
  exists results w',
    gather (map (fun category => get_image m category width height) categories) e w =
      (Ok results, w') /\
    get_image_gallery m categories width height e w = (Ok (select_images results), w') /\
    Forall2 (resolution m e w categories width height) categories results.
Proof.
  destruct (gather_guarantees e (batch_files m e w categories width height)
              (map (fun category => get_image m category width height) categories)
              (map (resolution m e w categories width height) categories) w)
    as (results & w' & E & H & _).
  - apply Forall2_map_same. intros c Hc. now apply get_image_guarantees.
  - apply batch_files_start.
  - exists results, w'. split; [exact E |]. split.
    + unfold get_image_gallery. rewrite await_bind, E. reflexivity.
    + now apply Forall2_map_left.
Qed.

(** C8.  [get_image_gallery] never raises, whatever the resolutions do
    and in whatever order the event loop runs them.  It gathers the
    outcome of one resolution per category, in the order of the
    categories, and each outcome is what the resolution of its category
    comes to: what the handler gives, a provider URL of the category, or
    the value cached under its fingerprint.  What it returns is these
    outcomes in the same order, less those that are an exception or are
    not a non-empty string: so it is never longer than the list of
    categories, a placeholder among the outcomes is kept, and nothing is
    dropped when every outcome is a non-empty string. *)
Theorem gallery_keeps_every_resolved_image
    (m : manager) (categories : list pystr) (width height : Z) (e : env) (w : world) :
  exists results w',
    gather (map (fun category => get_image m category width height) categories) e w =
      (Ok results, w') /\
    get_image_gallery m categories width height e w = (Ok (select_images results), w') /\
    Forall2 (resolution m e w categories width height) categories results /\
    sublist (select_images results) (map image_of results) /\
    (length (select_images results) <= length categories)%nat /\
    (forall image,
       image ∈ select_images results <-> image <> [] /\ Ok (PyStr image) ∈ results) /\
    (forall placeholder,
       _get_local_placeholder width height = Ok placeholder ->
       Ok (PyStr placeholder) ∈ results -> placeholder ∈ select_images results) /\
    (Forall (fun r => exists image, r = Ok (PyStr image) /\ image <> []) results ->
     select_images results = map image_of results /\
     length (select_images results) = length categories).
Proof.
  destruct (get_image_gallery_results m categories width height e w)
    as (results & w' & E & G & H).
  exists results, w'. split; [exact E |]. split; [exact G |]. split; [exact H |].
  pose proof (Forall2_length _ _ _ H) as L.
  split; [apply select_images_sublist |].
  split; [rewrite L; apply select_images_length |].
  split; [apply select_images_elem |]. split.
  - intros p Hp Hin. apply select_images_elem. split; [| exact Hin].
    unfold _get_local_placeholder in Hp. apply fstring_Ok in Hp as [_ ->].
    apply placeholder_nonempty.
  - intros Hall.
    assert (Himg : Forall (fun r => is_image r = true) results).
    { eapply Forall_impl; [exact Hall |]. intros r Hr. now apply is_image_spec. }
    rewrite (select_images_all _ Himg). split; [reflexivity |].
    now rewrite length_map.
Qed.

Lemma gallery_keeps_every_resolved_image_witness :
  let categories := [lit "business-team"; [0xD800]; lit "workspace"] in
  exists results w',
    get_image_gallery __init__ categories 400 300 online empty_world =
      (Ok (select_images results), w') /\
    Forall2 (resolution __init__ online empty_world categories 400 300)
      categories results /\
    (length (select_images results) <= 3)%nat.
Proof.
  intros categories.
  destruct (gallery_keeps_every_resolved_image __init__ categories 400 300 online
              empty_world) as (results & w' & _ & G & H & _ & L & _).
  exists results, w'. auto.
Defined.

(** Two photographs and a placeholder: nothing is dropped. *)
Example gallery_with_placeholder :
  fst (get_image_gallery __init__ [lit "business-team"; [0xD800]; lit "workspace"]
         400 300 online empty_world) =
    Ok [lit "https://source.unsplash.com/400x300/?business";
        lit "/static/images/placeholder-400x300.svg";
        lit "https://source.unsplash.com/400x300/?workspace"].
Proof. vm_compute. reflexivity. Qed.

(** A number in the cache is returned by its resolution and dropped by
    the gallery: the image of the second category comes first. *)
Example gallery_drops_a_cached_number :
  fst (get_image_gallery __init__ [lit "business-team"; lit "workspace"]
         800 600 offline number_cached) =
    Ok [lit "https://picsum.photos/800/600?random=0"].
Proof. vm_compute. reflexivity. Qed.

(** The same category twice.  When the event loop starts the second task
    while the first one waits for its answer, both miss the cache and
    both send the request; when the first task has finished before the
    second one starts, the second one finds the record in the cache. *)
Example repeated_category_interleaved :
  let gallery turns :=
    get_image_gallery __init__ [lit "workspace"; lit "workspace"] 400 300
      (with_schedule turns online) empty_world in
  let check := HEAD (lit "https://source.unsplash.com/400x300/?workspace") in
  requests (snd (gallery [0; 1]%nat)) = [check; check] /\
  requests (snd (gallery [])) = [check] /\
  fst (gallery [0; 1]%nat) = fst (gallery []).
Proof. vm_compute. auto. Qed.

(** Exceptions and empty values are dropped, the order is kept. *)
Example select_images_drops_exceptions :
  select_images
    [Ok (PyStr (lit "a")); Raise TimeoutError; Ok (PyStr []); Ok (PyInt 7);
     Ok (PyStr (lit "b"))] =
    [lit "a"; lit "b"].
Proof. reflexivity. Qed.

(** * Further properties of the asset manager *)

(** ** Writing a record and reading it back *)



(** ** What a call leaves alone *)

Lemma cache_image_url_other_files m k url e w path :
  path <> cache_path m k ->
  files (snd (_cache_image_url m k url e w)) !! path = files w !! path.
Proof.
  intros Hne. rewrite cache_image_url_run. cbv zeta.
  destruct (disk_write e (S (steps w)) _); cbn; trivial;
    now rewrite lookup_insert_ne.
Qed.

Lemma cache_image_url_keeps_files m k url e w path :
  is_Some (files w !! path) ->
  is_Some (files (snd (_cache_image_url m k url e w)) !! path).
Proof.
  intros Hs. rewrite cache_image_url_run. cbv zeta.
  destruct (disk_write e (S (steps w)) _); cbn; trivial;
    (destruct (decide (cache_path m k = path)) as [-> | Hne];
     [rewrite lookup_insert_eq; eauto | now rewrite lookup_insert_ne]).
Qed.

(** The files after a call: those before it, except for the record of the
    fingerprint. *)
Lemma get_image_files m c width height e w :
  (exists x, _generate_cache_key c width height = Raise x /\
             files (snd (get_image m c width height e w)) = files w) \/
  (exists k, _generate_cache_key c width height = Ok k /\
     (files (snd (get_image m c width height e w)) = files w \/
      exists url w0,
        files w0 = files w /\
        snd (get_image m c width height e w) = snd (_cache_image_url m k url e w0))).
Proof.
  destruct (get_image_paths m c width height e w)
    as [(x & Hk & E) | (k & v & w1 & Hk & E1 &
          [(Hv & E) | (Hv & o1 & w2 & E2 &
            [(url & -> & Hne & E) | (To1 & url & w3 & E3 & Hne & E)])])];
    rewrite E; cbn [snd].
  - left. eauto.
  - right. exists k. split; trivial. left.
    destruct (get_cached_image_returns m k e w) as (? & ? & E1' & F & _).
    rewrite E1 in E1'. injection E1' as <- <-. exact F.
  - right. exists k. split; trivial. right. exists url, w2. split; trivial.
    destruct (get_cached_image_returns m k e w) as (? & ? & E1' & F & _).
    rewrite E1 in E1'. injection E1' as <- <-.
    destruct (fetch_from_unsplash_returns m c width height e w1) as (? & ? & E2' & F2).
    rewrite E2 in E2'. injection E2' as <- <-. congruence.
  - right. exists k. split; trivial. right. exists url, w3. split; trivial.
    destruct (get_cached_image_returns m k e w) as (? & ? & E1' & F & _).
    rewrite E1 in E1'. injection E1' as <- <-.
    destruct (fetch_from_unsplash_returns m c width height e w1) as (? & ? & E2' & F2).
    rewrite E2 in E2'. injection E2' as <- <-.
    destruct (generate_cache_key_renderable _ _ _ _ Hk) as [Rw Rh].
    destruct (fetch_fallback_image_returns m c width height e w2 Rw Rh)
      as (? & ? & E3' & _ & F3).
    rewrite E3 in E3'. injection E3' as <- <-. congruence.
Qed.

(** X2.  A call of [get_image] never removes a cache file and changes at
    most one: the record of its own fingerprint.  The record of any other
    fingerprint, hence of any other triple unless MD5 collides, is as it
    was; and when the fingerprint cannot be computed the cache directory
    is unchanged. *)
Theorem get_image_touches_only_its_record
    (m : manager) (c : pystr) (width height : Z) (e : env) (w : world) :
  let w' := snd (get_image m c width height e w) in
  (forall path, is_Some (files w !! path) -> is_Some (files w' !! path)) /\
  (forall k path,
     _generate_cache_key c width height = Ok k ->
     path <> cache_path m k -> files w' !! path = files w !! path) /\
  (forall k c2 width2 height2 k2,
     _generate_cache_key c width height = Ok k ->
     _generate_cache_key c2 width2 height2 = Ok k2 ->
     k2 <> k ->
     files w' !! cache_path m k2 = files w !! cache_path m k2) /\
  (forall x, _generate_cache_key c width height = Raise x -> files w' = files w).
Proof.
  intros w'. unfold w'.
  destruct (get_image_files m c width height e w)
    as [(x & Hk & F) | (k & Hk & [F | (url & w0 & F0 & ->)])].
  - rewrite F. repeat split; trivial; congruence.
  - rewrite F. repeat split; trivial.
  - repeat split.
    + intros path Hs. apply cache_image_url_keeps_files. now rewrite F0.
    + intros k' path Hk' Hne. assert (k' = k) as -> by congruence.
      rewrite cache_image_url_other_files by trivial. now rewrite F0.
    + intros k' c2 width2 height2 k2 Hk' _ Hne. assert (k' = k) as -> by congruence.
      rewrite cache_image_url_other_files; [now rewrite F0 |].
      intros Hp. apply cache_path_inj in Hp. contradiction.
    + intros x Hx. congruence.
Qed.

Lemma get_image_touches_only_its_record_witness :
  let hero := lit "6d26caf2e04fedc3a9d9ffdc3704a5b2" in
  let w0 := snd (get_image __init__ (lit "business-team") 1920 1080 online empty_world) in
  let w' := snd (get_image __init__ (lit "workspace") 400 300 online w0) in
  is_Some (files w' !! cache_path __init__ hero) /\
  files w' !! cache_path __init__ hero = files w0 !! cache_path __init__ hero.
Proof.
  intros hero w0 w'.
  destruct (get_image_touches_only_its_record __init__ (lit "workspace") 400 300
              online w0) as (Hkeep & _ & Hother & _).
  split.
  - apply Hkeep. vm_compute. eauto.
  - apply (Hother (lit "b08ad2586d4c31fc025f0fdbaec56da1")
             (lit "business-team") 1920%Z 1080%Z hero).
    + vm_compute. reflexivity.
    + vm_compute. reflexivity.
    + intros H. apply (f_equal (fun l => hd 0 l)) in H. vm_compute in H. discriminate.
Defined.

(** ** The requests of a call *)

Lemma fetch_fallback_image_added m c width height e w :
  exists added,
    requests (snd (_fetch_fallback_image m c width height e w)) = requests w ++ added /\
    (added = [] \/
     exists url, redirect_of m c width height = Some url /\ added = [HEAD url]).
Proof.
  rewrite fetch_fallback_image_run.
  destruct (renderable width && renderable height).
  2: { exists []. cbn. rewrite app_nil_r. auto. }
  cbv zeta. destruct (redirect_of m c width height) as [url |].
  - exists [HEAD url]. split; [| right; eauto].
    destruct (http e (steps w) (HEAD url)) as [x | status data];
      [| destruct (status =? 200)%Z]; reflexivity.
  - exists []. cbn. rewrite app_nil_r. auto.
Qed.

(** The requests added by [get_image]: nothing, the search, the check of
    the redirect URL, or the search followed by the check. *)
Lemma get_image_added m c width height e w :
  exists added,
    requests (snd (get_image m c width height e w)) = requests w ++ added /\
    Forall (fun r =>
              (key_missing m = false /\ r = search_request m c) \/
              (exists url, redirect_of m c width height = Some url /\ r = HEAD url))
           added.
Proof.
  destruct (get_image_paths m c width height e w)
    as [(x & Hk & E) | (k & v & w1 & Hk & E1 &
          [(Hv & E) | (Hv & o1 & w2 & E2 &
            [(url & -> & Hne & E) | (To1 & url & w3 & E3 & Hne & E)])])];
    rewrite E; cbn [snd];
    try (destruct (get_cached_image_returns m k e w) as (? & ? & E1' & _ & R);
         rewrite E1 in E1'; injection E1' as <- <-).
  - exists []. cbn. now rewrite app_nil_r.
  - exists []. now rewrite app_nil_r.
  - rewrite cache_image_url_requests.
    apply fetch_from_unsplash_requests in E2 as [[Hm ->] | [Hm ->]]; rewrite R.
    + exists []. now rewrite app_nil_r.
    + eexists. split; [reflexivity |]. constructor; [auto | constructor].
  - rewrite cache_image_url_requests.
    destruct (fetch_fallback_image_added m c width height e w2) as (added & Ra & Ha).
    rewrite E3 in Ra. cbn [snd] in Ra. rewrite Ra.
    assert (Hadd : Forall (fun r =>
              (key_missing m = false /\ r = search_request m c) \/
              (exists url, redirect_of m c width height = Some url /\ r = HEAD url))
              added).
    { destruct Ha as [-> | (u & Hu & ->)];
        [constructor | constructor; [right; eauto | constructor]]. }
    apply fetch_from_unsplash_requests in E2 as [[Hm ->] | [Hm ->]]; rewrite R.
    + exists added. auto.
    + exists (search_request m c :: added). rewrite <- app_assoc.
      split; [reflexivity |]. constructor; auto.
Qed.

(** X3.  The only requests [get_image] sends are the search of provider
    1 (with a credential) and the existence check of provider 2's URL.
    The random-image URL and the placeholder are never requested: when
    [get_image] returns one of them, it has not checked it. *)
Theorem get_image_never_checks_picsum
    (key : option pystr) (c : pystr) (width height : Z) (e : env) (w : world) :
  let m := with_key key __init__ in
  exists added,
    requests (snd (get_image m c width height e w)) = requests w ++ added /\
    Forall (fun r =>
              (key_missing m = false /\ r = search_request m c) \/
              (exists url, redirect_of m c width height = Some url /\ r = HEAD url))
           added /\
    Forall (fun r =>
              request_url r <> picsum_url (py_hash e) c width height /\
              request_url r <> placeholder_reference width height)
           added.
Proof.
  intros m.
  destruct (get_image_added m c width height e w) as (added & R & Hadd).
  exists added. split; [exact R | split; [exact Hadd |]].
  eapply Forall_impl; [exact Hadd |]. cbv beta.
  intros r [[_ ->] | (url & Hu & ->)]; cbn [request_url].
  - split; discriminate.
  - unfold redirect_of in Hu.
    destruct (keywords_for m c) as [| first rest]; [discriminate |].
    injection Hu as <-. split; discriminate.
Qed.

(** ** The search provider, outcome by outcome *)

(** X4.  The search provider never raises and never touches the cache.
    It sends its one request exactly when a credential is configured, and
    it returns a URL exactly when the answer has status 200 and a first
    result carrying a raw URL, and the width and the height have at most
    4300 digits: the URL composed from that first result, whatever the
    other results are.  With a longer width or height it returns nothing,
    whatever the answer. *)
Theorem search_provider_outcomes
    (m : manager) (c : pystr) (width height : Z) (e : env) (w : world) :
  let run := _fetch_from_unsplash m c width height e w in
  (exists o w', run = (Ok o, w')) /\
  files (snd run) = files w /\
  requests (snd run) =
    requests w ++ (if key_missing m then [] else [search_request m c]) /\
  (forall url,
     fst run = Ok (Some url) <->
     key_missing m = false /\
     renderable width && renderable height = true /\
     exists raw rest,
       http e (steps w) (search_request m c) = Response 200 (Results (Photo raw :: rest)) /\
       url = composed_url raw width height) /\
  (renderable width && renderable height = false -> fst run = Ok None).
Proof.
  intros run. unfold run.
  destruct (fetch_from_unsplash_returns m c width height e w) as (o & w' & E & F).
  pose proof (fetch_from_unsplash_requests _ _ _ _ _ _ _ _ E) as R.
  split; [eauto | split; [now rewrite E | split; [| split]]].
  - rewrite E. cbn [snd]. destruct R as [[-> ->] | [-> ->]];
      [now rewrite app_nil_r | reflexivity].
  - intros url. rewrite fetch_from_unsplash_run.
    destruct (key_missing m); [split; [discriminate | intros [[=] _]] |].
    cbv zeta.
    destruct (http e (steps w) (search_request m c)) as [x | status data].
    { split; [discriminate | intros (_ & _ & raw & rest & [=] & _)]. }
    destruct (Z.eqb_spec status 200) as [-> | Hs].
    2: { split; [discriminate | intros (_ & _ & raw & rest & [= ? _] & _); congruence]. }
    destruct data as [| [| [| raw] rest]]; cbn [fst];
      try (split; [discriminate | intros (_ & _ & raw' & rest' & [=] & Hu)]).
    destruct (renderable width && renderable height); cbn [fst].
    + split.
      * intros [= <-]. eauto 7.
      * intros (_ & _ & raw' & rest' & [= <- <-] & ->). reflexivity.
    + split; [discriminate | intros (_ & [=] & _)].
  - intros Hr. rewrite fetch_from_unsplash_run, Hr.
    destruct (key_missing m); [reflexivity |]. cbv zeta.
    destruct (http e (steps w) (search_request m c)) as [x | status data];
      [reflexivity |].
    destruct (status =? 200)%Z; [| reflexivity].
    destruct data as [| [| [| raw] rest]]; reflexivity.
Qed.

Lemma search_provider_outcomes_witness :
  let m := with_key (Some (lit "real-key")) __init__ in
  let e :=
    Env (fun _ => 0%Z)
        (fun _ _ => Response 200 (Results [Photo (lit "https://img/raw"); PhotoNoRaw]))
        (fun _ _ => Written) (fun _ => 0%Z) (fun _ => []) in
  fst (_fetch_from_unsplash m (lit "workspace") 400 300 e empty_world) =
    Ok (Some (lit "https://img/raw&w=400&h=300&fit=crop&crop=center")) /\
  fst (_fetch_from_unsplash m (lit "workspace") huge 300 e empty_world) = Ok None.
Proof.
  intros m e. split.
  - apply (search_provider_outcomes m (lit "workspace") 400 300 e empty_world).
    split; [reflexivity |]. split; [reflexivity |].
    exists (lit "https://img/raw"), [PhotoNoRaw]. split; reflexivity.
  - apply (search_provider_outcomes m (lit "workspace") huge 300 e empty_world).
    now rewrite huge_unrenderable.
Defined.

(** ** When the fingerprint is defined *)

Ltac decide_comparisons :=
  repeat match goal with
         | |- context [?u <? ?v] =>
             (rewrite (proj2 (N.ltb_lt u v)) by lia)
             || (rewrite (proj2 (N.ltb_ge u v)) by lia)
         | |- context [?u <=? ?v] =>
             (rewrite (proj2 (N.leb_le u v)) by lia)
             || (rewrite (proj2 (N.leb_gt u v)) by lia)
         end.

Lemma encode_char_encodable c : is_Some (encode_char c) <-> encodable c = true.
Proof.
  unfold encode_char, encodable, is_surrogate.
  assert (Hc : c < 0x80 \/ 0x80 <= c < 0x800 \/ 0x800 <= c < 0xD800
               \/ 0xD800 <= c <= 0xDFFF \/ 0xDFFF < c < 0x10000
               \/ 0x10000 <= c < 0x110000 \/ 0x110000 <= c) by lia.
  destruct Hc as [Hc | [Hc | [Hc | [Hc | [Hc | [Hc | Hc]]]]]];
    decide_comparisons; cbn; split; intros HH;
    try discriminate; try (destruct HH; discriminate); eauto.
Qed.

Lemma encode_defined s :
  (exists data, encode s = Ok data) <-> Forall (fun c => encodable c = true) s.
Proof.
  induction s as [| c s IH]; simpl.
  - split; [constructor | eauto].
  - destruct (encode_char c) as [bs |] eqn:Ec.
    + assert (Hc : encodable c = true) by (apply encode_char_encodable; rewrite Ec; eauto).
      destruct (encode s) as [r | x].
      * split; [intros _; constructor; [exact Hc | apply IH; eauto] | eauto].
      * split.
        -- intros [data [=]].
        -- intros H. inversion H; subst.
           destruct (proj2 IH) as [data [=]]. assumption.
    + split; [intros [data [=]] |].
      intros H. inversion H as [| ? ? Hc _]; subst.
      apply encode_char_encodable in Hc. rewrite Ec in Hc. now destruct Hc.
Qed.

Lemma str_of_int_encodable z : Forall (fun c => encodable c = true) (str_of_int z).
Proof.
  eapply Forall_impl; [apply str_of_int_chars |].
  intros c [-> | [H1 H2]]; [reflexivity |].
  unfold encodable, is_surrogate.
  destruct (N.leb_spec 0xD800 c); [lia |]. cbn.
  apply N.ltb_lt. lia.
Qed.

Lemma key_string_encodable c width height :
  (exists data, encode (key_string c width height) = Ok data) <->
  Forall (fun ch => encodable ch = true) c.
Proof.
  rewrite encode_defined. unfold key_string. split.
  - intros H. now apply Forall_app in H as [H _].
  - intros Hc. repeat (apply Forall_app; split);
      auto using str_of_int_encodable; repeat constructor.
Qed.

(** X5.  The fingerprint is defined exactly when the category is made of
    encodable characters (no surrogate) and the width and the height have
    at most 4300 digits.  Within that limit of the sizes, for any other
    category [_generate_cache_key] raises [UnicodeEncodeError], and
    [get_image] then returns the placeholder after logging that error,
    without touching the cache or the network.  Beyond the limit
    [_generate_cache_key] raises [ValueError] whatever the category, and
    so does [get_image]. *)
Theorem fingerprint_defined_iff_encodable
    (m : manager) (c : pystr) (width height : Z) (e : env) (w : world) :
  ((exists k, _generate_cache_key c width height = Ok k) <->
   Forall (fun ch => encodable ch = true) c /\
   renderable width && renderable height = true) /\
  (renderable width && renderable height = true ->
   ~ Forall (fun ch => encodable ch = true) c ->
   _generate_cache_key c width height = Raise UnicodeEncodeError /\
   get_image m c width height e w =
     (Ok (PyStr (placeholder_reference width height)), logged UnicodeEncodeError w)) /\
  (renderable width && renderable height = false ->
   _generate_cache_key c width height = Raise ValueError /\
   get_image m c width height e w = (Raise ValueError, logged ValueError w)).
Proof.
  assert (Hiff : (exists k, _generate_cache_key c width height = Ok k) <->
                 Forall (fun ch => encodable ch = true) c /\
                 renderable width && renderable height = true).
  { split.
    - intros [k Hk].
      destruct (generate_cache_key_renderable _ _ _ _ Hk) as [-> ->].
      apply generate_cache_key_Ok in Hk as (data & Hd & _).
      split; [| reflexivity]. apply (key_string_encodable c width height). eauto.
    - intros [Hc Hr]. unfold _generate_cache_key. rewrite fstring_sizes, Hr.
      destruct (proj2 (key_string_encodable c width height) Hc) as [data ->]. eauto. }
  split; [exact Hiff |]. split.
  - intros Hr Hbad.
    assert (Hk : _generate_cache_key c width height = Raise UnicodeEncodeError).
    { destruct (_generate_cache_key c width height) as [k | x] eqn:E.
      - exfalso. apply Hbad. apply Hiff. eauto.
      - apply generate_cache_key_Raise in E as [[_ E] | [-> _]]; congruence. }
    split; [exact Hk | now apply get_image_unencodable].
  - intros Hr. split;
      [now apply generate_cache_key_unrenderable | now apply get_image_unrenderable].
Qed.

Lemma fingerprint_defined_iff_encodable_witness :
  (exists k, _generate_cache_key (lit "caf" ++ [0xE9; 0x1F600]) 800 600 = Ok k) /\
  get_image __init__ (lit "a" ++ [0xDFFF]) 800 600 online empty_world =
    (Ok (PyStr (placeholder_reference 800 600)), logged UnicodeEncodeError empty_world) /\
  get_image __init__ (lit "a") huge 600 online empty_world =
    (Raise ValueError, logged ValueError empty_world).
Proof.
  split; [| split].
  - apply (fingerprint_defined_iff_encodable __init__ (lit "caf" ++ [0xE9; 0x1F600])
             800 600 online empty_world).
    split; [repeat constructor | reflexivity].
  - apply (fingerprint_defined_iff_encodable __init__ (lit "a" ++ [0xDFFF])
             800 600 online empty_world); [reflexivity |].
    intros H. apply Forall_app in H as [_ H]. inversion H; subst. discriminate.
  - apply (fingerprint_defined_iff_encodable __init__ (lit "a") huge 600 online
             empty_world).
    now rewrite huge_unrenderable.
Defined.

(** ** The names of the placeholders *)

Lemma str_of_int_no_x z : ~ In 120 (str_of_int z).
Proof.
  intros Hin. pose proof (str_of_int_chars z) as H.
  rewrite List.Forall_forall in H. destruct (H _ Hin) as [? | ?]; lia.
Qed.

Lemma placeholder_reference_sizes width height width' height' :
  placeholder_reference width height = placeholder_reference width' height' ->
  width = width' /\ height = height'.
Proof.
  unfold placeholder_reference. intros H.
  apply app_inv_head in H.
  rewrite !(app_assoc (str_of_int _)), !(app_assoc (_ ++ lit "x")) in H.
  apply app_inv_tail in H.
  change (lit "x") with [120] in H. rewrite <- !app_assoc in H. cbn [app] in H.
  apply split_last_sep in H; try apply str_of_int_no_x.
  destruct H as [H1 H2]. apply str_of_int_inj in H1, H2. auto.
Qed.

(** X6.  Two sizes share a placeholder reference only when they are the
    same size: the text of the reference determines the width and the
    height, and so does a reference that [_get_local_placeholder]
    returns. *)
Theorem placeholder_reference_inj (width height width' height' : Z) :
  (placeholder_reference width height = placeholder_reference width' height' ->
   width = width' /\ height = height') /\
  (forall reference,
     _get_local_placeholder width height = Ok reference ->
     _get_local_placeholder width' height' = Ok reference ->
     width = width' /\ height = height').
Proof.
  split; [apply placeholder_reference_sizes |].
  unfold _get_local_placeholder. intros r H H'.
  apply fstring_Ok in H as [_ ->]. apply fstring_Ok in H' as [_ H'].
  now apply placeholder_reference_sizes.
Qed.

Lemma placeholder_reference_inj_witness :
  _get_local_placeholder 80 600 <> _get_local_placeholder 806 0.
Proof.
  intros H.
  destruct (placeholder_reference_inj 80 600 806 0) as [_ Hi].
  destruct (Hi (placeholder_reference 80 600) eq_refl) as [Hw _];
    [rewrite <- H; reflexivity | discriminate Hw].
Defined.

(** ** The placeholder graphic *)

Lemma string_of_uint_digits d :
  Forall (fun c => 48 <= c <= 57) (lit (NilEmpty.string_of_uint d)).
Proof. induction d; simpl; constructor; auto; cbn; lia. Qed.

Lemma str_of_int_sign z : hd 0 (str_of_int z) = 45 <-> (z < 0)%Z.
Proof.
  unfold str_of_int. destruct z as [| p | p]; simpl.
  - split; [discriminate | lia].
  - split; [| lia]. intros H.
    pose proof (string_of_uint_digits (Pos.to_uint p)) as D.
    assert (N := DecimalPos.Unsigned.to_uint_nonnil p).
    destruct (lit (NilEmpty.string_of_uint (Pos.to_uint p))) as [| c r] eqn:E.
    + destruct (Pos.to_uint p); try congruence; discriminate E.
    + inversion D; subst. cbn in H. lia.
  - split; [lia | reflexivity].
Qed.

(** X7.  [create_placeholder_svg] returns the graphic when the width,
    the height and both of them less 4 have at most 4300 digits, and
    raises [ValueError] otherwise.  The frame of the graphic is drawn 4
    units smaller than the graphic in each direction; its width (height)
    attribute is a negative number exactly when the width (height) is
    below 4. *)
Theorem placeholder_svg_frame (width height : Z) (text : pystr) :
  create_placeholder_svg width height text =
    (if forallb renderable [width; height; (width - 4)%Z; (height - 4)%Z]
     then Ok (placeholder_svg width height text) else Raise ValueError) /\
  (exists before after,
     placeholder_svg width height text =
       before ++ attr "width" (str_of_int (width - 4)) ++ lit " "
         ++ attr "height" (str_of_int (height - 4)) ++ after) /\
  (hd 0 (str_of_int (width - 4)) = 45 <-> (width < 4)%Z) /\
  (hd 0 (str_of_int (height - 4)) = 45 <-> (height < 4)%Z).
Proof.
  split; [reflexivity |].
  split; [| split; rewrite str_of_int_sign; lia].
  exists
    (newline
     ++ spaces 8 ++ lit "<svg " ++ attr "width" (str_of_int width) ++ lit " "
       ++ attr "height" (str_of_int height) ++ lit " "
       ++ attr "xmlns" (lit "http://www.w3.org/2000/svg") ++ lit ">" ++ newline
     ++ spaces 12 ++ lit "<rect " ++ attr "width" (lit "100%") ++ lit " "
       ++ attr "height" (lit "100%") ++ lit " " ++ attr "fill" (lit "#f8f9fa")
       ++ lit "/>" ++ newline
     ++ spaces 12 ++ lit "<rect " ++ attr "x" (lit "2") ++ lit " " ++ attr "y" (lit "2")
       ++ lit " ").
  exists
    (lit " " ++ attr "fill" (lit "none") ++ lit " " ++ attr "stroke" (lit "#dee2e6")
       ++ lit " " ++ attr "stroke-width" (lit "2") ++ lit "/>" ++ newline
     ++ spaces 12 ++ lit "<text " ++ attr "x" (lit "50%") ++ lit " " ++ attr "y" (lit "50%")
       ++ lit " " ++ attr "font-family" (lit "Arial, sans-serif") ++ lit " "
       ++ attr "font-size" (lit "16") ++ lit " " ++ attr "fill" (lit "#6c757d")
       ++ lit " " ++ attr "text-anchor" (lit "middle") ++ lit " "
       ++ attr "dy" (lit ".3em") ++ lit ">" ++ text ++ lit "</text>" ++ newline
     ++ spaces 8 ++ lit "</svg>" ++ newline
     ++ spaces 8).
  unfold placeholder_svg. now rewrite <- !app_assoc.
Qed.

Lemma placeholder_svg_frame_witness :
  hd 0 (str_of_int (3 - 4)) = 45 /\ hd 0 (str_of_int (800 - 4)) <> 45 /\
  create_placeholder_svg 800 600 default_text =
    Ok (placeholder_svg 800 600 default_text).
Proof.
  split; [| split].
  - apply (placeholder_svg_frame 3 3 default_text). lia.
  - intros H. apply (placeholder_svg_frame 800 600 default_text) in H. lia.
  - apply (placeholder_svg_frame 800 600 default_text).
Defined.

(** * The page handlers *)

Lemma strings_only_empty : strings_only empty_world.
Proof. intros path v ts H. cbn in H. now rewrite lookup_empty in H. Qed.

(** A call of [get_image] leaves a cache of strings a cache of strings. *)
Lemma get_image_strings_only m c width height e w :
  strings_only w -> strings_only (snd (get_image m c width height e w)).
Proof.
  intros Hs.
  assert (Hsame : forall w', files w' = files w -> strings_only w').
  { intros w' F path v ts H. rewrite F in H. eauto. }
  destruct (get_image_files m c width height e w)
    as [(x & _ & F) | (k & _ & [F | (url & w0 & F0 & ->)])]; auto.
  rewrite cache_image_url_run. cbv zeta.
  destruct (disk_write e (S (steps w0)) (cache_path m k)); cbn [snd];
    intros path v ts H; cbn in H; rewrite ?F0 in H; [| eauto |];
    (destruct (decide (cache_path m k = path)) as [<- | Hne];
     [rewrite lookup_insert_eq in H | rewrite lookup_insert_ne in H by trivial; eauto]).
  - injection H as <- _. eauto.
  - discriminate H.
Qed.

(** Over a cache of strings, and for sizes within the limit, what a
    resolution comes to is a non-empty string. *)
Lemma resolution_string m e w categories width height c r :
  renderable width && renderable height = true ->
  strings_only w ->
  resolution m e w categories width height c r ->
  exists image, r = Ok (PyStr image) /\ image <> [].
Proof.
  intros Hr Hs. unfold resolution.
  destruct (_generate_cache_key c width height) as [k | x].
  - intros [(url & -> & Hp) | [(v & ts & -> & Hv & Hf) | (c' & url & -> & _ & _ & Hp)]].
    + eauto using answered_url_nonempty.
    + destruct (Hs _ _ _ Hf) as [s ->]. apply truth_str in Hv. eauto.
    + eauto using answered_url_nonempty.
  - intros ->. rewrite handler_result_spec, Hr. eauto using placeholder_nonempty.
Qed.

(** Then the gallery drops nothing: image by image, it is the resolution
    of the categories. *)
Lemma get_image_gallery_aligned m categories width height e w :
  renderable width && renderable height = true ->
  strings_only w ->
  exists images w',
    get_image_gallery m categories width height e w = (Ok images, w') /\
    Forall2 (fun category image =>
               image <> [] /\
               resolution m e w categories width height category (Ok (PyStr image)))
            categories images.
Proof.
  intros Hr Hs.
  destruct (get_image_gallery_results m categories width height e w)
    as (results & w' & _ & G & H).
  exists (select_images results), w'. split; [exact G |].
  assert (Hall : Forall (fun r => is_image r = true) results).
  { apply Forall_forall. intros r Hin.
    apply list_elem_of_lookup in Hin as [i Hi].
    destruct (Forall2_lookup_r _ _ _ _ _ H Hi) as (c & _ & Hc).
    apply is_image_spec. eauto using resolution_string. }
  rewrite (select_images_all _ Hall). clear Hall G.
  pose proof (fun c r => resolution_string m e w categories width height c r Hr Hs)
    as Hstr.
  revert H Hstr. generalize (resolution m e w categories width height) as Q.
  intros Q H Hstr.
  induction H as [| c r cs rs Hc _ IH]; simpl; constructor; [| exact IH].
  destruct (Hstr _ _ Hc) as (image & -> & Hne). auto.
Qed.

Lemma image_at_lookup (images : list pystr) (i : nat) : image_at images i = images !! i.
Proof.
  unfold image_at. destruct (Nat.ltb_spec i (length images)); [reflexivity |].
  symmetry. now apply lookup_ge_None.
Qed.

(** X8.  When the cache holds strings only and the width and the height
    have at most 4300 digits, the list returned by [get_image_gallery]
    lines up with the categories: it is as long as the list of
    categories, and its i-th element is a non-empty image that the
    resolution of the i-th category has come to.  So the guarded accesses
    of the handlers, [images[i] if len(images) > i else None], give an
    image of the i-th category for every index below the number of
    categories and [None] only beyond. *)
Theorem gallery_index_guard
    (m : manager) (categories : list pystr) (width height : Z) (e : env) (w : world) :
  renderable width && renderable height = true ->
  strings_only w ->
  exists images w',
    get_image_gallery m categories width height e w = (Ok images, w') /\
    length images = length categories /\
    forall i,
      (image_at images i = None <-> (length categories <= i)%nat) /\
      (forall category,
         categories !! i = Some category ->
         exists image,
           image_at images i = Some image /\
           image <> [] /\
           resolution m e w categories width height category (Ok (PyStr image))).
Proof.
  intros Hr Hs.
  destruct (get_image_gallery_aligned m categories width height e w Hr Hs)
    as (images & w' & E & F).
  pose proof (Forall2_length _ _ _ F) as L.
  exists images, w'. split; [exact E |]. split; [now symmetry |].
  intros i. rewrite image_at_lookup. split.
  - rewrite lookup_ge_None. now rewrite L.
  - intros category Hc.
    destruct (Forall2_lookup_l _ _ _ _ _ F Hc) as (image & Hi & Hne & Hres). eauto.
Qed.

Lemma gallery_index_guard_witness :
  let categories := [lit "modern-office"; lit "team-meeting"; lit "workspace"] in
  exists images w',
    get_image_gallery __init__ categories 400 300 online empty_world = (Ok images, w') /\
    exists image,
      image_at images 2 = Some image /\
      image <> [] /\
      resolution __init__ online empty_world categories 400 300 (lit "workspace")
        (Ok (PyStr image)).
Proof.
  intros categories.
  destruct (gallery_index_guard __init__ categories 400 300 online empty_world
              eq_refl strings_only_empty) as (images & w' & E & _ & H).
  exists images, w'. split; [exact E |].
  apply (proj2 (H 2%nat)). reflexivity.
Defined.

(** X9.  Over a cache that holds strings only, the image part of
    [homepage] never raises and leaves no card without an image: the
    hero image is a non-empty string, and each of the three service
    cards carries a non-empty image.  As the handler indexes the gallery,
    the card "Digital Transformation" shows the image that the
    resolution of [business-strategy] has come to and the card "Business
    Strategy" the one of [digital-transformation]. *)
Theorem homepage_cards_have_images (m : manager) (e : env) (w : world) :
  strings_only w ->
  let services :=
    [lit "technology-consulting"; lit "business-strategy";
     lit "digital-transformation"] in
  exists hero first second third w1 w',
    get_image m (lit "business-team") 1920 1080 e w = (Ok (PyStr hero), w1) /\
    homepage_images m e w =
      (Ok (PyStr hero,
           [("Technology Consulting"%string, Some first);
            ("Digital Transformation"%string, Some second);
            ("Business Strategy"%string, Some third)]), w') /\
    hero <> [] /\ first <> [] /\ second <> [] /\ third <> [] /\
    resolution m e w1 services 400 300 (lit "technology-consulting") (Ok (PyStr first)) /\
    resolution m e w1 services 400 300 (lit "business-strategy") (Ok (PyStr second)) /\
    resolution m e w1 services 400 300 (lit "digital-transformation") (Ok (PyStr third)).
Proof.
  intros Hs services.
  destruct (get_image_returns m (lit "business-team") 1920 1080 e w eq_refl)
    as (v & w1 & E & Hv & Hsrc).
  assert (Hhero : exists hero, v = PyStr hero /\ hero <> []).
  { destruct Hsrc as [Hstr | (k & ts & _ & Hf & _)]; [exact Hstr |].
    destruct (Hs _ _ _ Hf) as [s ->]. apply truth_str in Hv. eauto. }
  destruct Hhero as (hero & -> & Hne).
  assert (Hs1 : strings_only w1).
  { pose proof (get_image_strings_only m (lit "business-team") 1920 1080 e w Hs) as H.
    now rewrite E in H. }
  destruct (get_image_gallery_aligned m services 400 300 e w1 eq_refl Hs1)
    as (images & w' & G & F).
  apply Forall2_cons_inv_l in F as (first & r1 & [N1 H1] & F & ->).
  apply Forall2_cons_inv_l in F as (second & r2 & [N2 H2] & F & ->).
  apply Forall2_cons_inv_l in F as (third & r3 & [N3 H3] & F & ->).
  apply Forall2_nil_inv_l in F as ->.
  exists hero, first, second, third, w1, w'.
  split; [exact E |]. split.
  - unfold homepage_images. rewrite await_bind, E.
    cbv beta iota. rewrite await_bind. fold services. rewrite G. reflexivity.
  - auto 10.
Qed.

Lemma homepage_cards_have_images_witness :
  exists hero cards w',
    homepage_images __init__ online empty_world = (Ok (PyStr hero, cards), w') /\
    hero <> [] /\
    Forall (fun card : string * option pystr => card.2 <> None) cards.
Proof.
  destruct (homepage_cards_have_images __init__ online empty_world strings_only_empty)
    as (hero & first & second & third & w1 & w' & _ & E & Hne & _).
  eexists hero, _, w'. split; [exact E |]. split; [exact Hne |].
  repeat constructor; discriminate.
Defined.

(** * The contact form *)

Section ContactFacts.
Import Contact.

Lemma lstrip_split s : exists l, s = l ++ lstrip s /\ blank l.
Proof.
  induction s as [| c s (l & E & B)]; simpl.
  - exists []. split; [reflexivity | constructor].
  - destruct (isspace c) eqn:Hc.
    + exists (c :: l). split; [simpl; congruence | now constructor].
    + exists []. split; [reflexivity | constructor].
Qed.

Lemma lstrip_head s c r : lstrip s = c :: r -> isspace c = false.
Proof.
  induction s as [| d s IH]; simpl; [discriminate |].
  destruct (isspace d) eqn:Hd; [exact IH |]. now intros [= <- _].
Qed.

Lemma lstrip_nil s : lstrip s = [] <-> blank s.
Proof.
  unfold blank. induction s as [| c s IH]; simpl.
  - split; [constructor | reflexivity].
  - destruct (isspace c) eqn:Hc.
    + rewrite IH. split; [now constructor | now inversion 1].
    + split; [discriminate | inversion 1; congruence].
Qed.

Lemma lstrip_fixed s : isspace (hd 0 s) = false \/ s = [] -> lstrip s = s.
Proof.
  destruct s as [| c s]; simpl; [reflexivity |].
  intros [-> | [=]]. reflexivity.
Qed.

Lemma blank_rev s : blank (rev s) <-> blank s.
Proof. unfold blank. split; intros H; [rewrite <- (rev_involutive s) |]; now apply Forall_rev. Qed.

Lemma rstrip_split s : exists r, s = rstrip s ++ r /\ blank r.
Proof.
  unfold rstrip. destruct (lstrip_split (rev s)) as (l & E & B).
  exists (rev l). split; [| now apply blank_rev].
  rewrite <- rev_app_distr, <- E. now rewrite rev_involutive.
Qed.

Lemma rstrip_last s c r : rev (rstrip s) = c :: r -> isspace c = false.
Proof. unfold rstrip. rewrite rev_involutive. apply lstrip_head. Qed.

(** The stripped string sits inside the original one, between two runs
    of white space. *)
Lemma strip_split s : exists l r, s = l ++ strip s ++ r /\ blank l /\ blank r.
Proof.
  unfold strip. destruct (lstrip_split s) as (l & E & B).
  destruct (rstrip_split (lstrip s)) as (r & E' & B').
  exists l, r. split; [| auto]. now rewrite <- E', <- E.
Qed.

Lemma strip_nil s : strip s = [] <-> blank s.
Proof.
  split.
  - intros H. destruct (strip_split s) as (l & r & E & Bl & Br).
    rewrite H in E. rewrite E. apply Forall_app. auto.
  - intros B. unfold strip. apply lstrip_nil in B. rewrite B. reflexivity.
Qed.

Lemma strip_head s c r : strip s = c :: r -> isspace c = false.
Proof.
  unfold strip. intros H.
  destruct (rstrip_split (lstrip s)) as (t & E & _). rewrite H in E.
  simpl in E. now apply lstrip_head in E.
Qed.

Lemma strip_last s c r : rev (strip s) = c :: r -> isspace c = false.
Proof. unfold strip. apply rstrip_last. Qed.

Lemma rstrip_fixed s c r : rev s = c :: r -> isspace c = false -> rstrip s = s.
Proof.
  intros E Hc. unfold rstrip. rewrite lstrip_fixed by (rewrite E; auto).
  apply rev_involutive.
Qed.

Lemma strip_idempotent s : strip (strip s) = strip s.
Proof.
  destruct (strip s) as [| c r] eqn:E; [reflexivity |].
  rewrite <- E. unfold strip at 1.
  rewrite lstrip_fixed by (rewrite E; left; exact (strip_head _ _ _ E)).
  destruct (rev (strip s)) as [| d t] eqn:Er.
  - apply (f_equal (@rev N)) in Er. rewrite rev_involutive in Er.
    rewrite Er in E. discriminate.
  - exact (rstrip_fixed _ _ _ Er (strip_last _ _ _ Er)).
Qed.

Lemma strip_length s : (length (strip s) <= length s)%nat.
Proof.
  destruct (strip_split s) as (l & r & E & _). rewrite E at 2.
  rewrite !length_app. lia.
Qed.

Lemma strip_ends s :
  strip s <> [] ->
  exists c d,
    head (strip s) = Some c /\ last (strip s) = Some d /\
    isspace c = false /\ isspace d = false.
Proof.
  intros Hne. destruct (strip s) as [| c t] eqn:E; [congruence |].
  destruct (rev (strip s)) as [| d u] eqn:Er.
  - apply (f_equal (@rev N)) in Er. rewrite rev_involutive in Er.
    simpl in Er. congruence.
  - exists c, d. split; [reflexivity |].
    pose proof (strip_last _ _ _ Er) as Hd.
    apply (f_equal (@rev N)) in Er. rewrite rev_involutive in Er.
    rewrite <- E, Er. simpl. rewrite last_snoc.
    split; [reflexivity |]. split; [| exact Hd].
    exact (strip_head _ _ _ E).
Qed.

(** What a validator that strips its value and refuses a blank one does. *)
Lemma stripping_validator (msg : string) (v : pystr) :
  let validate v :=
    match strip v with
    | [] => Rejected (ValueError msg)
    | stripped => Accepted stripped
    end in
  (blank v /\ validate v = Rejected (ValueError msg)) \/
  (~ blank v /\ validate v = Accepted (strip v) /\
   validate (strip v) = Accepted (strip v)).
Proof.
  intros validate. unfold validate. rewrite strip_idempotent.
  destruct (strip v) as [| c t] eqn:E.
  - left. split; [now apply strip_nil | reflexivity].
  - right. split; [| now rewrite <- E].
    intros B. apply strip_nil in B. congruence.
Qed.

Lemma truthy_nonblank (s : pystr) :
  truthy (Some s) && negb (bool_decide (strip s = [])) = true <-> ~ blank s.
Proof.
  rewrite <- strip_nil. destruct s as [| c s].
  - simpl. split; [discriminate | intros H; now contradiction H].
  - cbn [truthy andb]. rewrite negb_true_iff, bool_decide_eq_false. reflexivity.
Qed.

Section Fields.
Variable isdigit : N -> bool.
Variable email_validator : pystr -> option pystr.

Lemma validate_phone_cases (v : option pystr) :
  (validate_phone isdigit v = Rejected (ValueError "Phone number too short") /\
   exists s, v = Some s /\ ~ blank s /\ (length (digits isdigit s) < 7)%nat) \/
  (validate_phone isdigit v = Accepted v /\
   forall s, v = Some s -> blank s \/ (7 <= length (digits isdigit s))%nat).
Proof.
  unfold validate_phone. destruct v as [s |].
  - cbn [default from_option id].
    destruct (truthy (Some s) && negb (bool_decide (strip s = []))) eqn:Hs.
    + apply truthy_nonblank in Hs.
      destruct (Nat.ltb_spec (length (digits isdigit s)) 7).
      * left. split; [reflexivity |]. exists s. auto.
      * right. split; [reflexivity |]. intros ? [= <-]. auto.
    + right. split; [reflexivity |]. intros ? [= <-]. left.
      destruct (decide (strip s = [])) as [E | E]; [now apply strip_nil |].
      assert (Hn : ~ blank s) by (now rewrite <- strip_nil).
      apply truthy_nonblank in Hn. congruence.
  - right. split; [reflexivity | discriminate].
Qed.

Lemma stripped_field (lo hi : nat) (msg : string) (raw r : pystr) :
  and_then (constr_length (Some lo) (Some hi) raw)
    (fun v =>
       match strip v with
       | [] => Rejected (ValueError msg)
       | stripped => Accepted stripped
       end) = Accepted r <->
  (lo <= length raw <= hi)%nat /\ ~ blank raw /\ r = strip raw.
Proof.
  unfold constr_length, too_short, too_long. cbn [default from_option id].
  destruct (Nat.ltb_spec (length raw) lo);
    [cbn [and_then]; split; [discriminate | lia] |].
  destruct (Nat.ltb_spec hi (length raw));
    [cbn [and_then]; split; [discriminate | lia] |].
  cbn [and_then]. rewrite <- strip_nil.
  destruct (strip raw) as [| c t]; split.
  - discriminate.
  - intros (_ & Hn & _). now contradiction Hn.
  - intros [= <-]. repeat split; auto; discriminate.
  - intros (_ & _ & ->). reflexivity.
Qed.

Lemma name_field_spec (raw r : pystr) :
  name_field raw = Accepted r <->
  (2 <= length raw <= 100)%nat /\ ~ blank raw /\ r = strip raw.
Proof. apply stripped_field. Qed.

Lemma message_field_spec (raw r : pystr) :
  message_field raw = Accepted r <->
  (10 <= length raw <= 2000)%nat /\ ~ blank raw /\ r = strip raw.
Proof. apply stripped_field. Qed.

Lemma email_field_spec (raw r : pystr) :
  email_field email_validator raw = Accepted r <-> email_validator raw = Some r.
Proof.
  unfold email_field. destruct (email_validator raw); split; congruence.
Qed.

Lemma bounded_optional (hi : nat) (raw r : option pystr) :
  optional (constr_length None (Some hi)) raw = Accepted r <->
  r = raw /\ forall s, raw = Some s -> (length s <= hi)%nat.
Proof.
  unfold optional, constr_length, too_short, too_long. cbn [default from_option id].
  destruct raw as [s |].
  - destruct (Nat.ltb_spec hi (length s)); cbn [and_then]; split.
    + discriminate.
    + intros (_ & Hs). specialize (Hs s eq_refl). lia.
    + intros [= <-]. split; [reflexivity |]. now intros ? [= <-].
    + intros (-> & _). reflexivity.
  - split; [intros [= <-]; split; [reflexivity | discriminate] | now intros (-> & _)].
Qed.

Lemma company_field_spec (raw r : option pystr) :
  company_field raw = Accepted r <->
  r = raw /\ forall s, raw = Some s -> (length s <= 100)%nat.
Proof. apply bounded_optional. Qed.

Lemma phone_field_spec (raw r : option pystr) :
  phone_field isdigit raw = Accepted r <->
  r = raw /\
  forall s, raw = Some s ->
    (length s <= 20)%nat /\ (blank s \/ (7 <= length (digits isdigit s))%nat).
Proof.
  unfold phone_field.
  destruct (optional (constr_length None (Some 20%nat)) raw) as [v | e] eqn:E.
  - apply bounded_optional in E as [-> Hlen]. cbn [and_then].
    destruct (validate_phone_cases raw) as [(-> & s & Hs & Hn & Hd) | (-> & Hok)]; split.
    + discriminate.
    + intros (_ & H). destruct (H s Hs) as (_ & [Hb | Hd']); [contradiction | lia].
    + intros [= <-]. split; [reflexivity |]. intros s Hs. split; [eauto | eauto].
    + intros (-> & _). reflexivity.
  - cbn [and_then]. split; [discriminate |].
    intros (_ & H).
    assert (optional (constr_length None (Some 20%nat)) raw = Accepted raw) as E'.
    { apply bounded_optional. split; [reflexivity |]. intros s Hs. now apply H. }
    congruence.
Qed.

Lemma ContactForm_new_inl (n e : pystr) (c p : option pystr) (sv m : pystr)
    (f : ContactForm) :
  ContactForm_new isdigit email_validator n e c p sv m = inl f <->
  name_field n = Accepted (name f) /\
  email_field email_validator e = Accepted (email f) /\
  company_field c = Accepted (company f) /\
  phone_field isdigit p = Accepted (phone f) /\
  message_field m = Accepted (message f) /\
  service f = sv.
Proof.
  unfold ContactForm_new.
  destruct (name_field n), (email_field email_validator e), (company_field c),
    (phone_field isdigit p), (message_field m); split;
    try discriminate;
    try (intros (H1 & H2 & H3 & H4 & H5 & H6); discriminate).
  - intros [= <-]. repeat split.
  - intros (H1 & H2 & H3 & H4 & H5 & H6). destruct f. cbn in *. congruence.
Qed.

End Fields.

End ContactFacts.

(** X10.  [validate_name] and [validate_message] refuse exactly the
    values made of white space only (the empty string included), each with
    its own message.  Any other value is accepted and returned stripped:
    the result is the value without its leading and trailing white space,
    it is not empty, it neither starts nor ends with white space, and
    validating it again returns it unchanged. *)
Theorem validators_strip_and_refuse_blank (v : pystr) :
  (blank v /\
   Contact.validate_name v =
     Contact.Rejected (Contact.ValueError "Name cannot be empty") /\
   Contact.validate_message v =
     Contact.Rejected (Contact.ValueError "Message cannot be empty"))
  \/
  (~ blank v /\
   Contact.validate_name v = Contact.Accepted (Contact.strip v) /\
   Contact.validate_message v = Contact.Accepted (Contact.strip v) /\
   Contact.validate_name (Contact.strip v) = Contact.Accepted (Contact.strip v) /\
   Contact.validate_message (Contact.strip v) = Contact.Accepted (Contact.strip v) /\
   (exists before after,
      v = before ++ Contact.strip v ++ after /\ blank before /\ blank after) /\
   (exists c d,
      head (Contact.strip v) = Some c /\ last (Contact.strip v) = Some d /\
      Contact.isspace c = false /\ Contact.isspace d = false)).
Proof.
  destruct (stripping_validator "Name cannot be empty" v) as [[B N1] | (B & N1 & N2)];
  destruct (stripping_validator "Message cannot be empty" v) as [[B' M1] | (B' & M1 & M2)];
    try contradiction.
  - left. auto.
  - right. repeat (split; [assumption |]).
    split; [apply strip_split |].
    apply strip_ends. intros E. apply B. now apply strip_nil.
Qed.

(** X11.  [validate_phone] never changes the value: it either returns
    its argument as it is, or raises "Phone number too short".  It raises
    exactly when the value is a string that is not blank and holds fewer
    than seven digit characters; [None], the empty string and a string of
    white space only pass. *)
Theorem validate_phone_returns_input_or_too_short
    (isdigit : N -> bool) (v : option pystr) :
  (Contact.validate_phone isdigit v = Contact.Accepted v \/
   Contact.validate_phone isdigit v =
     Contact.Rejected (Contact.ValueError "Phone number too short")) /\
  (Contact.validate_phone isdigit v =
     Contact.Rejected (Contact.ValueError "Phone number too short") <->
   exists s, v = Some s /\ ~ blank s /\
             (length (Contact.digits isdigit s) < 7)%nat) /\
  (Contact.validate_phone isdigit v = Contact.Accepted v <->
   forall s, v = Some s ->
     blank s \/ (7 <= length (Contact.digits isdigit s))%nat).
Proof.
  destruct (validate_phone_cases isdigit v)
    as [(E & s & Hs & Hn & Hd) | (E & Hok)]; rewrite E.
  - split; [now right |]. split.
    + split; [intros _; eauto | reflexivity].
    + split; [discriminate |].
      intros H. destruct (H s Hs) as [Hb | Hd']; [contradiction | lia].
  - split; [now left |]. split.
    + split; [discriminate |].
      intros (s & Hs & Hn & Hd). destruct (Hok s Hs) as [Hb | Hd'];
        [contradiction | lia].
    + split; [intros _; exact Hok | reflexivity].
Qed.

(** X12.  A [ContactForm] is built exactly from valid fields, and it
    stores them as follows: the name and the message stripped, the
    address the e-mail check returned, the company, the phone and the
    service as they were given.  Valid means: a name of 2 to 100 and a
    message of 10 to 2000 characters (counted before stripping) that are
    not blank, an address the e-mail check accepts, a company of at most
    100 characters if there is one, and a phone of at most 20 characters
    that is blank or holds at least seven digits if there is one. *)
Theorem contact_form_built_iff_fields_valid
    (isdigit : N -> bool) (email_validator : pystr -> option pystr)
    (n e : pystr) (c p : option pystr) (sv m : pystr) (f : Contact.ContactForm) :
  Contact.ContactForm_new isdigit email_validator n e c p sv m = inl f <->
  ((2 <= length n <= 100)%nat /\ ~ blank n) /\
  email_validator e = Some (Contact.email f) /\
  (forall s, c = Some s -> (length s <= 100)%nat) /\
  (forall s, p = Some s ->
     (length s <= 20)%nat /\
     (blank s \/ (7 <= length (Contact.digits isdigit s))%nat)) /\
  ((10 <= length m <= 2000)%nat /\ ~ blank m) /\
  f = {| Contact.name := Contact.strip n;
         Contact.email := Contact.email f;
         Contact.company := c;
         Contact.phone := p;
         Contact.service := sv;
         Contact.message := Contact.strip m |}.
Proof.
  rewrite ContactForm_new_inl, name_field_spec, message_field_spec,
    email_field_spec, company_field_spec, phone_field_spec.
  split.
  - destruct f as [fn fe fc fp fs fm]. cbn.
    intros ((Hn & Bn & En) & He & (Ec & Hc) & (Ep & Hp) & (Hm & Bm & Em) & Es).
    subst. auto 10.
  - intros ((Hn & Bn) & He & Hc & Hp & (Hm & Bm) & ->). cbn. auto 10.
Qed.

(** X13.  What an accepted form holds: a name of 1 to 100 and a message
    of 1 to 2000 characters, neither starting nor ending with white
    space, a company of at most 100 and a phone of at most 20 characters.
    The lower bounds are 1, not the declared 2 and 10. *)
Theorem accepted_form_invariants
    (isdigit : N -> bool) (email_validator : pystr -> option pystr)
    (n e : pystr) (c p : option pystr) (sv m : pystr) (f : Contact.ContactForm) :
  Contact.ContactForm_new isdigit email_validator n e c p sv m = inl f ->
  (1 <= length (Contact.name f) <= 100)%nat /\
  (1 <= length (Contact.message f) <= 2000)%nat /\
  (exists a b, head (Contact.name f) = Some a /\ last (Contact.name f) = Some b /\
               Contact.isspace a = false /\ Contact.isspace b = false) /\
  (exists a b, head (Contact.message f) = Some a /\ last (Contact.message f) = Some b /\
               Contact.isspace a = false /\ Contact.isspace b = false) /\
  (forall s, Contact.company f = Some s -> (length s <= 100)%nat) /\
  (forall s, Contact.phone f = Some s ->
     (length s <= 20)%nat /\
     (blank s \/ (7 <= length (Contact.digits isdigit s))%nat)).
Proof.
  rewrite ContactForm_new_inl, name_field_spec, message_field_spec,
    email_field_spec, company_field_spec, phone_field_spec.
  intros ((Hn & Bn & En) & He & (Ec & Hc) & (Ep & Hp) & (Hm & Bm & Em) & Es).
  rewrite En, Em, Ec, Ep.
  assert (Sn : Contact.strip n <> []) by (intros E; apply Bn; now apply strip_nil).
  assert (Sm : Contact.strip m <> []) by (intros E; apply Bm; now apply strip_nil).
  pose proof (strip_length n). pose proof (strip_length m).
  split; [destruct (Contact.strip n); [congruence | simpl in *; lia] |].
  split; [destruct (Contact.strip m); [congruence | simpl in *; lia] |].
  split; [now apply strip_ends |]. split; [now apply strip_ends |].
  split; assumption.
Qed.

Lemma accepted_form_invariants_witness :
  let f := Email.sample_form in
  (1 <= length (Contact.name f) <= 100)%nat /\
  (1 <= length (Contact.message f) <= 2000)%nat /\
  (exists a b, head (Contact.name f) = Some a /\ last (Contact.name f) = Some b /\
               Contact.isspace a = false /\ Contact.isspace b = false) /\
  (exists a b, head (Contact.message f) = Some a /\ last (Contact.message f) = Some b /\
               Contact.isspace a = false /\ Contact.isspace b = false) /\
  (forall s, Contact.company f = Some s -> (length s <= 100)%nat) /\
  (forall s, Contact.phone f = Some s ->
     (length s <= 20)%nat /\
     (blank s \/ (7 <= length (Contact.digits Contact.ascii_digit s))%nat)).
Proof.
  intros f.
  exact (accepted_form_invariants Contact.ascii_digit Some
           (lit "  John Doe ") (lit "john.doe@example.com")
           (Some (lit "Tech Corp")) (Some (lit "+353 1 234 5678"))
           (lit "Technology Consulting")
           (lit "I'm interested in your technology consulting services for our digital transformation project.")
           f eq_refl).
Defined.

(** X14.  The length bounds of [name] and [message] are checked before
    the validators strip the value, so padding counts: one character
    that is not white space, padded with white space to the declared
    minimum, is accepted and stored as that single character. *)
Theorem padded_single_character_is_accepted
    (isdigit : N -> bool) (email_validator : pystr -> option pystr)
    (ch : N) (pad e a : pystr) (sv : pystr) :
  Contact.isspace ch = false ->
  blank pad ->
  (9 <= length pad <= 99)%nat ->
  email_validator e = Some a ->
  Contact.ContactForm_new isdigit email_validator
    (pad ++ [ch]) e None None sv (pad ++ [ch]) =
    inl {| Contact.name := [ch];
           Contact.email := a;
           Contact.company := None;
           Contact.phone := None;
           Contact.service := sv;
           Contact.message := [ch] |}.
Proof.
  intros Hch Hpad Hlen He.
  assert (Hs : Contact.strip (pad ++ [ch]) = [ch]).
  { unfold Contact.strip.
    assert (Hl : Contact.lstrip (pad ++ [ch]) = [ch]).
    { clear Hlen. induction Hpad as [| c pad' Hc _ IH]; simpl.
      - now rewrite Hch.
      - now rewrite Hc. }
    rewrite Hl. unfold Contact.rstrip. simpl. now rewrite Hch. }
  assert (Hb : ~ blank (pad ++ [ch])).
  { intros B. apply strip_nil in B. congruence. }
  assert (Hl : length (pad ++ [ch]) = S (length pad))
    by (rewrite length_app; simpl; lia).
  apply ContactForm_new_inl.
  cbn [Contact.name Contact.email Contact.company Contact.phone Contact.service
       Contact.message].
  split; [apply name_field_spec; rewrite Hl, Hs; repeat split; auto; lia |].
  split; [now apply email_field_spec |].
  split; [reflexivity |]. split; [reflexivity |].
  split; [apply message_field_spec; rewrite Hl, Hs; repeat split; auto; lia |].
  reflexivity.
Qed.

Lemma padded_single_character_is_accepted_witness :
  Contact.ContactForm_new Contact.ascii_digit Some
    (lit "         x") (lit "a@b.ie") None None (lit "Other") (lit "         x") =
    inl {| Contact.name := lit "x";
           Contact.email := lit "a@b.ie";
           Contact.company := None;
           Contact.phone := None;
           Contact.service := lit "Other";
           Contact.message := lit "x" |}.
Proof.
  refine (padded_single_character_is_accepted Contact.ascii_digit Some
            120%N (lit "         ") (lit "a@b.ie") (lit "a@b.ie") (lit "Other")
            eq_refl _ _ eq_refl).
  - unfold blank. repeat constructor.
  - simpl. lia.
Defined.

(** * The e-mail service *)

Section EmailFacts.
Import Email.

Lemma smtp_run (c : smtp_command) (o : smtp_server_behaviour) cs ds ls :
  smtp c o (Outbox cs ds ls) =
    match o (length cs) c with
    | Some x => (Raise x, Outbox (cs ++ [c]) ds ls)
    | None =>
        (Ok tt,
         Outbox (cs ++ [c])
           (match c with SendMessage msg => ds ++ [msg] | _ => ds end) ls)
    end.
Proof. reflexivity. Qed.

Ltac session_step n :=
  rewrite ?smtp_run; cbv beta iota; cbn [commands delivered log];
  rewrite ?length_app; cbn [length]; fold n;
  rewrite ?(Nat.add_comm n); cbn [Nat.add];
  rewrite ?app_nil_r, <- ?app_assoc; cbn [app];
  try reflexivity.

(** Without credentials nothing is sent. *)
Lemma send_without_credentials (svc : EmailService) (settings : Settings)
    (f : Contact.ContactForm) (o : smtp_server_behaviour) cs ds ls :
  credentials_missing svc = true ->
  send_contact_email svc settings f o (Outbox cs ds ls) =
    (Ok true,
     Outbox cs ds
       (ls ++ [LogWarning
                 (lit "SMTP credentials not configured, logging contact form instead");
               LogInfo (form_record f)])).
Proof.
  intros Hc. unfold send_contact_email, try_except. rewrite Hc.
  unfold _log_contact_form, bind, ret, logging. cbn [commands delivered log].
  now rewrite <- app_assoc.
Qed.

(** A body that cannot be encoded stops the call before the connection. *)
Lemma send_unencodable (svc : EmailService) (settings : Settings)
    (f : Contact.ContactForm) (o : smtp_server_behaviour) cs ds ls :
  credentials_missing svc = false ->
  existsb is_surrogate (email_body f) = true ->
  send_contact_email svc settings f o (Outbox cs ds ls) =
    (Ok false,
     Outbox cs ds (ls ++ [LogError UnicodeEncodeError; LogInfo (form_record f)])).
Proof.
  intros Hc Hb.
  unfold send_contact_email, contact_message, MIMEText, try_except, bind.
  rewrite Hc, Hb.
  unfold _log_contact_form, bind, ret, logging. cbn [commands delivered log].
  now rewrite <- app_assoc.
Qed.

(** The run of [send_contact_email] with credentials and a body that can
    be encoded, by the first command the server refuses. *)
Lemma send_with_credentials (svc : EmailService) (settings : Settings)
    (f : Contact.ContactForm) (o : smtp_server_behaviour) cs ds ls :
  credentials_missing svc = false ->
  existsb is_surrogate (email_body f) = false ->
  let n := length cs in
  let msg := the_message svc settings f in
  let connect := Connect (server svc) (port svc) in
  let login := Login (default [] (username svc)) (default [] (password svc)) in
  let failed issued sent x :=
    (Ok false,
     Outbox (cs ++ issued) (ds ++ sent) (ls ++ [LogError x; LogInfo (form_record f)])) in
  let closing issued x :=
    match o (length issued + n)%nat Quit with
    | Some y => failed (issued ++ [Quit]) [] y
    | None => failed (issued ++ [Quit]) [] x
    end in
  send_contact_email svc settings f o (Outbox cs ds ls) =
    match o n connect with
    | Some x => failed [connect] [] x
    | None =>
    match o (1 + n)%nat StartTLS with
    | Some x => closing [connect; StartTLS] x
    | None =>
    match o (2 + n)%nat login with
    | Some x => closing [connect; StartTLS; login] x
    | None =>
    match o (3 + n)%nat (SendMessage msg) with
    | Some x => closing [connect; StartTLS; login; SendMessage msg] x
    | None =>
    match o (4 + n)%nat Quit with
    | Some y => failed (session svc msg) [msg] y
    | None =>
        (Ok true,
         Outbox (cs ++ session svc msg) (ds ++ [msg])
           (ls ++ [LogInfo (lit "Contact email sent for " ++ Contact.name f)]))
    end end end end end.
Proof.
  intros Hc Hb n msg connect login failed closing.
  unfold send_contact_email, contact_message, MIMEText, try_except, bind, with_smtp.
  rewrite Hc, Hb.
  unfold _log_contact_form, bind, ret, logging, closing, failed, session.
  subst connect login msg. unfold the_message. cbn [length Nat.add]. session_step n.
  destruct (o n (Connect _ _)) as [x |] eqn:E0; [now session_step n |].
  session_step n.
  destruct (o (S n) StartTLS) as [x1 |] eqn:E1.
  { session_step n. destruct (o (S (S n)) Quit); session_step n. }
  session_step n.
  destruct (o (S (S n)) (Login _ _)) as [x2 |] eqn:E2.
  { session_step n. destruct (o (S (S (S n))) Quit); session_step n. }
  session_step n.
  destruct (o (S (S (S n))) (SendMessage _)) as [x3 |] eqn:E3.
  { session_step n. destruct (o (S (S (S (S n)))) Quit); session_step n. }
  session_step n.
  destruct (o (S (S (S (S n)))) Quit); session_step n.
Qed.

End EmailFacts.

Ltac send_cases svc settings f o s :=
  let Hc := fresh "Hc" in
  let Hb := fresh "Hb" in
  let R := fresh "R" in
  destruct s as [cs ds ls]; cbn [Email.commands Email.delivered Email.log];
  destruct (Email.credentials_missing svc) eqn:Hc;
  [ rewrite (send_without_credentials svc settings f o cs ds ls Hc)
  | destruct (existsb is_surrogate (Email.email_body f)) eqn:Hb;
    [ rewrite (send_unencodable svc settings f o cs ds ls Hc Hb)
    | pose proof (send_with_credentials svc settings f o cs ds ls Hc Hb) as R;
      cbv zeta in R; cbn [length Nat.add app] in R; rewrite R; clear R ] ].

Ltac server_cases o :=
  repeat match goal with
         | |- context [match o ?k ?c with _ => _ end] =>
             let E := fresh "E" in destruct (o k c) eqn:E
         end.


(** X15.  [send_contact_email] never raises, and no submission is lost:
    whatever the mail server does, the call returns a boolean and either
    the form has been written to the log, or the call returned [True]
    after the server accepted the message.  A [False] result always comes
    with the error and the form in the log. *)
Theorem contact_form_delivered_or_logged
    (svc : Email.EmailService) (settings : Email.Settings)
    (f : Contact.ContactForm) (o : Email.smtp_server_behaviour) (s : Email.outbox) :
  exists b s' entries,
    Email.send_contact_email svc settings f o s = (Ok b, s') /\
    Email.log s' = Email.log s ++ entries /\
    (In (Email.LogInfo (Email.form_record f)) entries \/
     b = true /\
     Email.delivered s' = Email.delivered s ++ [Email.the_message svc settings f]) /\
    (b = false <->
     exists e, entries = [Email.LogError e; Email.LogInfo (Email.form_record f)]).
Proof.
  send_cases svc settings f o s.
  - do 3 eexists. split; [reflexivity |]. split; [reflexivity |].
    split; [left; simpl; tauto |].
    split; [discriminate | intros [e [=]]].
  - do 3 eexists. split; [reflexivity |]. split; [reflexivity |].
    split; [left; simpl; tauto |]. split; [eauto | reflexivity].
  - server_cases o;
      (do 3 eexists; split; [reflexivity |]; split; [reflexivity |];
       split;
       [ first [ left; simpl; tauto | right; split; reflexivity ]
       | split; [ first [ discriminate | eauto ]
                | first [ reflexivity | intros [e [=]] ] ] ]).
Qed.

(** X16.  Without credentials (a user name or a password that is [None]
    or empty) the form is only logged: the call returns [True], no SMTP
    command is issued, nothing is delivered, and the log receives the
    warning and the form. *)
Theorem missing_credentials_log_only
    (svc : Email.EmailService) (settings : Email.Settings)
    (f : Contact.ContactForm) (o : Email.smtp_server_behaviour) (s : Email.outbox) :
  Email.username svc = None \/ Email.username svc = Some [] \/
  Email.password svc = None \/ Email.password svc = Some [] ->
  exists s',
    Email.send_contact_email svc settings f o s = (Ok true, s') /\
    Email.commands s' = Email.commands s /\
    Email.delivered s' = Email.delivered s /\
    Email.log s' =
      Email.log s ++
        [Email.LogWarning
           (lit "SMTP credentials not configured, logging contact form instead");
         Email.LogInfo (Email.form_record f)].
Proof.
  intros H.
  assert (Hc : Email.credentials_missing svc = true).
  { unfold Email.credentials_missing.
    destruct H as [-> | [-> | [-> | ->]]]; simpl; auto using orb_true_r. }
  destruct s as [cs ds ls].
  rewrite (send_without_credentials svc settings f o cs ds ls Hc).
  eexists. repeat split.
Qed.

Lemma missing_credentials_log_only_witness :
  exists s',
    Email.send_contact_email (Email.__init__ Email.defaults) Email.defaults
      Email.sample_form Email.willing Email.empty_outbox = (Ok true, s') /\
    Email.commands s' = [] /\
    Email.delivered s' = [] /\
    Email.log s' =
      [Email.LogWarning
         (lit "SMTP credentials not configured, logging contact form instead");
       Email.LogInfo (Email.form_record Email.sample_form)].
Proof.
  exact (missing_credentials_log_only (Email.__init__ Email.defaults) Email.defaults
           Email.sample_form Email.willing Email.empty_outbox (or_introl eq_refl)).
Defined.

(** X17.  With credentials and a body that can be encoded, the call
    returns [True] exactly when the server accepts the whole session:
    the connection, STARTTLS, the login, the message and the closing QUIT,
    in this order.  In that case these five commands are what the server
    saw, the message is delivered, and the log receives one line. *)
Theorem send_succeeds_iff_session_accepted
    (svc : Email.EmailService) (settings : Email.Settings)
    (f : Contact.ContactForm) (o : Email.smtp_server_behaviour) (s : Email.outbox) :
  Email.credentials_missing svc = false ->
  existsb is_surrogate (Email.email_body f) = false ->
  let msg := Email.the_message svc settings f in
  exists b s',
    Email.send_contact_email svc settings f o s = (Ok b, s') /\
    b = Email.accepts o (length (Email.commands s)) (Email.session svc msg) /\
    (b = true ->
     Email.commands s' = Email.commands s ++ Email.session svc msg /\
     Email.delivered s' = Email.delivered s ++ [msg] /\
     Email.log s' =
       Email.log s ++
         [Email.LogInfo (lit "Contact email sent for " ++ Contact.name f)]).
Proof.
  intros Hc' Hb' msg. subst msg.
  send_cases svc settings f o s; try discriminate.
  unfold Email.session. cbn [Email.accepts].
  server_cases o;
    (do 2 eexists; split; [reflexivity |]; split; [reflexivity |];
     first [ discriminate | intros _; repeat split ]).
Qed.

Lemma send_succeeds_iff_session_accepted_witness :
  exists s',
    Email.send_contact_email Email.sample_service Email.defaults Email.sample_form
      Email.willing Email.empty_outbox = (Ok true, s') /\
    Email.commands s' =
      Email.session Email.sample_service
        (Email.the_message Email.sample_service Email.defaults Email.sample_form) /\
    Email.delivered s' =
      [Email.the_message Email.sample_service Email.defaults Email.sample_form].
Proof.
  destruct (send_succeeds_iff_session_accepted Email.sample_service Email.defaults
              Email.sample_form Email.willing Email.empty_outbox eq_refl eq_refl)
    as (b & s' & Hrun & Hb & Hs).
  simpl in Hb. subst b. destruct (Hs eq_refl) as (H1 & H2 & _).
  exists s'. auto.
Defined.

(** X18.  Mail only goes out over an authenticated TLS session.  The
    commands of one call extend what the server saw before; among them a
    login appears only with the user name and password of the service and
    only after the server accepted the connection and STARTTLS, a message
    is handed over only after the login was accepted as well and it is
    the message of the form, nothing is delivered unless the server
    accepted it after these three steps, and a connection that was opened
    is always closed by QUIT. *)
Theorem mail_only_after_tls_and_login
    (svc : Email.EmailService) (settings : Email.Settings)
    (f : Contact.ContactForm) (o : Email.smtp_server_behaviour) (s : Email.outbox) :
  let n := length (Email.commands s) in
  let msg := Email.the_message svc settings f in
  let s' := snd (Email.send_contact_email svc settings f o s) in
  exists issued,
    Email.commands s' = Email.commands s ++ issued /\
    (forall u p,
       In (Email.Login u p) issued ->
       u = default [] (Email.username svc) /\
       p = default [] (Email.password svc) /\
       Email.credentials_missing svc = false /\
       Email.accepts o n (firstn 2 (Email.session svc msg)) = true) /\
    (forall m,
       In (Email.SendMessage m) issued ->
       m = msg /\
       Email.accepts o n (firstn 3 (Email.session svc msg)) = true) /\
    (Email.delivered s' = Email.delivered s \/
     Email.delivered s' = Email.delivered s ++ [msg] /\
     Email.accepts o n (firstn 4 (Email.session svc msg)) = true) /\
    (o n (Email.Connect (Email.server svc) (Email.port svc)) = None ->
     issued = [] \/ last issued = Some Email.Quit).
Proof.
  intros n msg s'. subst n msg s'.
  send_cases svc settings f o s.
  - exists []. rewrite app_nil_r. cbn [snd Email.commands Email.delivered].
    split; [reflexivity |]. split; [intros u p [] |].
    split; [intros m [] |]. auto.
  - exists []. rewrite app_nil_r. cbn [snd Email.commands Email.delivered].
    split; [reflexivity |]. split; [intros u p [] |].
    split; [intros m [] |]. auto.
  - unfold Email.session. cbn [firstn Email.accepts].
    server_cases o; cbn [snd Email.commands Email.delivered];
      (eexists; split; [reflexivity |]);
      (split;
       [ intros u p; cbn [In]; intros H;
         repeat match type of H with _ \/ _ => destruct H as [H | H] end;
         try discriminate H; try contradiction;
         injection H as <- <-; auto
       | split;
         [ intros m; cbn [In]; intros H;
           repeat match type of H with _ \/ _ => destruct H as [H | H] end;
           try discriminate H; try contradiction;
           injection H as <-; auto
         | split;
           [ rewrite ?app_nil_r; auto
           | intros H; first [ discriminate H | right; reflexivity ] ] ] ]).
Qed.

(** X19.  A [False] result does not mean that no mail was sent: when the
    server accepts the connection, STARTTLS, the login and the message
    but then refuses the closing QUIT, the message has been delivered and
    the call still returns [False] and logs the error and the form. *)
Theorem refused_quit_reports_failure_after_delivery
    (svc : Email.EmailService) (settings : Email.Settings)
    (f : Contact.ContactForm) (o : Email.smtp_server_behaviour) (s : Email.outbox)
    (x : exn) :
  Email.credentials_missing svc = false ->
  existsb is_surrogate (Email.email_body f) = false ->
  let n := length (Email.commands s) in
  let msg := Email.the_message svc settings f in
  Email.accepts o n (firstn 4 (Email.session svc msg)) = true ->
  o (4 + n)%nat Email.Quit = Some x ->
  exists s',
    Email.send_contact_email svc settings f o s = (Ok false, s') /\
    Email.delivered s' = Email.delivered s ++ [msg] /\
    Email.log s' =
      Email.log s ++ [Email.LogError x; Email.LogInfo (Email.form_record f)].
Proof.
  intros Hc' Hb' n msg. subst n msg.
  send_cases svc settings f o s; try discriminate.
  unfold Email.session. cbn [firstn Email.accepts Nat.add].
  server_cases o; intros Ha Hq; try discriminate Ha; try discriminate Hq.
  injection Hq as ->. eexists. repeat split.
Qed.

Lemma refused_quit_reports_failure_after_delivery_witness :
  exists s',
    Email.send_contact_email Email.sample_service Email.defaults Email.sample_form
      Email.quit_refused Email.empty_outbox = (Ok false, s') /\
    Email.delivered s' =
      [Email.the_message Email.sample_service Email.defaults Email.sample_form] /\
    Email.log s' =
      [Email.LogError OSError; Email.LogInfo (Email.form_record Email.sample_form)].
Proof.
  exact (refused_quit_reports_failure_after_delivery Email.sample_service
           Email.defaults Email.sample_form Email.quit_refused Email.empty_outbox
           OSError eq_refl eq_refl eq_refl eq_refl).
Defined.
